(** * img_sort: pair matrix, spanning-tree builders and linearizer

    A shallow embedding of the algorithmic core of img_sort:

    - [triangular_table] and its iterator (img_sort.h),
    - the heap-based [compute_mst] of img_sort.cpp (module [Heap]),
    - the array-scan [compute_mst] of the later revision of that file
      (module [Scan]), in both its debug and its NDEBUG build,
    - [pre_order], which is the same text in both revisions.

    Conventions.  [std::size_t] values are indices into, or sizes of,
    allocated vectors and are modelled by [nat]; [nth_triangular_no_wrap]
    records the range on which the 64-bit products of the source do not
    wrap.  The cost type [T] of the templates is modelled by [Z] with the
    order of [<=]; [numeric_limits<T>::max()] is a parameter [T_max].
    [RUNTIME_ASSERT] throws; a throw is an [Err] result that every caller
    propagates.  Reading outside a vector, reading an indeterminate value
    and [top()] on an empty queue are undefined in the source and are
    [Err (UndefinedBehaviour _)] here.  Loops without a syntactic bound take
    a fuel argument and return [Err OutOfFuel] when it runs out. *)

From Stdlib Require Import ZArith Lia List Bool Permutation Sorted.
From stdpp Require Import base list sorting.
Import ListNotations.

Open Scope nat_scope.

(** ** Results of fallible code *)

(** The conditions guarded by [RUNTIME_ASSERT], one constructor per
    textual occurrence. *)
Inductive assertion : Type :=
| A_table_n_gt_0          (* triangular_table: n > 0 *)
| A_iter_width_gt_0       (* iterator: m_table->m_width > 0 *)
| A_iter_y_lt_width       (* iterator::operator*: m_y < m_table->m_width *)
| A_xy_lt_width           (* operator(): x < m_width && y < m_width *)
| A_x_ne_y                (* operator(): x != y *)
| A_row_y_lt_width        (* row: y < m_width *)
| A_tree_size_gt_0        (* tree: size > 0 *)
| A_parent_lt_size        (* try_insert: parent < m_adjacency_list.size() *)
| A_child_lt_size         (* try_insert: child < m_parent.size() *)
| A_node_lt_size          (* children: node < m_adjacency_list.size() *)
| A_size_ge_2             (* compute_mst: size >= 2 *)
| A_insert_result         (* compute_mst: insert_result *)
| A_order_size.           (* pre_order: order.size() == mst.num_edges() + 1 *)

Inductive undefined : Type :=
| UB_vector_index         (* operator[] outside the vector *)
| UB_dummy_entry          (* source/destination of the dummy entry *)
| UB_empty_queue.         (* top() or pop() on an empty priority_queue *)

Inductive error : Type :=
| AssertFailed (a : assertion)
| UndefinedBehaviour (u : undefined)
| OutOfFuel.

Inductive result (A : Type) : Type :=
| Ok (a : A)
| Err (e : error).
Arguments Ok {A} a.
Arguments Err {A} e.

Definition bind {A B} (m : result A) (k : A -> result B) : result B :=
  match m with
  | Ok a => k a
  | Err e => Err e
  end.

Notation "'let*' x ':=' m 'in' k" := (bind m (fun x => k))
  (at level 10, x name, m at level 100, k at level 200).
Notation "'let*' ' p ':=' m 'in' k" := (bind m (fun x => let 'p := x in k))
  (at level 10, p pattern, m at level 100, k at level 200).

Definition runtime_assert (cond : bool) (a : assertion) : result unit :=
  if cond then Ok tt else Err (AssertFailed a).

Notation "'RUNTIME_ASSERT' ( cond , a ) ; k" :=
  (bind (runtime_assert cond a) (fun _ => k))
  (at level 10, cond at level 99, a at level 0, k at level 200).

(** [m_data[i]] *)
Definition vector_at {A} (v : list A) (i : nat) : result A :=
  match v !! i with
  | Some a => Ok a
  | None => Err (UndefinedBehaviour UB_vector_index)
  end.

(** ** triangular_table (img_sort.h) *)

Abbreviation coordinate := (nat * nat)%type.

Record triangular_table : Type := mk_table {
  m_data : list Z;
  m_width : nat
}.

Definition nth_triangular (n : nat) : nat := n * (n + 1) / 2.

(** The same expression on 64-bit [size_t]. *)
Definition nth_triangular_w64 (n : N) : N :=
  (((n * ((n + 1) mod 2 ^ 64)) mod 2 ^ 64) / 2)%N.

(** [triangular_table(n, val)]: the members are initialised first, then the
    body asserts [n > 0]. *)
Definition new_table (n : nat) (val : Z) : result triangular_table :=
  let t := {| m_data := replicate (nth_triangular n - n) val; m_width := n |} in
  RUNTIME_ASSERT (0 <? n, A_table_n_gt_0);
  Ok t.

(** [operator()(x, y)] *)
Definition cell_index (x y : nat) : nat :=
  let '(x, y) := if y <? x then (y, x) else (x, y) in
  nth_triangular (y - 1) + x.

Definition get (t : triangular_table) (x y : nat) : result Z :=
  RUNTIME_ASSERT ((x <? m_width t) && (y <? m_width t), A_xy_lt_width);
  RUNTIME_ASSERT (negb (x =? y), A_x_ne_y);
  vector_at (m_data t) (cell_index x y).

(** [row(y)]: the range is lazy in the source; its elements are produced in
    increasing [x], each through [operator()]. *)
Fixpoint row_cells (t : triangular_table) (y : nat) (xs : list nat)
  : result (list (coordinate * Z)) :=
  match xs with
  | [] => Ok []
  | x :: xs' =>
      let* v := get t x y in
      let* rest := row_cells t y xs' in
      Ok (((x, y), v) :: rest)
  end.

Definition row (t : triangular_table) (y : nat) : result (list (coordinate * Z)) :=
  RUNTIME_ASSERT (y <? m_width t, A_row_y_lt_width);
  row_cells t y (List.filter (fun x => negb (x =? y)) (seq 0 (m_width t))).

(** *** The iterator *)

Record iterator : Type := mk_iterator {
  m_x : nat;
  m_y : nat;
  m_prev_triangular : nat
}.

(** [begin()] *)
Definition begin_ (t : triangular_table) : result iterator :=
  RUNTIME_ASSERT (0 <? m_width t, A_iter_width_gt_0);
  Ok {| m_x := 0; m_y := 1; m_prev_triangular := 0 |}.

(** [it == end()]: the right-hand side has a null table. *)
Definition at_end (t : triangular_table) (it : iterator) : bool :=
  m_y it =? m_width t.

(** [operator*]: the coordinate and a reference into [m_data], the
    reference being the index of the cell. *)
Definition deref (t : triangular_table) (it : iterator) : result (coordinate * nat) :=
  RUNTIME_ASSERT (m_y it <? m_width t, A_iter_y_lt_width);
  let i := m_prev_triangular it + m_x it in
  let* cell := vector_at (m_data t) i in
  Ok ((m_x it, m_y it), i).

(** [operator++] *)
Definition next (it : iterator) : iterator :=
  let x := S (m_x it) in
  if x =? m_y it
  then {| m_x := 0; m_y := S (m_y it);
          m_prev_triangular := m_prev_triangular it + m_y it |}
  else {| m_x := x; m_y := m_y it; m_prev_triangular := m_prev_triangular it |}.

(** Assignment through a reference into [m_data]: the one a dereferenced
    iterator holds, or the one [operator()] returns, which is the cell at
    [cell_index]. *)
Definition write_ref (t : triangular_table) (i : nat) (v : Z) : triangular_table :=
  {| m_data := <[i := v]> (m_data t); m_width := m_width t |}.

(** [for (it = begin(); it != end(); ++it)] collecting [*it]. *)
Fixpoint iterate_from (fuel : nat) (t : triangular_table) (it : iterator)
  : result (list (coordinate * nat)) :=
  if at_end t it then Ok [] else
  match fuel with
  | 0 => Err OutOfFuel
  | S fuel' =>
      let* c := deref t it in
      let* rest := iterate_from fuel' t (next it) in
      Ok (c :: rest)
  end.

Definition iterate_all (fuel : nat) (t : triangular_table)
  : result (list (coordinate * nat)) :=
  let* it := begin_ t in
  iterate_from fuel t it.

(** A table as the constructor leaves it and as writes keep it. *)
Definition table_wf (n : nat) (t : triangular_table) : Prop :=
  m_width t = n /\ length (m_data t) = nth_triangular n - n.

(** The pairs in the order of the iterator: rows [y = 1, 2, ...], and
    [x = 0 .. y-1] inside a row. *)
Fixpoint all_pairs (n : nat) : list coordinate :=
  match n with
  | 0 => []
  | S m => all_pairs m ++ ((fun x => (x, m)) <$> seq 0 m)
  end.

Definition pair_lt (a b : coordinate) : Prop :=
  snd a < snd b \/ (snd a = snd b /\ fst a < fst b).

(** ** pre_order (the same text in both revisions)

    The stack is a list whose head is the top.  [children] is
    [tree::children] of the revision at hand. *)

Definition push (stack : list nat) (node : nat) : list nat := node :: stack.

Fixpoint pre_order_loop (fuel : nat) (children : nat -> result (list nat))
    (stack order : list nat) : result (list nat) :=
  match stack with
  | [] => Ok order
  | curr_node :: stack' =>
      match fuel with
      | 0 => Err OutOfFuel
      | S fuel' =>
          let order' := order ++ [curr_node] in
          let* cs := children curr_node in
          pre_order_loop fuel' children (fold_left push (rev cs) stack') order'
      end
  end.

Definition pre_order_on (fuel : nat) (children : nat -> result (list nat))
    (num_edges : nat) : result (list nat) :=
  let* order := pre_order_loop fuel children (push [] 0) [] in
  RUNTIME_ASSERT (length order =? num_edges + 1, A_order_size);
  Ok order.

(** [tree::children], on the adjacency list alone. *)
Definition children_of (adj : list (list nat)) (node : nat) : result (list nat) :=
  RUNTIME_ASSERT (node <? length adj, A_node_lt_size);
  vector_at adj node.

(** [m_adjacency_list[parent].emplace_back(child)] *)
Definition emplace_child (adj : list (list nat)) (parent child : nat)
  : result (list (list nat)) :=
  let* cs := vector_at adj parent in
  Ok (<[parent := cs ++ [child]]> adj).

(** The pre-order listing in the words of the specification: a node,
    then the listings of its children in discovery order. *)
Inductive preorder_listing (adj : list (list nat)) : nat -> list nat -> Prop :=
| listing_node node cs l :
    adj !! node = Some cs ->
    preorder_listings adj cs l ->
    preorder_listing adj node (node :: l)
with preorder_listings (adj : list (list nat)) : list nat -> list nat -> Prop :=
| listings_nil : preorder_listings adj [] []
| listings_cons c cs l1 l2 :
    preorder_listing adj c l1 ->
    preorder_listings adj cs l2 ->
    preorder_listings adj (c :: cs) (l1 ++ l2).

(** ** The heap-based builder (img_sort.cpp) *)

Module Heap.

(** [no_parent] is [None]. *)
Record tree : Type := mk_tree {
  m_parent : list (option nat);
  m_adjacency_list : list (list nat);
  m_num_edges : nat
}.

Definition new_tree (size : nat) : result tree :=
  let t := {| m_parent := replicate size None;
              m_adjacency_list := replicate size [];
              m_num_edges := 0 |} in
  RUNTIME_ASSERT (0 <? size, A_tree_size_gt_0);
  Ok t.

Definition contains (t : tree) (node : nat) : result bool :=
  if node =? 0 then Ok true
  else let* p := vector_at (m_parent t) node in
       Ok (match p with Some _ => true | None => false end).

Definition try_insert (t : tree) (parent child : nat) : result (tree * bool) :=
  RUNTIME_ASSERT (parent <? length (m_adjacency_list t), A_parent_lt_size);
  RUNTIME_ASSERT (child <? length (m_parent t), A_child_lt_size);
  let* c := contains t child in
  if c then Ok (t, false)
  else
    let* adj := emplace_child (m_adjacency_list t) parent child in
    Ok ({| m_parent := <[child := Some parent]> (m_parent t);
           m_adjacency_list := adj;
           m_num_edges := S (m_num_edges t) |}, true).

Definition children (t : tree) : nat -> result (list nat) :=
  children_of (m_adjacency_list t).

Definition num_edges (t : tree) : nat := m_num_edges t.

Definition pre_order (fuel : nat) (mst : tree) : result (list nat) :=
  pre_order_on fuel (children mst) (num_edges mst).

Record pq_entry : Type := mk_entry {
  source : nat;
  destination : nat;
  weight : Z
}.

(** [operator<] of [pq_entry] *)
Definition entry_lt (a b : pq_entry) : bool := (weight b <? weight a)%Z.

(** [std::priority_queue<pq_entry>]: the entries it holds.  [top()] is an
    entry that is not [operator<] any other; which one, among several, is
    left to the library, so [tops] lists every candidate together with the
    queue that [pop()] leaves. *)
Definition priority_queue : Type := list pq_entry.

Definition emplace (heap : priority_queue) (src dst : nat) (w : Z) : priority_queue :=
  heap ++ [{| source := src; destination := dst; weight := w |}].

Fixpoint selections {A} (l : list A) : list (A * list A) :=
  match l with
  | [] => []
  | x :: xs => (x, xs) :: map (fun '(y, ys) => (y, x :: ys)) (selections xs)
  end.

Definition is_top (heap : priority_queue) (e : pq_entry) : bool :=
  forallb (fun e' => negb (entry_lt e e')) heap.

Definition tops (heap : priority_queue) : list (pq_entry * priority_queue) :=
  List.filter (fun '(e, _) => is_top heap e) (selections heap).

(** [for (const auto &p : weights.row(y)) { auto [dst, src] = p.first; ... }]
    of the loop body *)
Fixpoint push_unreached (t : tree) (cells : list (coordinate * Z))
    (heap : priority_queue) : result priority_queue :=
  match cells with
  | [] => Ok heap
  | ((dst, src), w) :: cells' =>
      let* c := contains t dst in
      push_unreached t cells' (if negb c then emplace heap src dst w else heap)
  end.

(** and of the initial loop over [weights.row(0)] *)
Definition push_all (cells : list (coordinate * Z)) (heap : priority_queue)
  : priority_queue :=
  fold_left (fun h '((dst, src), w) => emplace h src dst w) cells heap.

(** The body of the [while] loop, after [top()] and [pop()]. *)
Definition visit (weights : triangular_table) (t : tree) (curr : pq_entry)
    (heap : priority_queue) : result (tree * priority_queue) :=
  let* '(t', inserted) := try_insert t (source curr) (destination curr) in
  if inserted then
    let* cells := row weights (destination curr) in
    let* heap' := push_unreached t' cells heap in
    Ok (t', heap')
  else Ok (t', heap).

Fixpoint mst_loop (fuel size : nat) (weights : triangular_table) (t : tree)
    (heap : priority_queue) : list (result tree) :=
  if num_edges t + 1 <? size then
    match fuel with
    | 0 => [Err OutOfFuel]
    | S fuel' =>
        match tops heap with
        | [] => [Err (UndefinedBehaviour UB_empty_queue)]
        | choices =>
            flat_map (fun '(curr, heap') =>
                        match visit weights t curr heap' with
                        | Ok (t', heap'') => mst_loop fuel' size weights t' heap''
                        | Err e => [Err e]
                        end) choices
        end
    end
  else [Ok t].

(** Every result the function can have, one per way the queue may order
    entries of equal weight. *)
Definition compute_mst (fuel size : nat) (weights : triangular_table)
  : list (result tree) :=
  match new_tree size with
  | Err e => [Err e]
  | Ok t =>
      match row weights 0 with
      | Err e => [Err e]
      | Ok cells => mst_loop fuel size weights t (push_all cells [])
      end
  end.

End Heap.

(** ** The array-scan builder (the later revision of img_sort.cpp)

    [NDEBUG] is the build flag: with it the tree keeps no [m_parent] and
    [try_insert] checks nothing about the child. *)

Module Scan.

Record tree : Type := mk_tree {
  m_parent : list bool;
  m_adjacency_list : list (list nat);
  m_num_edges : nat
}.

Definition new_tree (NDEBUG : bool) (size : nat) : result tree :=
  RUNTIME_ASSERT (0 <? size, A_tree_size_gt_0);
  Ok {| m_parent := if NDEBUG then [] else replicate size false;
        m_adjacency_list := replicate size [];
        m_num_edges := 0 |}.

Definition contains (t : tree) (node : nat) : result bool :=
  if node =? 0 then Ok true else vector_at (m_parent t) node.

Definition try_insert (NDEBUG : bool) (t : tree) (parent child : nat)
  : result (tree * bool) :=
  RUNTIME_ASSERT (parent <? length (m_adjacency_list t), A_parent_lt_size);
  if NDEBUG then
    let* adj := emplace_child (m_adjacency_list t) parent child in
    Ok ({| m_parent := m_parent t;
           m_adjacency_list := adj;
           m_num_edges := S (m_num_edges t) |}, true)
  else
    RUNTIME_ASSERT (child <? length (m_parent t), A_child_lt_size);
    let* c := contains t child in
    if c then Ok (t, false)
    else
      let* adj := emplace_child (m_adjacency_list t) parent child in
      Ok ({| m_parent := <[child := true]> (m_parent t);
             m_adjacency_list := adj;
             m_num_edges := S (m_num_edges t) |}, true).

Definition children (t : tree) : nat -> result (list nat) :=
  children_of (m_adjacency_list t).

Definition num_edges (t : tree) : nat := m_num_edges t.

Definition pre_order (fuel : nat) (mst : tree) : result (list nat) :=
  pre_order_on fuel (children mst) (num_edges mst).

Record pq_entry : Type := mk_entry {
  source : nat;
  destination : nat;
  cost : Z
}.

(** [std::vector<pq_entry> candidates(size)], value-initialised, then
    [candidates[i].destination = i]. *)
Definition initial_candidates (T_max : Z) (size : nat) : list pq_entry :=
  (fun i => {| source := 0; destination := i; cost := T_max |}) <$> seq 0 size.

(** [std::swap(candidates[i], candidates[candidates.size() - 1]);
    candidates.pop_back();] *)
Definition swap_pop (candidates : list pq_entry) (i : nat) : result (list pq_entry) :=
  match last candidates with
  | None => Err (UndefinedBehaviour UB_vector_index)
  | Some back =>
      let* front := vector_at candidates i in
      Ok (removelast (<[i := back]> candidates))
  end.

(** [min_entry]: [None] points to [dummy_entry], [Some i] to
    [candidates[i]]. *)
Definition min_entry_cost (T_max : Z) (candidates : list pq_entry)
    (min_entry : option nat) : result Z :=
  match min_entry with
  | None => Ok T_max
  | Some m => let* e := vector_at candidates m in Ok (cost e)
  end.

(** One turn of [for (auto &curr_candidate : candidates)], at index [i]. *)
Definition scan_step (T_max : Z) (weights : triangular_table) (just_inserted : nat)
    (st : list pq_entry * option nat) (i : nat)
  : result (list pq_entry * option nat) :=
  let '(candidates, min_entry) := st in
  let* curr_candidate := vector_at candidates i in
  let* cost_to_just_inserted := get weights just_inserted (destination curr_candidate) in
  let candidates' :=
    if (cost_to_just_inserted <=? cost curr_candidate)%Z
    then <[i := {| source := just_inserted;
                   destination := destination curr_candidate;
                   cost := cost_to_just_inserted |}]> candidates
    else candidates in
  let* min_cost := min_entry_cost T_max candidates' min_entry in
  Ok (candidates',
      if (cost_to_just_inserted <=? min_cost)%Z then Some i else min_entry).

Fixpoint scan_from (T_max : Z) (weights : triangular_table) (just_inserted : nat)
    (st : list pq_entry * option nat) (indices : list nat)
  : result (list pq_entry * option nat) :=
  match indices with
  | [] => Ok st
  | i :: indices' =>
      let* st' := scan_step T_max weights just_inserted st i in
      scan_from T_max weights just_inserted st' indices'
  end.

Definition scan (T_max : Z) (weights : triangular_table) (just_inserted : nat)
    (candidates : list pq_entry) : result (list pq_entry * option nat) :=
  scan_from T_max weights just_inserted (candidates, None)
            (seq 0 (length candidates)).

Record loop_state : Type := mk_state {
  t : tree;
  candidates : list pq_entry;
  just_inserted_index : nat;
  just_inserted : nat
}.

(** The body of the [while] loop. *)
Definition loop_body (NDEBUG : bool) (T_max : Z) (weights : triangular_table)
    (st : loop_state) : result loop_state :=
  let* popped := swap_pop (candidates st) (just_inserted_index st) in
  let* '(scanned, min_entry) := scan T_max weights (just_inserted st) popped in
  match min_entry with
  | None => Err (UndefinedBehaviour UB_dummy_entry)
  | Some m =>
      let* e := vector_at scanned m in
      let* '(t', insert_result) := try_insert NDEBUG (t st) (source e) (destination e) in
      RUNTIME_ASSERT (insert_result, A_insert_result);
      Ok {| t := t'; candidates := scanned;
            just_inserted_index := m; just_inserted := destination e |}
  end.

Fixpoint mst_loop (fuel : nat) (NDEBUG : bool) (T_max : Z) (final_num_edges : nat)
    (weights : triangular_table) (st : loop_state) : result tree :=
  if num_edges (t st) <? final_num_edges then
    match fuel with
    | 0 => Err OutOfFuel
    | S fuel' =>
        let* st' := loop_body NDEBUG T_max weights st in
        mst_loop fuel' NDEBUG T_max final_num_edges weights st'
    end
  else Ok (t st).

Definition compute_mst (fuel : nat) (NDEBUG : bool) (T_max : Z) (size : nat)
    (weights : triangular_table) : result tree :=
  RUNTIME_ASSERT (2 <=? size, A_size_ge_2);
  let* t0 := new_tree NDEBUG size in
  mst_loop fuel NDEBUG T_max (size - 1) weights
           {| t := t0; candidates := initial_candidates T_max size;
              just_inserted_index := 0; just_inserted := 0 |}.

End Scan.

(** ** Inputs of the specification's examples *)

(** [numeric_limits<double>::max()], an integer. *)
Definition DBL_MAX : Z := (2 ^ 1024 - 2 ^ 971)%Z.

(** A table of width [n] over the given cells, in the order of [m_data]:
    [d(0,1); d(0,2); d(1,2); d(0,3); d(1,3); d(2,3); ...]. *)
Definition table_of (n : nat) (cells : list Z) : triangular_table :=
  {| m_data := cells; m_width := n |}.

(** The edges of a tree as pairs (parent, child): parent by parent, the
    children of a parent in discovery order. *)
Definition edges_of (adj : list (list nat)) : list (nat * nat) :=
  concat (imap (fun parent cs => map (fun child => (parent, child)) cs) adj).

(** Total of the costs of a list of edges. *)
Fixpoint total_cost (weights : triangular_table) (edges : list (nat * nat)) : result Z :=
  match edges with
  | [] => Ok 0%Z
  | (p, c) :: edges' =>
      let* w := get weights p c in
      let* rest := total_cost weights edges' in
      Ok (w + rest)%Z
  end.

(** The cells the iterator visits from a position on: the rest of
    [all_pairs], each paired with its offset in [m_data]. *)
Definition indexed_pairs (n : nat) : list (coordinate * nat) :=
  zip (all_pairs n) (seq 0 (length (all_pairs n))).

(** ** Running code that takes fuel *)

(** [run] returns [a] whenever it is given enough fuel. *)
Definition returns {A} (run : nat -> result A) (a : A) : Prop :=
  exists k, forall fuel, k <= fuel -> run fuel = Ok a.

(** Given enough fuel, [run] has at least one result, and each of its
    results is a value that satisfies [P]. *)
Definition returns_all {A} (run : nat -> list (result A)) (P : A -> Prop) : Prop :=
  exists k, forall fuel, k <= fuel ->
    run fuel <> [] /\ Forall (fun r => exists a, r = Ok a /\ P a) (run fuel).

(** The 4-node matrix of the optimality test of the specification. *)
Definition weights_optimality : triangular_table := table_of 4 [1; 4; 1; 4; 4; 1]%Z.

(** The 3-item matrix of the end-to-end test: d(0,1)=5, d(0,2)=1, d(1,2)=9. *)
Definition weights_end_to_end : triangular_table := table_of 3 [5; 1; 9]%Z.

(** A 4-node matrix with pairwise distinct costs: d(0,1)=2, d(0,2)=3,
    d(1,2)=10, d(0,3)=4, d(1,3)=5, d(2,3)=1. *)
Definition weights_distinct : triangular_table := table_of 4 [2; 3; 10; 4; 5; 1]%Z.

(** The tree of the linearizer test: 0 has children [1; 3], 1 has [2]. *)
Definition adjacency_linearizer : list (list nat) := [[1; 3]; [2]; []; []].

(** ** Shape of the trees the builders make *)

(** The root and every node that was inserted as a child. *)
Definition tree_nodes (adj : list (list nat)) : list nat := 0 :: concat adj.

(** A tree on nodes [0 .. n-1] rooted at 0: no node is a child twice, 0 is
    no child, nodes outside the tree have no children, and the pre-order
    listing from 0 covers exactly the nodes of the tree. *)
Record tree_shape (n : nat) (adj : list (list nat)) : Prop := mk_shape {
  shape_length : length adj = n;
  shape_nodup : NoDup (tree_nodes adj);
  shape_bound : forall v, v ∈ tree_nodes adj -> v < n;
  shape_leaf : forall v, v < n -> v ∉ tree_nodes adj -> adj !! v = Some [];
  shape_listing : exists l, preorder_listing adj 0 l /\ l ≡ₚ tree_nodes adj
}.

(** ** Invariant of the array-scan loop *)

(** In the debug build [m_parent] flags exactly the inserted children. *)
Definition parent_flags (NDEBUG : bool) (n : nat) (adj : list (list nat))
    (m_parent : list bool) : Prop :=
  NDEBUG = false ->
  length m_parent = n /\
  forall v, v < n -> m_parent !! v = Some (bool_decide (v ∈ concat adj)).

(** At the head of the loop: removing the slot of the node inserted last
    leaves one slot for each node outside the tree, and every slot names a
    source inside the tree. *)
Record scan_inv (NDEBUG : bool) (n : nat) (st : Scan.loop_state) : Prop := mk_scan_inv {
  inv_shape : tree_shape n (Scan.m_adjacency_list (Scan.t st));
  inv_edges : Scan.num_edges (Scan.t st)
              = length (concat (Scan.m_adjacency_list (Scan.t st)));
  inv_flags : parent_flags NDEBUG n (Scan.m_adjacency_list (Scan.t st))
                (Scan.m_parent (Scan.t st));
  inv_pop : exists rest,
      Scan.swap_pop (Scan.candidates st) (Scan.just_inserted_index st) = Ok rest /\
      (Scan.destination <$> rest) ++ tree_nodes (Scan.m_adjacency_list (Scan.t st))
      ≡ₚ seq 0 n;
  inv_sources : forall e, e ∈ Scan.candidates st ->
      Scan.source e ∈ tree_nodes (Scan.m_adjacency_list (Scan.t st));
  inv_just_inserted :
      Scan.just_inserted st ∈ tree_nodes (Scan.m_adjacency_list (Scan.t st))
}.

(** What a scan keeps: the destinations, and sources that are the node
    inserted last or a source that was there before. *)
Definition scan_keeps (just_inserted : nat) (before after : list Scan.pq_entry) : Prop :=
  Scan.destination <$> after = Scan.destination <$> before /\
  forall e, e ∈ after ->
    Scan.source e = just_inserted \/ exists e0, e0 ∈ before /\ Scan.source e = Scan.source e0.

(** What [compute_mst] promises about the tree it returns. *)
Definition spanning_tree (n : nat) (adj : list (list nat)) (num_edges : nat) : Prop :=
  tree_shape n adj /\ num_edges = n - 1 /\ concat adj ≡ₚ seq 1 (n - 1).

(** Every cost is a value of the cost type. *)
Definition costs_below (T_max : Z) (weights : triangular_table) : Prop :=
  Forall (fun c => (c <= T_max)%Z) (m_data weights).

(** ** Invariant of the heap-based loop *)

(** [m_parent] holds a parent exactly for the inserted children. *)
Definition heap_flags (n : nat) (adj : list (list nat)) (m_parent : list (option nat)) : Prop :=
  length m_parent = n /\
  forall v, v < n -> exists o, m_parent !! v = Some o /\ (is_Some o <-> v ∈ concat adj).

(** Every entry of the queue leaves the tree, and every node outside the
    tree is the destination of some entry. *)
Record heap_inv (n : nat) (t : Heap.tree) (heap : Heap.priority_queue) : Prop := mk_heap_inv {
  hinv_shape : tree_shape n (Heap.m_adjacency_list t);
  hinv_edges : Heap.num_edges t = length (concat (Heap.m_adjacency_list t));
  hinv_flags : heap_flags n (Heap.m_adjacency_list t) (Heap.m_parent t);
  hinv_entries : forall e, e ∈ heap ->
      Heap.source e ∈ tree_nodes (Heap.m_adjacency_list t) /\ Heap.destination e < n;
  hinv_reach : forall v, v < n -> v ∉ tree_nodes (Heap.m_adjacency_list t) ->
      exists e, e ∈ heap /\ Heap.destination e = v
}.

(** A result of the heap-based loop that is a spanning tree. *)
Definition heap_result_ok (n : nat) (r : result Heap.tree) : Prop :=
  exists t, r = Ok t /\ spanning_tree n (Heap.m_adjacency_list t) (Heap.num_edges t).

(** ** What the builders promise *)

(** How many times [c] was inserted as a child, over all parents. *)
Definition times_child (adj : list (list nat)) (c : nat) : nat :=
  count_occ Nat.eq_dec (concat adj) c.

(** [n-1] edges, counted and stored; 0 is nobody's child; each of
    [1 .. n-1] is a child once; parents and children are nodes. *)
Definition rooted_with_all_nodes (n : nat) (adj : list (list nat)) (num_edges : nat) : Prop :=
  num_edges = n - 1 /\
  length (edges_of adj) = n - 1 /\
  times_child adj 0 = 0 /\
  (forall c, 1 <= c -> c < n -> times_child adj c = 1) /\
  (forall p c, (p, c) ∈ edges_of adj -> p < n /\ c < n).

(** The two failures of a lookup into the table. *)
Definition lookup_error (e : error) : Prop :=
  e = AssertFailed A_xy_lt_width \/ e = AssertFailed A_x_ne_y.

(** The failures on the size of the input. *)
Definition size_error (e : error) : Prop :=
  e = AssertFailed A_size_ge_2 \/ e = AssertFailed A_tree_size_gt_0.

(** ** The two builds of the array-scan revision *)

(** The tree object of the NDEBUG build with the same edges: the class has
    no [m_parent] there. *)
Definition release_tree (t : Scan.tree) : Scan.tree :=
  {| Scan.m_parent := [];
     Scan.m_adjacency_list := Scan.m_adjacency_list t;
     Scan.m_num_edges := Scan.m_num_edges t |}.

Definition release_state (st : Scan.loop_state) : Scan.loop_state :=
  {| Scan.t := release_tree (Scan.t st);
     Scan.candidates := Scan.candidates st;
     Scan.just_inserted_index := Scan.just_inserted_index st;
     Scan.just_inserted := Scan.just_inserted st |}.

(** What the NDEBUG build computes when the debug build computes [r],
    unless a check of the debug build fails. *)
Definition release_result (r : result Scan.tree) : result Scan.tree :=
  match r with
  | Ok t => Ok (release_tree t)
  | Err e => Err e
  end.

(** ** The distance fill of [main]

    [compute_diff], the function object that [main] applies to every
    dereferenced iterator of [diff_table]; [res] is the reference into
    [m_data].  Its assertion throws the same [runtime_error] as the one in
    [operator()], the text of the condition being the same. *)
Definition compute_diff {H} (compute_histogram_diff : H -> H -> Z) (histograms : list H)
    (diff_table : triangular_table) (kvp : coordinate * nat) : result triangular_table :=
  let '(coord, res) := kvp in
  let '(x, y) := coord in
  RUNTIME_ASSERT (negb (x =? y), A_x_ne_y);
  let* hx := vector_at histograms x in
  let* hy := vector_at histograms y in
  Ok (write_ref diff_table res (compute_histogram_diff hx hy)).

(** [std::for_each(table.begin(), table.end(), f)] in the order of
    [operator++]. *)
Fixpoint for_each_from (fuel : nat)
    (f : triangular_table -> coordinate * nat -> result triangular_table)
    (table : triangular_table) (it : iterator) : result triangular_table :=
  if at_end table it then Ok table else
  match fuel with
  | 0 => Err OutOfFuel
  | S fuel' =>
      let* kvp := deref table it in
      let* table' := f table kvp in
      for_each_from fuel' f table' (next it)
  end.

Definition for_each (fuel : nat)
    (f : triangular_table -> coordinate * nat -> result triangular_table)
    (table : triangular_table) : result triangular_table :=
  let* it := begin_ table in
  for_each_from fuel f table it.

(** The applications of [f] in a given order of the cells: [main] passes
    [std::execution::par], which leaves the order open. *)
Fixpoint apply_in_order
    (f : triangular_table -> coordinate * nat -> result triangular_table)
    (table : triangular_table) (cells : list (coordinate * nat)) : result triangular_table :=
  match cells with
  | [] => Ok table
  | kvp :: cells' =>
      let* table' := f table kvp in
      apply_in_order f table' cells'
  end.

(** The value [compute_diff] assigns for the pair [(x, y)]. *)
Definition pair_diff {H} (compute_histogram_diff : H -> H -> Z) (histograms : list H)
    (x y : nat) : option Z :=
  hx ← histograms !! x; hy ← histograms !! y; Some (compute_histogram_diff hx hy).

(** ** [main], from the loaded histograms on

    What comes before (the listing of the source directory, the loading of
    the images) is input and output only.  A hard link is recorded as the
    pair of its rank [idx], which becomes the prefix of the name, and the
    histogram whose file it links. *)
Fixpoint link_all {H} (histograms : list H) (idx : nat) (sort_order : list nat)
  : result (list (nat * H)) :=
  match sort_order with
  | [] => Ok []
  | entry :: sort_order' =>
      let* src := vector_at histograms entry in
      let* links := link_all histograms (S idx) sort_order' in
      Ok ((idx, src) :: links)
  end.

(** The exit status and the links created; an [Err] is an exception that
    leaves [main].  [T()] is 0 and the cost type is [double].  [pre_order]
    returns an engaged optional or throws, so the test of [sort_order_opt]
    never exits. *)
Definition scan_main {H} (fuel : nat) (NDEBUG : bool)
    (compute_histogram_diff : H -> H -> Z) (histograms : list H)
  : result (Z * list (nat * H)) :=
  if length histograms =? 0 then Ok ((-1)%Z, [])
  else if length histograms =? 1 then Ok (0%Z, [])
  else
    let* diff_table := new_table (length histograms) 0 in
    let* diff_table := for_each fuel (compute_diff compute_histogram_diff histograms) diff_table in
    let* mst := Scan.compute_mst fuel NDEBUG DBL_MAX (length histograms) diff_table in
    let* sort_order := Scan.pre_order fuel mst in
    let* links := link_all histograms 0 sort_order in
    Ok (0%Z, links).

(** The same for the heap-based revision, one result per result of its
    [compute_mst]. *)
Definition heap_main {H} (fuel : nat)
    (compute_histogram_diff : H -> H -> Z) (histograms : list H)
  : list (result (Z * list (nat * H))) :=
  if length histograms =? 0 then [Ok ((-1)%Z, [])]
  else if length histograms =? 1 then [Ok (0%Z, [])]
  else
    match (let* diff_table := new_table (length histograms) 0 in
           for_each fuel (compute_diff compute_histogram_diff histograms) diff_table) with
    | Err e => [Err e]
    | Ok diff_table =>
        (fun r =>
           let* mst := r in
           let* sort_order := Heap.pre_order fuel mst in
           let* links := link_all histograms 0 sort_order in
           Ok (0%Z, links))
        <$> Heap.compute_mst fuel (length histograms) diff_table
    end.

(** ** Tree objects built through the interface

    The trees a caller can hold: the constructor, then [try_insert] with
    any arguments, each call returning normally. *)
Inductive heap_built (size : nat) : Heap.tree -> Prop :=
| heap_built_new t :
    Heap.new_tree size = Ok t -> heap_built size t
| heap_built_insert t parent child t' inserted :
    heap_built size t ->
    Heap.try_insert t parent child = Ok (t', inserted) ->
    heap_built size t'.

Inductive scan_built (NDEBUG : bool) (size : nat) : Scan.tree -> Prop :=
| scan_built_new t :
    Scan.new_tree NDEBUG size = Ok t -> scan_built NDEBUG size t
| scan_built_insert t parent child t' inserted :
    scan_built NDEBUG size t ->
    Scan.try_insert NDEBUG t parent child = Ok (t', inserted) ->
    scan_built NDEBUG size t'.

(** What the checks of [try_insert] keep about the children lists: they
    are [size] lists, no node is listed twice, 0 is not listed, and every
    listed node is below [size]. *)
Record checked_adjacency (size : nat) (adj : list (list nat)) : Prop := mk_checked {
  checked_length : length adj = size;
  checked_nodup : NoDup (tree_nodes adj);
  checked_bound : forall v, v ∈ tree_nodes adj -> v < size
}.

(** An example: a tree object of three nodes after [try_insert(0, 2)] and
    [try_insert(2, 1)], in the heap-based revision and in the debug build
    of the later one. *)
Definition heap_tree_0_2_1 : Heap.tree :=
  {| Heap.m_parent := [None; Some 2; Some 0];
     Heap.m_adjacency_list := [[2]; []; [1]];
     Heap.m_num_edges := 2 |}.

Definition scan_tree_0_2_1 : Scan.tree :=
  {| Scan.m_parent := [false; true; true];
     Scan.m_adjacency_list := [[2]; []; [1]];
     Scan.m_num_edges := 2 |}.

(** ** Spanning trees of the complete graph on [0 .. n-1] *)

(** Two nodes joined by one of the edges, in either direction. *)
Definition joined (edges : list (nat * nat)) (a b : nat) : Prop :=
  (a, b) ∈ edges \/ (b, a) ∈ edges.

Inductive connected (edges : list (nat * nat)) : nat -> nat -> Prop :=
| connected_refl a : connected edges a a
| connected_step a b c :
    connected edges a b -> joined edges b c -> connected edges a c.

(** [n - 1] edges between distinct nodes below [n] that connect every
    node to 0. *)
Definition is_spanning_tree (n : nat) (edges : list (nat * nat)) : Prop :=
  length edges = n - 1 /\
  (forall p c, (p, c) ∈ edges -> p < n /\ c < n /\ p <> c) /\
  forall v, v < n -> connected edges 0 v.

(** An edge with exactly one end among [nodes]. *)
Definition crosses (nodes : list nat) (e : nat * nat) : Prop :=
  (e.1 ∈ nodes /\ e.2 ∉ nodes) \/ (e.2 ∈ nodes /\ e.1 ∉ nodes).

(** The cost of an edge as [operator()] reads it, and of a list of edges. *)
Definition edge_cost (weights : triangular_table) (e : nat * nat) : Z :=
  match get weights e.1 e.2 with
  | Ok w => w
  | Err _ => 0%Z
  end.

Definition edges_cost (weights : triangular_table) (edges : list (nat * nat)) : Z :=
  foldr (fun e z => (edge_cost weights e + z)%Z) 0%Z edges.

(** The star around 0. *)
Definition star (n : nat) : list (nat * nat) := (fun c => (0, c)) <$> seq 1 (n - 1).

(** ** The heap-based loop as Prim's algorithm *)

(** The state of the loop with respect to a spanning tree [reference]: the queue holds, with its cost, every edge that leaves
    the tree, and the edges of the tree are part of a spanning tree that
    costs no more than [reference]. *)
Record prim_inv (n : nat) (weights : triangular_table) (reference : list (nat * nat))
    (t : Heap.tree) (heap : Heap.priority_queue) : Prop := mk_prim_inv {
  prim_heap : heap_inv n t heap;
  prim_weights : forall e, e ∈ heap ->
      Heap.weight e = edge_cost weights (Heap.source e, Heap.destination e);
  prim_crossing : forall a b,
      a ∈ tree_nodes (Heap.m_adjacency_list t) -> b < n ->
      b ∉ tree_nodes (Heap.m_adjacency_list t) ->
      exists e, e ∈ heap /\ Heap.source e = a /\ Heap.destination e = b;
  prim_extends : exists extension,
      is_spanning_tree n extension /\
      edges_of (Heap.m_adjacency_list t) ⊆+ extension /\
      (edges_cost weights extension <= edges_cost weights reference)%Z
}.

(** A result of the heap-based builder that is a spanning tree and costs
    no more than [reference]. *)
Definition no_dearer_than (n : nat) (weights : triangular_table)
    (reference : list (nat * nat)) (r : result Heap.tree) : Prop :=
  exists t, r = Ok t /\
    is_spanning_tree n (edges_of (Heap.m_adjacency_list t)) /\
    (edges_cost weights (edges_of (Heap.m_adjacency_list t))
     <= edges_cost weights reference)%Z.

(** ** The turns of the array-scan loop *)

(** The states in which the loop of the array-scan [compute_mst] tests its
    condition: the initial one, and the one after each turn. *)
Inductive scan_loop_head (NDEBUG : bool) (T_max : Z) (n : nat) (weights : triangular_table)
  : Scan.loop_state -> Prop :=
| loop_head_first t0 :
    Scan.new_tree NDEBUG n = Ok t0 ->
    scan_loop_head NDEBUG T_max n weights
      {| Scan.t := t0; Scan.candidates := Scan.initial_candidates T_max n;
         Scan.just_inserted_index := 0; Scan.just_inserted := 0 |}
| loop_head_next st st' :
    scan_loop_head NDEBUG T_max n weights st ->
    (Scan.num_edges (Scan.t st) <? n - 1) = true ->
    Scan.loop_body NDEBUG T_max weights st = Ok st' ->
    scan_loop_head NDEBUG T_max n weights st'.

(** What the scan leaves in the slot [curr_candidate], the cost to the
    node inserted last being [cost_to_just_inserted]. *)
Definition rescanned (just_inserted : nat) (curr_candidate : Scan.pq_entry)
    (cost_to_just_inserted : Z) : Scan.pq_entry :=
  if (cost_to_just_inserted <=? Scan.cost curr_candidate)%Z
  then {| Scan.source := just_inserted;
          Scan.destination := Scan.destination curr_candidate;
          Scan.cost := cost_to_just_inserted |}
  else curr_candidate.

(** At the head of the loop every slot knows the least cost from its
    destination to the nodes that were in the tree before the node
    inserted last, and a source at that cost; a slot that was never
    lowered still holds [T_max]. *)
Definition best_known (T_max : Z) (weights : triangular_table) (st : Scan.loop_state) : Prop :=
  forall e, e ∈ Scan.candidates st ->
    (forall u, u ∈ tree_nodes (Scan.m_adjacency_list (Scan.t st)) ->
               u <> Scan.just_inserted st ->
               (Scan.cost e <= edge_cost weights (u, Scan.destination e))%Z) /\
    (Scan.cost e = T_max \/
     (Scan.source e ∈ tree_nodes (Scan.m_adjacency_list (Scan.t st)) /\
      Scan.source e <> Scan.just_inserted st /\
      edge_cost weights (Scan.source e, Scan.destination e) = Scan.cost e)).

(** ** The heap-based loop on pairwise distinct costs *)

(** The state of the loop on a table of pairwise distinct costs: every
    entry of the queue carries the cost of its edge, and no two entries
    carry the same cost. *)
Record distinct_inv (n : nat) (weights : triangular_table)
    (t : Heap.tree) (heap : Heap.priority_queue) : Prop := mk_distinct_inv {
  distinct_heap : heap_inv n t heap;
  distinct_entries : forall e, e ∈ heap ->
      Heap.source e <> Heap.destination e /\
      m_data weights !! cell_index (Heap.source e) (Heap.destination e)
      = Some (Heap.weight e);
  distinct_weights : NoDup (Heap.weight <$> heap)
}.

(** The entries that the inner loop of the body pushes for the cells of a
    row, [nodes] being the nodes of the tree. *)
Definition pushed_entries (nodes : list nat) (cells : list (coordinate * Z))
  : list Heap.pq_entry :=
  omap (fun '((dst, src), w) =>
          if decide (dst ∈ nodes) then None
          else Some {| Heap.source := src; Heap.destination := dst; Heap.weight := w |})
       cells.

(** * Properties *)

(** ** Results *)

Lemma bind_Ok_inv {A B} (m : result A) (k : A -> result B) b :
  bind m k = Ok b -> exists a, m = Ok a /\ k a = Ok b.
Proof. destruct m as [a|e]; simpl; [eauto | discriminate]. Qed.

Lemma runtime_assert_Ok cond a u : runtime_assert cond a = Ok u -> cond = true.
Proof. unfold runtime_assert. destruct cond; congruence. Qed.

Lemma vector_at_Some {A} (v : list A) i a : v !! i = Some a -> vector_at v i = Ok a.
Proof. unfold vector_at. intros ->. reflexivity. Qed.

Lemma vector_at_Ok {A} (v : list A) i a : vector_at v i = Ok a -> v !! i = Some a.
Proof. unfold vector_at. destruct (v !! i); congruence. Qed.

(** ** The triangular numbers *)

Lemma nth_triangular_S n : nth_triangular (S n) = nth_triangular n + S n.
Proof.
  unfold nth_triangular.
  replace (S n * (S n + 1)) with (n * (n + 1) + S n * 2) by lia.
  rewrite Nat.div_add by lia. reflexivity.
Qed.

Lemma nth_triangular_0 : nth_triangular 0 = 0.
Proof. reflexivity. Qed.

Lemma nth_triangular_pred n : 0 < n -> nth_triangular n - n = nth_triangular (n - 1).
Proof.
  destruct n as [|m]; [lia|]. intros _.
  rewrite nth_triangular_S. replace (S m - 1) with m by lia. lia.
Qed.

Lemma nth_triangular_mono a b : a <= b -> nth_triangular a <= nth_triangular b.
Proof.
  induction 1 as [|b Hab IH]; [lia|]. rewrite nth_triangular_S. lia.
Qed.

Lemma nth_triangular_row x y :
  x < y -> nth_triangular (y - 1) + x < nth_triangular y.
Proof.
  destruct y as [|y]; [lia|]. intros Hxy.
  rewrite nth_triangular_S. replace (S y - 1) with y by lia. lia.
Qed.

Lemma nth_triangular_half n : nth_triangular (n - 1) = n * (n - 1) / 2.
Proof.
  unfold nth_triangular. destruct n as [|m]; [reflexivity|].
  replace (S m - 1) with m by lia. f_equal. lia.
Qed.


(** ** triangular_table *)

Lemma cell_index_sym x y : cell_index x y = cell_index y x.
Proof.
  unfold cell_index.
  destruct (y <? x) eqn:Hyx, (x <? y) eqn:Hxy; try reflexivity.
  - apply Nat.ltb_lt in Hyx, Hxy. lia.
  - apply Nat.ltb_ge in Hyx, Hxy. replace y with x by lia. reflexivity.
Qed.

Lemma cell_index_lt x y : x < y -> cell_index x y = nth_triangular (y - 1) + x.
Proof.
  intros Hxy. unfold cell_index.
  destruct (y <? x) eqn:Hyx; [apply Nat.ltb_lt in Hyx; lia | reflexivity].
Qed.

Lemma cell_index_bound n x y :
  x < n -> y < n -> x <> y -> cell_index x y < nth_triangular (n - 1).
Proof.
  intros Hx Hy Hne.
  assert (Hcase : x < y \/ y < x) by lia.
  destruct Hcase as [Hlt|Hlt].
  - rewrite (cell_index_lt _ _ Hlt).
    pose proof (nth_triangular_row _ _ Hlt).
    pose proof (nth_triangular_mono y (n - 1)). lia.
  - rewrite cell_index_sym, (cell_index_lt _ _ Hlt).
    pose proof (nth_triangular_row _ _ Hlt).
    pose proof (nth_triangular_mono x (n - 1)). lia.
Qed.

Lemma get_sym t x y : get t x y = get t y x.
Proof.
  unfold get. rewrite (andb_comm (x <? m_width t)), (Nat.eqb_sym x y).
  rewrite (cell_index_sym x y). reflexivity.
Qed.

Lemma get_valid n t x y :
  table_wf n t -> x < n -> y < n -> x <> y ->
  exists v, m_data t !! cell_index x y = Some v /\ get t x y = Ok v.
Proof.
  intros [Hw Hlen] Hx Hy Hne.
  assert (Hi : cell_index x y < length (m_data t)).
  { rewrite Hlen, nth_triangular_pred by lia. by apply cell_index_bound. }
  apply lookup_lt_is_Some_2 in Hi. destruct Hi as [v Hv].
  exists v. split; [exact Hv|].
  unfold get. rewrite Hw.
  assert (Hxn : (x <? n) = true) by (apply Nat.ltb_lt; lia).
  assert (Hyn : (y <? n) = true) by (apply Nat.ltb_lt; lia).
  assert (Hxy : (x =? y) = false) by (apply Nat.eqb_neq; lia).
  rewrite Hxn, Hyn, Hxy. simpl. by apply vector_at_Some.
Qed.

Lemma new_table_wf n v t : new_table n v = Ok t -> table_wf n t.
Proof.
  unfold new_table. destruct (0 <? n); simpl; [|discriminate].
  intros [= <-]. split; simpl; [reflexivity | apply length_replicate].
Qed.

Lemma write_ref_wf n t i v : table_wf n t -> table_wf n (write_ref t i v).
Proof. intros [Hw Hlen]. split; simpl; [exact Hw | by rewrite length_insert]. Qed.

(** *** The order of the iterator *)

Lemma length_all_pairs n : length (all_pairs n) = nth_triangular (n - 1).
Proof.
  induction n as [|m IH]; [reflexivity|].
  simpl. rewrite length_app, length_fmap, length_seq, IH.
  replace (m - 0) with m by lia.
  destruct m as [|k]; [reflexivity|].
  rewrite nth_triangular_S. replace (S k - 1) with k by lia. lia.
Qed.

Lemma all_pairs_lookup n x y :
  x < y -> y < n -> all_pairs n !! (nth_triangular (y - 1) + x) = Some (x, y).
Proof.
  induction n as [|m IH]; intros Hxy Hyn; [lia|].
  simpl. destruct (decide (y = m)) as [->|Hne].
  - rewrite lookup_app_r by (rewrite length_all_pairs; lia).
    rewrite length_all_pairs.
    replace (nth_triangular (m - 1) + x - nth_triangular (m - 1)) with x by lia.
    rewrite list_lookup_fmap, lookup_seq_lt by lia. reflexivity.
  - rewrite lookup_app_l; [apply IH; lia|].
    rewrite length_all_pairs.
    pose proof (nth_triangular_row _ _ Hxy).
    pose proof (nth_triangular_mono y (m - 1)). lia.
Qed.

Lemma elem_of_all_pairs n x y : (x, y) ∈ all_pairs n <-> x < y /\ y < n.
Proof.
  induction n as [|m IH]; simpl.
  - split; [intros H; inversion H | lia].
  - rewrite elem_of_app, IH, list_elem_of_fmap. split.
    + intros [[? ?]|[z [Heq Hz]]]; [lia|].
      apply elem_of_seq in Hz. injection Heq as -> ->. lia.
    + intros [Hxy Hy]. destruct (decide (y = m)) as [->|Hne]; [right | left; lia].
      exists x. split; [reflexivity | apply elem_of_seq; lia].
Qed.

Lemma seq_sorted j m : StronglySorted lt (seq j m).
Proof.
  revert j. induction m as [|k IHk]; intros j; simpl; constructor.
  - apply IHk.
  - apply Forall_forall. intros z Hz. apply elem_of_seq in Hz. lia.
Qed.

Lemma all_pairs_sorted n : StronglySorted pair_lt (all_pairs n).
Proof.
  induction n as [|m IH]; simpl; [constructor|].
  apply StronglySorted_app_2; [| exact IH |].
  - intros [x1 y1] [x2 y2] H1 H2.
    apply elem_of_all_pairs in H1. apply list_elem_of_fmap in H2.
    destruct H2 as [z [[= -> ->] _]]. left. simpl. lia.
  - apply (StronglySorted_fmap (fun x => (x, m)) lt pair_lt).
    + intros a b Hab. right. simpl. lia.
    + apply seq_sorted.
Qed.

Lemma pair_lt_irrefl a : ~ pair_lt a a.
Proof. unfold pair_lt. lia. Qed.

Lemma StronglySorted_lookup_lt {A} (R : A -> A -> Prop) (l : list A) i j a b :
  StronglySorted R l -> i < j -> l !! i = Some a -> l !! j = Some b -> R a b.
Proof.
  intros Hs. revert i j. induction Hs as [|c l Hs IH Hall]; intros i j Hij Hi Hj.
  - rewrite lookup_nil in Hi. discriminate.
  - destruct j as [|j]; [lia|]. simpl in Hj.
    destruct i as [|i]; simpl in Hi.
    + injection Hi as ->. rewrite Forall_forall in Hall.
      apply Hall. by eapply list_elem_of_lookup_2.
    + apply (IH i j); [lia | done | done].
Qed.

Lemma StronglySorted_irrefl_NoDup {A} (R : A -> A -> Prop) (l : list A) :
  (forall a, ~ R a a) -> StronglySorted R l -> NoDup l.
Proof.
  intros Hirr. induction 1 as [|c l Hs IH Hall]; constructor; [|exact IH].
  intros Hc. rewrite Forall_forall in Hall. exact (Hirr c (Hall c Hc)).
Qed.

Lemma length_indexed_pairs n : length (indexed_pairs n) = nth_triangular (n - 1).
Proof.
  unfold indexed_pairs. rewrite length_zip, length_seq, length_all_pairs. lia.
Qed.

Lemma indexed_pairs_fst n : (indexed_pairs n).*1 = all_pairs n.
Proof. unfold indexed_pairs. apply fst_zip. rewrite length_seq. lia. Qed.

Lemma indexed_pairs_lookup n x y :
  x < y -> y < n ->
  indexed_pairs n !! (nth_triangular (y - 1) + x)
  = Some ((x, y), nth_triangular (y - 1) + x).
Proof.
  intros Hxy Hyn. unfold indexed_pairs.
  apply lookup_zip_with_Some. eexists _, _. split; [reflexivity|].
  split; [by apply all_pairs_lookup|].
  apply lookup_seq. split; [reflexivity|].
  rewrite length_all_pairs.
  pose proof (nth_triangular_row _ _ Hxy).
  pose proof (nth_triangular_mono y (n - 1)). lia.
Qed.

Lemma indexed_pairs_snd n c i : (c, i) ∈ indexed_pairs n -> i < nth_triangular (n - 1).
Proof.
  unfold indexed_pairs. intros H. apply list_elem_of_lookup in H as [k Hk].
  apply lookup_zip_with_Some in Hk as (a & b & [= <- <-] & _ & Hb).
  apply lookup_seq in Hb. rewrite length_all_pairs in Hb. lia.
Qed.

Lemma iterate_from_spec n t fuel x y :
  table_wf n t -> x < y -> y <= n ->
  nth_triangular (n - 1) <= nth_triangular (y - 1) + x + fuel ->
  iterate_from fuel t {| m_x := x; m_y := y; m_prev_triangular := nth_triangular (y - 1) |}
  = Ok (drop (nth_triangular (y - 1) + x) (indexed_pairs n)).
Proof.
  intros Hwf. destruct Hwf as [Hw Hlen].
  revert x y. induction fuel as [|fuel IH]; intros x y Hxy Hyn Hfuel.
  - assert (y = n).
    { destruct (decide (y = n)) as [|Hne]; [done|].
      pose proof (nth_triangular_row _ _ Hxy).
      pose proof (nth_triangular_mono y (n - 1)). lia. }
    subst y. simpl. unfold at_end. simpl. rewrite Hw, Nat.eqb_refl.
    rewrite drop_ge; [reflexivity | rewrite length_indexed_pairs; lia].
  - simpl. unfold at_end. simpl. rewrite Hw.
    destruct (y =? n) eqn:Hy.
    { apply Nat.eqb_eq in Hy. subst y.
      rewrite drop_ge; [reflexivity | rewrite length_indexed_pairs; lia]. }
    apply Nat.eqb_neq in Hy.
    assert (Hidx : nth_triangular (y - 1) + x < nth_triangular (n - 1)).
    { pose proof (nth_triangular_row _ _ Hxy).
      pose proof (nth_triangular_mono y (n - 1)). lia. }
    unfold deref. simpl. rewrite Hw.
    assert (Hyn' : (y <? n) = true) by (apply Nat.ltb_lt; lia).
    rewrite Hyn'. simpl.
    assert (Hcell : is_Some (m_data t !! (nth_triangular (y - 1) + x))).
    { apply lookup_lt_is_Some_2. rewrite Hlen, nth_triangular_pred by lia. lia. }
    destruct Hcell as [v Hv]. rewrite (vector_at_Some _ _ _ Hv). simpl.
    rewrite (drop_S _ _ _ (indexed_pairs_lookup n x y Hxy ltac:(lia))).
    unfold next. cbn [m_x m_y m_prev_triangular].
    destruct (S x =? y) eqn:Hrow.
    + apply Nat.eqb_eq in Hrow.
      specialize (IH 0 (S y) ltac:(lia) ltac:(lia)).
      replace (S y - 1) with y in IH by lia.
      assert (Hny : nth_triangular y = nth_triangular (y - 1) + y).
      { destruct y as [|k]; [lia|]. rewrite nth_triangular_S.
        by replace (S k - 1) with k by lia. }
      rewrite <- Hny, IH by lia.
      replace (S (nth_triangular (y - 1) + x)) with (nth_triangular y + 0) by lia.
      reflexivity.
    + apply Nat.eqb_neq in Hrow.
      specialize (IH (S x) y ltac:(lia) ltac:(lia) ltac:(lia)).
      rewrite IH. replace (nth_triangular (y - 1) + S x)
        with (S (nth_triangular (y - 1) + x)) by lia. reflexivity.
Qed.

Lemma iterate_all_spec n t fuel :
  table_wf n t -> 1 <= n -> nth_triangular (n - 1) <= fuel ->
  iterate_all fuel t = Ok (indexed_pairs n).
Proof.
  intros Hwf Hn Hfuel. unfold iterate_all, begin_.
  rewrite (proj1 Hwf).
  assert (H0 : (0 <? n) = true) by (apply Nat.ltb_lt; lia).
  rewrite H0. simpl.
  pose proof (iterate_from_spec n t fuel 0 1 Hwf) as Hit.
  simpl in Hit. rewrite nth_triangular_0 in Hit. simpl in Hit.
  apply Hit; lia.
Qed.

Lemma get_write_ref n t x y v :
  table_wf n t -> x < n -> y < n -> x <> y ->
  get (write_ref t (cell_index x y) v) x y = Ok v.
Proof.
  intros Hwf Hx Hy Hne.
  destruct (get_valid n (write_ref t (cell_index x y) v) x y) as (v' & Hv' & ->);
    [by apply write_ref_wf | done | done | done |].
  simpl in Hv'. rewrite list_lookup_insert_eq in Hv'; [congruence|].
  destruct Hwf as [_ Hlen]. rewrite Hlen, nth_triangular_pred by lia.
  by apply cell_index_bound.
Qed.

Lemma indexed_pairs_ref n x y r :
  ((x, y), r) ∈ indexed_pairs n -> x < y /\ y < n /\ r = cell_index x y.
Proof.
  intros Hin.
  assert (Hxy : x < y /\ y < n).
  { apply elem_of_all_pairs. rewrite <- indexed_pairs_fst.
    apply list_elem_of_fmap. by exists ((x, y), r). }
  destruct Hxy as [Hxy Hyn]. split; [done|]. split; [done|].
  pose proof (indexed_pairs_lookup n x y Hxy Hyn) as Hl.
  apply list_elem_of_lookup in Hin as [k Hk].
  unfold indexed_pairs in Hk, Hl.
  apply lookup_zip_with_Some in Hk as (a & b & Heq & Ha & Hb).
  apply lookup_zip_with_Some in Hl as (a' & b' & Heq' & Ha' & Hb').
  injection Heq as <- <-. injection Heq' as <- <-.
  apply lookup_seq in Hb as [-> _]. apply lookup_seq in Hb' as [Hb' _].
  simpl in Hb'. rewrite (cell_index_lt _ _ Hxy).
  assert (Hnd : NoDup (all_pairs n)).
  { apply (StronglySorted_irrefl_NoDup pair_lt);
      [apply pair_lt_irrefl | apply all_pairs_sorted]. }
  simpl. symmetry. eapply NoDup_lookup; eauto.
Qed.



Lemma cell_index_inj n x y x' y' :
  x < n -> y < n -> x <> y -> x' < n -> y' < n -> x' <> y' ->
  cell_index x y = cell_index x' y' -> (x = x' /\ y = y') \/ (x = y' /\ y = x').
Proof.
  assert (Hnorm : forall a b, a < n -> b < n -> a <> b ->
            all_pairs n !! cell_index a b = Some (Nat.min a b, Nat.max a b)).
  { intros a b Ha Hb Hab. destruct (decide (a < b)) as [Hlt|Hge].
    - rewrite (cell_index_lt _ _ Hlt), Nat.min_l, Nat.max_r by lia.
      by apply all_pairs_lookup.
    - rewrite cell_index_sym, cell_index_lt, Nat.min_r, Nat.max_l by lia.
      apply all_pairs_lookup; lia. }
  intros Hx Hy Hxy Hx' Hy' Hxy' Heq.
  pose proof (Hnorm x y Hx Hy Hxy) as H1.
  pose proof (Hnorm x' y' Hx' Hy' Hxy') as H2.
  rewrite Heq in H1. rewrite H1 in H2. injection H2 as Hmin Hmax. lia.
Qed.

Lemma get_write_ref_other n t i j x y v :
  table_wf n t -> i < n -> j < n -> i <> j -> x < n -> y < n -> x <> y ->
  ~ ((x = i /\ y = j) \/ (x = j /\ y = i)) ->
  get (write_ref t (cell_index i j) v) x y = get t x y.
Proof.
  intros Hwf Hi Hj Hij Hx Hy Hxy Hother.
  unfold get, write_ref. cbn [m_width m_data].
  destruct (runtime_assert ((x <? m_width t) && (y <? m_width t)) A_xy_lt_width);
    cbn [bind]; [|reflexivity].
  destruct (runtime_assert (negb (x =? y)) A_x_ne_y); cbn [bind]; [|reflexivity].
  unfold vector_at. rewrite list_lookup_insert_ne; [reflexivity|].
  intros Heq. apply Hother.
  destruct (cell_index_inj n i j x y Hi Hj Hij Hx Hy Hxy Heq) as [[-> ->]|[-> ->]]; tauto.
Qed.

(** C8: [get(i,j)] and [get(j,i)] are the same read on every table, hence
    also after any write.  Both coordinate orders designate the same cell;
    a write into the cell that [operator()] designates for [(i,j)], or
    through the reference of a dereferenced iterator, is read back through
    both orders and leaves every other cell as it was. *)
Theorem get_symmetric_also_after_writes (n : nat) (t : triangular_table) (v : Z) :
  table_wf n t -> 1 <= n ->
  (forall x y, get t x y = get t y x) /\
  (forall i j, i < n -> j < n -> i <> j ->
     cell_index i j = cell_index j i /\
     get (write_ref t (cell_index i j) v) i j = Ok v /\
     get (write_ref t (cell_index i j) v) j i = Ok v /\
     (forall x y, get (write_ref t (cell_index i j) v) x y
                  = get (write_ref t (cell_index i j) v) y x) /\
     (forall x y, x < n -> y < n -> x <> y ->
                  ~ ((x = i /\ y = j) \/ (x = j /\ y = i)) ->
                  get (write_ref t (cell_index i j) v) x y = get t x y)) /\
  (forall fuel, n * (n - 1) / 2 <= fuel ->
     exists cells, iterate_all fuel t = Ok cells /\
       forall x y r, ((x, y), r) ∈ cells ->
         r = cell_index x y /\
         get (write_ref t r v) x y = Ok v /\ get (write_ref t r v) y x = Ok v).
Proof.
  intros Hwf Hn. split; [apply get_sym|]. split.
  - intros i j Hi Hj Hij.
    split; [apply cell_index_sym|].
    split; [by apply (get_write_ref n)|].
    split; [rewrite get_sym; by apply (get_write_ref n)|].
    split; [intros; apply get_sym|].
    intros x y Hx Hy Hxy Hother. by apply (get_write_ref_other n).
  - intros fuel Hfuel. exists (indexed_pairs n).
    rewrite <- nth_triangular_half in Hfuel.
    split; [by apply iterate_all_spec|].
    intros x y r Hin. apply indexed_pairs_ref in Hin as (Hxy & Hyn & ->).
    split; [reflexivity|].
    split; [apply (get_write_ref n); done || lia|].
    rewrite get_sym. apply (get_write_ref n); done || lia.
Qed.

Lemma get_symmetric_also_after_writes_witness :
  get (write_ref weights_optimality (cell_index 3 1) 42) 1 3 = Ok 42%Z /\
  get (write_ref weights_optimality (cell_index 3 1) 42) 3 1 = Ok 42%Z.
Proof.
  assert (Hwf : table_wf 4 weights_optimality) by (split; reflexivity).
  destruct (get_symmetric_also_after_writes 4 _ 42 Hwf ltac:(lia)) as (_ & Hset & _).
  destruct (Hset 3 1 ltac:(lia) ltac:(lia) ltac:(lia)) as (_ & H1 & H2 & _).
  split; [exact H2 | exact H1].
Defined.

(** ** The examples of the specification *)

Lemma total_cost_at_least_length weights edges :
  table_wf 4 weights -> Forall (fun c => (1 <= c)%Z) (m_data weights) ->
  Forall (fun e => fst e < 4 /\ snd e < 4 /\ fst e <> snd e) edges ->
  exists z, total_cost weights edges = Ok z /\ (Z.of_nat (length edges) <= z)%Z.
Proof.
  intros Hwf Hdata. induction 1 as [|[p c] edges (Hp & Hc & Hpc) _ IH].
  - exists 0%Z. split; [reflexivity | simpl; lia].
  - simpl in *. destruct (get_valid 4 weights p c Hwf Hp Hc Hpc) as (w & Hw & ->).
    destruct IH as (z & -> & Hz). simpl. exists (w + z)%Z. split; [reflexivity|].
    rewrite Forall_forall in Hdata.
    assert (1 <= w)%Z by (apply Hdata; by eapply list_elem_of_lookup_2). lia.
Qed.

(** C2: on the 4-node matrix d(0,1)=1, d(0,2)=4, d(0,3)=4, d(1,2)=1,
    d(1,3)=4, d(2,3)=1 both builders return a tree of 3 edges whose costs
    sum to 3, and no three edges of that matrix cost less. *)
Theorem optimality_example_total_cost_3 :
  (forall NDEBUG, exists t,
     returns (fun fuel => Scan.compute_mst fuel NDEBUG DBL_MAX 4 weights_optimality) t /\
     Scan.num_edges t = 3 /\
     total_cost weights_optimality (edges_of (Scan.m_adjacency_list t)) = Ok 3%Z) /\
  returns_all (fun fuel => Heap.compute_mst fuel 4 weights_optimality)
    (fun t => Heap.num_edges t = 3 /\
              total_cost weights_optimality (edges_of (Heap.m_adjacency_list t)) = Ok 3%Z) /\
  (forall edges, length edges = 3 ->
     Forall (fun e => fst e < 4 /\ snd e < 4 /\ fst e <> snd e) edges ->
     exists z, total_cost weights_optimality edges = Ok z /\ (3 <= z)%Z).
Proof.
  split; [|split].
  - intros [|]; eexists; (split; [|split]).
    1,4: exists 3; intros fuel Hfuel;
      destruct fuel as [|[|[|fuel]]]; try lia;
      destruct fuel; vm_compute; reflexivity.
    all: reflexivity.
  - exists 3. intros fuel Hfuel.
    destruct fuel as [|[|[|fuel]]]; try lia.
    destruct fuel; vm_compute; (split; [discriminate|]);
      repeat constructor; eexists; (split; [reflexivity|]); split; reflexivity.
  - intros edges Hlen Hedges.
    destruct (total_cost_at_least_length weights_optimality edges) as (z & Hz & Hle);
      [split; reflexivity | | exact Hedges |].
    + unfold weights_optimality, table_of. simpl. repeat constructor; lia.
    + exists z. split; [exact Hz | lia].
Qed.

(** C5: on the 3-item matrix d(0,1)=5, d(0,2)=1, d(1,2)=9 both builders
    return the tree with the edges (0,2) then (0,1), the root's children
    being [2; 1] in discovery order, and [pre_order] of it is [0; 2; 1]. *)
Theorem end_to_end_example_order_0_2_1 :
  (forall NDEBUG, exists t,
     returns (fun fuel => Scan.compute_mst fuel NDEBUG DBL_MAX 3 weights_end_to_end) t /\
     Scan.children t 0 = Ok [2; 1] /\
     edges_of (Scan.m_adjacency_list t) = [(0, 2); (0, 1)] /\
     returns (fun fuel => Scan.pre_order fuel t) [0; 2; 1]) /\
  returns_all (fun fuel => Heap.compute_mst fuel 3 weights_end_to_end)
    (fun t => Heap.children t 0 = Ok [2; 1] /\
              edges_of (Heap.m_adjacency_list t) = [(0, 2); (0, 1)] /\
              returns (fun fuel => Heap.pre_order fuel t) [0; 2; 1]).
Proof.
  split.
  - intros [|]; eexists; (split; [|split; [|split]]).
    1,5: exists 2; intros fuel Hfuel;
      destruct fuel as [|[|fuel]]; try lia;
      destruct fuel; vm_compute; reflexivity.
    1,2,4,5: reflexivity.
    all: exists 3; intros fuel Hfuel;
      destruct fuel as [|[|[|fuel]]]; try lia;
      destruct fuel; vm_compute; reflexivity.
  - exists 2. intros fuel Hfuel.
    destruct fuel as [|[|fuel]]; try lia.
    destruct fuel; vm_compute; (split; [discriminate|]);
      repeat constructor; eexists; (split; [reflexivity|]);
      (split; [reflexivity|]); (split; [reflexivity|]);
      exists 3; intros fuel' Hfuel';
      (destruct fuel' as [|[|[|fuel']]]; try lia);
      destruct fuel'; vm_compute; reflexivity.
Qed.

(** C1, evaluated where it fails: on the matrix d(0,1)=2, d(0,2)=3,
    d(1,2)=10, d(0,3)=4, d(1,3)=5, d(2,3)=1 the second turn of the loop
    inserts the slot of node 3, whose best known cost is 4, while the slot
    of node 2 with best known cost 3 remains; the tree returned costs 7,
    and the spanning tree (0,1), (0,2), (2,3) costs 6. *)
Theorem scan_inserts_a_slot_that_is_not_minimal :
  forall NDEBUG, exists t0 st1 st2 inserted other t,
    Scan.new_tree NDEBUG 4 = Ok t0 /\
    Scan.loop_body NDEBUG DBL_MAX weights_distinct
      {| Scan.t := t0; Scan.candidates := Scan.initial_candidates DBL_MAX 4;
         Scan.just_inserted_index := 0; Scan.just_inserted := 0 |} = Ok st1 /\
    Scan.loop_body NDEBUG DBL_MAX weights_distinct st1 = Ok st2 /\
    Scan.candidates st2 !! Scan.just_inserted_index st2 = Some inserted /\
    Scan.just_inserted st2 = Scan.destination inserted /\
    other ∈ Scan.candidates st2 /\
    (Scan.cost other < Scan.cost inserted)%Z /\
    returns (fun fuel => Scan.compute_mst fuel NDEBUG DBL_MAX 4 weights_distinct) t /\
    edges_of (Scan.m_adjacency_list t) = [(0, 1); (0, 3); (3, 2)] /\
    total_cost weights_distinct (edges_of (Scan.m_adjacency_list t)) = Ok 7%Z /\
    total_cost weights_distinct [(0, 1); (0, 2); (2, 3)] = Ok 6%Z.
Proof.
  intros [|]; do 3 eexists;
    exists {| Scan.source := 0; Scan.destination := 3; Scan.cost := 4 |},
           {| Scan.source := 0; Scan.destination := 2; Scan.cost := 3 |};
    eexists.
  all: split; [reflexivity|].
  all: split; [vm_compute; reflexivity|].
  all: split; [vm_compute; reflexivity|].
  all: split; [reflexivity|].
  all: split; [reflexivity|].
  all: split; [simpl; apply list_elem_of_In; simpl; tauto|].
  all: split; [simpl; lia|].
  all: split;
    [exists 3; intros fuel Hfuel;
     destruct fuel as [|[|[|fuel]]]; try lia;
     destruct fuel; vm_compute; reflexivity|].
  all: split; [reflexivity|]; split; reflexivity.
Qed.

(** ** pre_order *)

Scheme preorder_listing_mut := Minimality for preorder_listing Sort Prop
  with preorder_listings_mut := Minimality for preorder_listings Sort Prop.
Combined Scheme preorder_listing_mutind
  from preorder_listing_mut, preorder_listings_mut.

Lemma fold_left_push cs stack : fold_left push (rev cs) stack = cs ++ stack.
Proof.
  revert stack. induction cs as [|c cs IH]; intros stack; [reflexivity|].
  simpl. rewrite fold_left_app. simpl. rewrite IH. reflexivity.
Qed.

Lemma listings_app adj a b la lb :
  preorder_listings adj a la -> preorder_listings adj b lb ->
  preorder_listings adj (a ++ b) (la ++ lb).
Proof.
  induction 1 as [|c cs l1 l2 Hc Hcs IH]; intros Hb; [exact Hb|].
  simpl. rewrite <- app_assoc. constructor; [exact Hc | exact (IH Hb)].
Qed.

Lemma listings_nil_inv adj stack : preorder_listings adj stack [] -> stack = [].
Proof.
  inversion 1 as [|c cs l1 l2 Hc Hcs Heq1 Heq2]; [reflexivity|].
  inversion Hc; subst. discriminate.
Qed.

Lemma children_of_Some adj node cs :
  adj !! node = Some cs -> children_of adj node = Ok cs.
Proof.
  intros H. unfold children_of.
  assert (Hlt : (node <? length adj) = true).
  { apply Nat.ltb_lt. eapply lookup_lt_Some. exact H. }
  rewrite Hlt. simpl. by apply vector_at_Some.
Qed.

Lemma pre_order_loop_listings adj fuel :
  forall stack order l,
    preorder_listings adj stack l -> length l <= fuel ->
    pre_order_loop fuel (children_of adj) stack order = Ok (order ++ l).
Proof.
  induction fuel as [|fuel IH]; intros stack order l Hl Hfuel.
  - destruct l; [|simpl in Hfuel; lia].
    apply listings_nil_inv in Hl. subst stack. simpl. by rewrite app_nil_r.
  - destruct Hl as [|c cs l1 l2 Hc Hcs]; [simpl; by rewrite app_nil_r|].
    destruct Hc as [node ccs lc Hnode Hccs].
    cbn [pre_order_loop]. rewrite (children_of_Some _ _ _ Hnode). simpl.
    rewrite fold_left_push.
    rewrite (IH (ccs ++ cs) (order ++ [node]) (lc ++ l2)).
    + rewrite <- app_assoc. reflexivity.
    + by apply listings_app.
    + simpl in Hfuel. rewrite length_app in *. lia.
Qed.

Lemma pre_order_on_listing adj num_edges fuel l :
  preorder_listing adj 0 l -> length l = num_edges + 1 -> length l <= fuel ->
  pre_order_on fuel (children_of adj) num_edges = Ok l.
Proof.
  intros Hl Hlen Hfuel. unfold pre_order_on, push.
  rewrite (pre_order_loop_listings adj fuel [0] [] (l ++ [])).
  - simpl. rewrite app_nil_r, Hlen, Nat.eqb_refl. reflexivity.
  - constructor; [exact Hl | constructor].
  - rewrite app_nil_r. exact Hfuel.
Qed.

(** ** Inserting a child *)

Lemma concat_insert_snoc (adj : list (list nat)) p cs c :
  adj !! p = Some cs -> concat (<[p := cs ++ [c]]> adj) ≡ₚ c :: concat adj.
Proof.
  revert p. induction adj as [|a adj IH]; intros p Hp.
  - rewrite lookup_nil in Hp. discriminate.
  - destruct p as [|p]; simpl in *.
    + injection Hp as ->. rewrite <- app_assoc. simpl.
      rewrite <- Permutation_middle. reflexivity.
    + rewrite (IH p Hp). rewrite <- Permutation_middle. reflexivity.
Qed.

Lemma emplace_child_Ok adj p c cs :
  adj !! p = Some cs -> emplace_child adj p c = Ok (<[p := cs ++ [c]]> adj).
Proof. intros H. unfold emplace_child. rewrite (vector_at_Some _ _ _ H). reflexivity. Qed.

Lemma listing_emplace adj p cs_p c :
  adj !! p = Some cs_p -> adj !! c = Some [] -> c <> p ->
  (forall node l, preorder_listing adj node l -> NoDup l ->
     exists l', preorder_listing (<[p := cs_p ++ [c]]> adj) node l' /\
                l' ≡ₚ (if decide (p ∈ l) then c :: l else l)) /\
  (forall cs l, preorder_listings adj cs l -> NoDup l ->
     exists l', preorder_listings (<[p := cs_p ++ [c]]> adj) cs l' /\
                l' ≡ₚ (if decide (p ∈ l) then c :: l else l)).
Proof.
  intros Hp Hc Hcp.
  set (adj' := <[p := cs_p ++ [c]]> adj).
  assert (Hp' : adj' !! p = Some (cs_p ++ [c])).
  { apply list_lookup_insert_eq. eapply lookup_lt_Some. exact Hp. }
  assert (Hc' : preorder_listing adj' c [c]).
  { econstructor; [|constructor].
    unfold adj'. rewrite list_lookup_insert_ne by congruence. exact Hc. }
  apply preorder_listing_mutind.
  - intros node cs l Hnode Hcs IH Hnd.
    apply NoDup_cons in Hnd as [Hnotin Hnd].
    destruct (IH Hnd) as (l' & Hl' & Hperm).
    destruct (decide (node = p)) as [->|Hne].
    + assert (cs = cs_p) by congruence. subst cs.
      exists (p :: (l' ++ [c] ++ [])).
      split.
      { econstructor; [exact Hp'|]. apply listings_app; [exact Hl'|].
        constructor; [exact Hc' | constructor]. }
      rewrite decide_False in Hperm by exact Hnotin.
      rewrite decide_True by (left; reflexivity).
      rewrite Hperm, app_nil_r, <- Permutation_cons_append. apply perm_swap.
    + exists (node :: l'). split.
      { econstructor; [|exact Hl'].
        unfold adj'. rewrite list_lookup_insert_ne by congruence. exact Hnode. }
      rewrite Hperm. destruct (decide (p ∈ l)) as [Hin|Hnin].
      * rewrite decide_True by (right; exact Hin). apply perm_swap.
      * rewrite decide_False; [reflexivity|].
        intros Hin. apply elem_of_cons in Hin as [?|?]; congruence.
  - intros _. exists []. split; [constructor|].
    rewrite decide_False; [reflexivity | apply not_elem_of_nil].
  - intros c0 cs l1 l2 Hc0 IH1 Hcs IH2 Hnd.
    apply NoDup_app in Hnd as (Hnd1 & Hdisj & Hnd2).
    destruct (IH1 Hnd1) as (l1' & Hl1' & Hperm1).
    destruct (IH2 Hnd2) as (l2' & Hl2' & Hperm2).
    exists (l1' ++ l2'). split; [by constructor|].
    rewrite Hperm1, Hperm2.
    destruct (decide (p ∈ l1)) as [Hin1|Hnin1];
      destruct (decide (p ∈ l2)) as [Hin2|Hnin2].
    + exfalso. exact (Hdisj p Hin1 Hin2).
    + rewrite decide_True by (apply elem_of_app; by left). reflexivity.
    + rewrite decide_True by (apply elem_of_app; by right).
      symmetry. apply Permutation_middle.
    + rewrite decide_False; [reflexivity|].
      intros Hin. apply elem_of_app in Hin as [?|?]; done.
Qed.

Lemma tree_shape_init n : 0 < n -> tree_shape n (replicate n []).
Proof.
  intros Hn.
  assert (Hconcat : concat (replicate n ([] : list nat)) = []).
  { clear. induction n; simpl; [reflexivity | assumption]. }
  split.
  - apply length_replicate.
  - unfold tree_nodes. rewrite Hconcat. apply NoDup_singleton.
  - unfold tree_nodes. rewrite Hconcat. intros v Hv.
    apply list_elem_of_singleton in Hv. lia.
  - intros v Hv _. by apply lookup_replicate_2.
  - exists [0]. unfold tree_nodes. rewrite Hconcat. split; [|reflexivity].
    econstructor; [by apply lookup_replicate_2 | constructor].
Qed.

Lemma tree_shape_emplace n adj p c :
  tree_shape n adj -> p ∈ tree_nodes adj -> c < n -> c ∉ tree_nodes adj ->
  exists adj', emplace_child adj p c = Ok adj' /\ tree_shape n adj' /\
               concat adj' ≡ₚ c :: concat adj.
Proof.
  intros [Hlen Hnd Hbound Hleaf (l & Hl & Hperm)] Hp Hc Hnotin.
  assert (Hpn : p < n) by (by apply Hbound).
  assert (Hcs : is_Some (adj !! p)) by (apply lookup_lt_is_Some_2; lia).
  destruct Hcs as [cs Hcs].
  assert (Hcp : c <> p) by (intros ->; done).
  exists (<[p := cs ++ [c]]> adj).
  pose proof (concat_insert_snoc adj p cs c Hcs) as Hconcat.
  assert (Hnodes : tree_nodes (<[p := cs ++ [c]]> adj) ≡ₚ c :: tree_nodes adj).
  { unfold tree_nodes. rewrite Hconcat. apply perm_swap. }
  split; [by apply emplace_child_Ok|]. split; [|exact Hconcat].
  split.
  - by rewrite length_insert.
  - rewrite Hnodes. by apply NoDup_cons.
  - intros v Hv. rewrite Hnodes in Hv. apply elem_of_cons in Hv as [->|Hv]; auto.
  - intros v Hv Hvn. rewrite Hnodes in Hvn.
    apply not_elem_of_cons in Hvn as [Hvc Hvn].
    rewrite list_lookup_insert_ne by (intros ->; done). by apply Hleaf.
  - assert (Hndl : NoDup l) by (by rewrite Hperm).
    destruct (listing_emplace adj p cs c Hcs (Hleaf c Hc Hnotin) Hcp) as [Hone _].
    destruct (Hone 0 l Hl Hndl) as (l' & Hl' & Hperm').
    exists l'. split; [exact Hl'|].
    rewrite Hperm', Hnodes. rewrite decide_True by (by rewrite Hperm).
    by rewrite Hperm.
Qed.

(** ** The array-scan builder *)

Lemma swap_pop_spec (l : list Scan.pq_entry) i e :
  l !! i = Some e -> exists rest, Scan.swap_pop l i = Ok rest /\ l ≡ₚ e :: rest.
Proof.
  intros Hi. unfold Scan.swap_pop.
  destruct (last l) as [back|] eqn:Hlast.
  2:{ apply last_None in Hlast. subst l. rewrite lookup_nil in Hi. discriminate. }
  apply last_Some in Hlast as [l0 ->].
  rewrite (vector_at_Some _ _ _ Hi). simpl. eexists. split; [reflexivity|].
  destruct (decide (i < length l0)) as [Hlt|Hge].
  - rewrite insert_app_l by exact Hlt. rewrite removelast_last.
    rewrite lookup_app_l in Hi by exact Hlt.
    rewrite insert_take_drop by exact Hlt.
    rewrite <- (take_drop_middle l0 i e Hi) at 1.
    rewrite <- app_assoc. simpl.
    rewrite <- Permutation_middle. apply perm_skip.
    apply Permutation_app_head. symmetry. apply Permutation_cons_append.
  - assert (i = length l0).
    { apply lookup_lt_Some in Hi. rewrite length_app in Hi. simpl in Hi. lia. }
    subst i. rewrite list_insert_id.
    + rewrite removelast_last.
      rewrite lookup_app_r, Nat.sub_diag in Hi by lia. injection Hi as ->.
      symmetry. apply Permutation_cons_append.
    + rewrite lookup_app_r, Nat.sub_diag in Hi |- * by lia.
      simpl in *. congruence.
Qed.

Section ScanLoop.

Variables (NDEBUG : bool) (T_max : Z) (n : nat) (weights : triangular_table).
Hypothesis weights_wf : table_wf n weights.
Hypothesis weights_below : costs_below T_max weights.

Lemma get_below x y :
  x < n -> y < n -> x <> y ->
  exists c, get weights x y = Ok c /\ (c <=? T_max)%Z = true.
Proof.
  intros Hx Hy Hxy.
  destruct (get_valid n weights x y weights_wf Hx Hy Hxy) as (c & Hc & Hget).
  exists c. split; [exact Hget|]. apply Z.leb_le.
  unfold costs_below in weights_below. rewrite Forall_forall in weights_below.
  apply weights_below. by eapply list_elem_of_lookup_2.
Qed.

Lemma scan_keeps_refl ji l : scan_keeps ji l l.
Proof. split; [reflexivity|]. intros e He. right. by exists e. Qed.

Lemma scan_keeps_trans ji a b c :
  scan_keeps ji a b -> scan_keeps ji b c -> scan_keeps ji a c.
Proof.
  intros [Hd1 Hs1] [Hd2 Hs2]. split; [congruence|].
  intros e He. destruct (Hs2 e He) as [?|(e1 & He1 & ->)]; [by left|].
  by apply Hs1.
Qed.

Lemma scan_keeps_length ji a b : scan_keeps ji a b -> length b = length a.
Proof.
  intros [Hd _]. apply (f_equal length) in Hd. by rewrite !length_fmap in Hd.
Qed.

Lemma scan_step_spec ji cands min_entry i :
  ji < n ->
  (forall e, e ∈ cands -> Scan.destination e < n /\ Scan.destination e <> ji) ->
  (forall m, min_entry = Some m -> m < length cands) ->
  i < length cands ->
  exists cands' m',
    Scan.scan_step T_max weights ji (cands, min_entry) i = Ok (cands', Some m') /\
    scan_keeps ji cands cands' /\ m' < length cands'.
Proof.
  intros Hji Hdest Hmin Hi.
  apply lookup_lt_is_Some_2 in Hi as [curr Hcurr].
  pose proof (lookup_lt_Some _ _ _ Hcurr) as Hi.
  destruct (Hdest curr (list_elem_of_lookup_2 _ _ _ Hcurr)) as [Hd Hdne].
  destruct (get_below ji (Scan.destination curr) Hji Hd ltac:(congruence))
    as (c & Hget & Hc).
  unfold Scan.scan_step. rewrite (vector_at_Some _ _ _ Hcurr). simpl.
  rewrite Hget. simpl.
  set (cands' := if (c <=? Scan.cost curr)%Z
                 then <[i := {| Scan.source := ji;
                                Scan.destination := Scan.destination curr;
                                Scan.cost := c |}]> cands
                 else cands).
  assert (Hkeep : scan_keeps ji cands cands').
  { unfold cands'. destruct (c <=? Scan.cost curr)%Z; [|apply scan_keeps_refl].
    split.
    - rewrite list_fmap_insert. simpl. apply list_insert_id.
      by rewrite list_lookup_fmap, Hcurr.
    - intros e He. apply list_elem_of_lookup in He as [k Hk].
      destruct (decide (k = i)) as [->|Hne].
      + rewrite list_lookup_insert_eq in Hk by exact Hi. injection Hk as <-. by left.
      + rewrite list_lookup_insert_ne in Hk by congruence.
        right. exists e. split; [by eapply list_elem_of_lookup_2 | reflexivity]. }
  pose proof (scan_keeps_length _ _ _ Hkeep) as Hlen.
  destruct min_entry as [m|]; simpl.
  - assert (Hm : is_Some (cands' !! m)).
    { apply lookup_lt_is_Some_2. rewrite Hlen. by apply Hmin. }
    destruct Hm as [em Hem]. rewrite (vector_at_Some _ _ _ Hem). simpl.
    destruct (c <=? Scan.cost em)%Z.
    + exists cands', i. split; [reflexivity|]. split; [exact Hkeep | lia].
    + exists cands', m. split; [reflexivity|]. split; [exact Hkeep|].
      rewrite Hlen. by apply Hmin.
  - rewrite Hc. exists cands', i. split; [reflexivity|]. split; [exact Hkeep | lia].
Qed.

Lemma scan_from_spec ji indices :
  ji < n ->
  forall cands min_entry,
    (forall e, e ∈ cands -> Scan.destination e < n /\ Scan.destination e <> ji) ->
    (forall m, min_entry = Some m -> m < length cands) ->
    (forall i, i ∈ indices -> i < length cands) ->
    exists cands' min_entry',
      Scan.scan_from T_max weights ji (cands, min_entry) indices
      = Ok (cands', min_entry') /\
      scan_keeps ji cands cands' /\
      (forall m, min_entry' = Some m -> m < length cands') /\
      (min_entry <> None \/ indices <> [] -> min_entry' <> None).
Proof.
  intros Hji. induction indices as [|i indices IH]; intros cands min_entry Hd Hmin Hidx.
  - exists cands, min_entry. split; [reflexivity|].
    split; [apply scan_keeps_refl|]. split; [exact Hmin|].
    intros [?|?]; done.
  - destruct (scan_step_spec ji cands min_entry i Hji Hd Hmin)
      as (cands1 & m1 & Hstep & Hkeep1 & Hm1); [apply Hidx; by left|].
    pose proof (scan_keeps_length _ _ _ Hkeep1) as Hlen1.
    destruct (IH cands1 (Some m1)) as (cands2 & min2 & Hrest & Hkeep2 & Hmin2 & Hsome).
    + intros e He. destruct Hkeep1 as [Hdests _].
      apply (list_elem_of_fmap_2 Scan.destination) in He.
      rewrite Hdests in He. apply list_elem_of_fmap in He as (e0 & -> & He0).
      by apply Hd.
    + intros m [= <-]. exact Hm1.
    + intros j Hj. rewrite Hlen1. apply Hidx. by right.
    + exists cands2, min2. cbn [Scan.scan_from]. rewrite Hstep. cbn [bind].
      split; [exact Hrest|]. split; [by eapply scan_keeps_trans|].
      split; [exact Hmin2|]. intros _. apply Hsome. by left.
Qed.

Lemma try_insert_fresh (t : Scan.tree) p c :
  tree_shape n (Scan.m_adjacency_list t) ->
  parent_flags NDEBUG n (Scan.m_adjacency_list t) (Scan.m_parent t) ->
  p ∈ tree_nodes (Scan.m_adjacency_list t) -> c < n ->
  c ∉ tree_nodes (Scan.m_adjacency_list t) ->
  exists t', Scan.try_insert NDEBUG t p c = Ok (t', true) /\
    tree_shape n (Scan.m_adjacency_list t') /\
    concat (Scan.m_adjacency_list t') ≡ₚ c :: concat (Scan.m_adjacency_list t) /\
    Scan.num_edges t' = S (Scan.num_edges t) /\
    parent_flags NDEBUG n (Scan.m_adjacency_list t') (Scan.m_parent t').
Proof.
  clear weights_wf weights_below.
  intros Hshape Hflags Hp Hc Hnotin.
  destruct (tree_shape_emplace n _ p c Hshape Hp Hc Hnotin) as (adj' & Hadj & Hshape' & Hperm).
  assert (Hpn : (p <? length (Scan.m_adjacency_list t)) = true).
  { apply Nat.ltb_lt. rewrite (shape_length _ _ Hshape). by apply (shape_bound _ _ Hshape). }
  unfold Scan.try_insert. rewrite Hpn. cbn [runtime_assert bind].
  destruct NDEBUG eqn:Hbuild.
  - rewrite Hadj. cbn [bind]. eexists. split; [reflexivity|]. simpl.
    split; [exact Hshape'|]. split; [exact Hperm|]. split; [reflexivity|].
    intros ?; discriminate.
  - destruct (Hflags eq_refl) as [Hlen Hflag].
    assert (Hcn : (c <? length (Scan.m_parent t)) = true).
    { apply Nat.ltb_lt. by rewrite Hlen. }
    rewrite Hcn. cbn [runtime_assert bind].
    assert (Hc0 : c <> 0) by (intros ->; apply Hnotin; by left).
    assert (Hcc : c ∉ concat (Scan.m_adjacency_list t)).
    { intros Hin. apply Hnotin. by right. }
    unfold Scan.contains. rewrite (proj2 (Nat.eqb_neq c 0) Hc0).
    rewrite (vector_at_Some _ _ _ (Hflag c Hc)).
    rewrite bool_decide_eq_false_2 by exact Hcc. cbn [bind].
    rewrite Hadj. cbn [bind]. eexists. split; [reflexivity|]. simpl.
    split; [exact Hshape'|]. split; [exact Hperm|]. split; [reflexivity|].
    intros _. split; [by rewrite length_insert|].
    intros v Hv. destruct (decide (v = c)) as [->|Hne].
    + rewrite list_lookup_insert_eq by lia.
      rewrite bool_decide_eq_true_2; [reflexivity|]. rewrite Hperm. by left.
    + rewrite list_lookup_insert_ne by congruence. rewrite (Hflag v Hv).
      f_equal. apply bool_decide_ext. rewrite Hperm.
      rewrite elem_of_cons. split; [by right | intros [?|?]; [congruence | done]].
Qed.

Lemma loop_body_spec st :
  0 < n -> scan_inv NDEBUG n st -> Scan.num_edges (Scan.t st) + 1 < n ->
  exists st', Scan.loop_body NDEBUG T_max weights st = Ok st' /\
    scan_inv NDEBUG n st' /\
    Scan.num_edges (Scan.t st') = S (Scan.num_edges (Scan.t st)).
Proof.
  intros Hn [Hshape Hedges Hflags (rest & Hpop & Hperm) Hsrc Hji] Hlt.
  set (adj := Scan.m_adjacency_list (Scan.t st)) in *.
  assert (Hjin : Scan.just_inserted st < n) by (by apply (shape_bound _ _ Hshape)).
  assert (Hnd : NoDup ((Scan.destination <$> rest) ++ tree_nodes adj)).
  { rewrite Hperm. apply NoDup_seq. }
  apply NoDup_app in Hnd as (Hnd_rest & Hdisj & Hnd_nodes).
  assert (Hbound : forall v, v ∈ Scan.destination <$> rest -> v < n).
  { intros v Hv.
    assert (Hin : v ∈ seq 0 n) by (rewrite <- Hperm; apply elem_of_app; by left).
    apply elem_of_seq in Hin. lia. }
  assert (Hlen : length rest + S (length (concat adj)) = n).
  { apply Permutation_length in Hperm.
    rewrite length_app, length_fmap, length_seq in Hperm. exact Hperm. }
  assert (Hrest_sub : forall e, e ∈ rest -> e ∈ Scan.candidates st).
  { intros e He. unfold Scan.swap_pop in Hpop.
    destruct (last (Scan.candidates st)) as [back|] eqn:Hlast; [|discriminate].
    apply bind_Ok_inv in Hpop as (front & Hfront & Hpop).
    apply vector_at_Ok in Hfront.
    destruct (swap_pop_spec _ _ _ Hfront) as (rest' & Hpop' & Hperm').
    unfold Scan.swap_pop in Hpop'. rewrite Hlast in Hpop'.
    rewrite (vector_at_Some _ _ _ Hfront) in Hpop'. cbn [bind] in Hpop'.
    rewrite Hperm'. right. congruence. }
  destruct (scan_from_spec (Scan.just_inserted st) (seq 0 (length rest)) Hjin rest None)
    as (scanned & min_entry & Hscan & Hkeep & Hmin & Hsome).
  { intros e He. pose proof (list_elem_of_fmap_2 Scan.destination _ _ He) as Hd.
    split; [by apply Hbound|]. intros Heq. apply (Hdisj _ Hd). by rewrite Heq. }
  { discriminate. }
  { intros i Hi. apply elem_of_seq in Hi. lia. }
  destruct min_entry as [m|].
  2:{ exfalso. apply Hsome; [|reflexivity]. right.
      destruct rest; [simpl in Hlen; rewrite Hedges in Hlt; lia | discriminate]. }
  specialize (Hmin m eq_refl).
  apply lookup_lt_is_Some_2 in Hmin as [e He].
  pose proof (list_elem_of_lookup_2 _ _ _ He) as Hein.
  destruct Hkeep as [Hdests Hsources].
  assert (Hed : Scan.destination e ∈ Scan.destination <$> rest).
  { rewrite <- Hdests. by apply list_elem_of_fmap_2. }
  assert (Hes : Scan.source e ∈ tree_nodes adj).
  { destruct (Hsources e Hein) as [->|(e0 & He0 & ->)]; [exact Hji|].
    apply Hsrc. by apply Hrest_sub. }
  destruct (try_insert_fresh (Scan.t st) (Scan.source e) (Scan.destination e)
              Hshape Hflags Hes (Hbound _ Hed) (Hdisj _ Hed))
    as (t' & Hins & Hshape' & Hperm' & Hedges' & Hflags').
  exists {| Scan.t := t'; Scan.candidates := scanned;
            Scan.just_inserted_index := m;
            Scan.just_inserted := Scan.destination e |}.
  split.
  { unfold Scan.loop_body, Scan.scan. rewrite Hpop. cbn [bind].
    rewrite Hscan. cbn [bind]. rewrite (vector_at_Some _ _ _ He). cbn [bind].
    rewrite Hins. reflexivity. }
  assert (Hnodes' : tree_nodes (Scan.m_adjacency_list t')
                    ≡ₚ Scan.destination e :: tree_nodes adj).
  { unfold tree_nodes. rewrite Hperm'. apply perm_swap. }
  split; [|exact Hedges'].
  split; cbn [Scan.t Scan.candidates Scan.just_inserted_index Scan.just_inserted].
  - exact Hshape'.
  - rewrite Hedges', Hedges. apply Permutation_length in Hperm'.
    simpl in Hperm'. by rewrite Hperm'.
  - exact Hflags'.
  - destruct (swap_pop_spec scanned m e He) as (rest' & Hpop' & Hscanned).
    exists rest'. split; [exact Hpop'|].
    rewrite Hnodes', <- Permutation_middle.
    change (Scan.destination e :: (Scan.destination <$> rest') ++ tree_nodes adj)
      with ((Scan.destination <$> e :: rest') ++ tree_nodes adj).
    rewrite <- Hscanned, Hdests. exact Hperm.
  - intros e' He'. rewrite Hnodes'. right.
    destruct (Hsources e' He') as [->|(e0 & He0 & ->)]; [exact Hji|].
    apply Hsrc. by apply Hrest_sub.
  - rewrite Hnodes'. by left.
Qed.

Lemma scan_inv_final st :
  0 < n -> scan_inv NDEBUG n st -> n <= Scan.num_edges (Scan.t st) + 1 ->
  spanning_tree n (Scan.m_adjacency_list (Scan.t st)) (Scan.num_edges (Scan.t st)).
Proof.
  clear weights_wf weights_below.
  intros Hn [Hshape Hedges _ (rest & _ & Hperm) _ _] Hge.
  pose proof (Permutation_length Hperm) as Hlen.
  rewrite length_app, length_fmap, length_seq in Hlen. simpl in Hlen.
  destruct rest; [|simpl in Hlen; lia]. simpl in Hperm.
  split; [exact Hshape|]. split; [simpl in Hlen; lia|].
  destruct n as [|k]; [lia|]. simpl in Hperm.
  apply Permutation_cons_inv in Hperm. by replace (S k - 1) with k by lia.
Qed.

Lemma mst_loop_spec fuel :
  0 < n ->
  forall st, scan_inv NDEBUG n st -> n <= Scan.num_edges (Scan.t st) + 1 + fuel ->
  exists t, Scan.mst_loop fuel NDEBUG T_max (n - 1) weights st = Ok t /\
            spanning_tree n (Scan.m_adjacency_list t) (Scan.num_edges t).
Proof.
  intros Hn. induction fuel as [|fuel IH]; intros st Hinv Hfuel.
  - exists (Scan.t st). simpl.
    rewrite (proj2 (Nat.ltb_ge _ _)) by lia.
    split; [reflexivity | apply scan_inv_final; [done | done | lia]].
  - cbn [Scan.mst_loop].
    destruct (Scan.num_edges (Scan.t st) <? n - 1) eqn:Hguard.
    + apply Nat.ltb_lt in Hguard.
      destruct (loop_body_spec st Hn Hinv ltac:(lia)) as (st' & Hbody & Hinv' & Hedges').
      rewrite Hbody. cbn [bind]. apply IH; [exact Hinv' | lia].
    + apply Nat.ltb_ge in Hguard. exists (Scan.t st).
      split; [reflexivity | apply scan_inv_final; [done | done | lia]].
Qed.

End ScanLoop.

Lemma concat_replicate_nil (n : nat) : concat (replicate n ([] : list nat)) = [].
Proof. induction n; simpl; [reflexivity | assumption]. Qed.

Lemma initial_candidates_destinations T_max n :
  Scan.destination <$> Scan.initial_candidates T_max n = seq 0 n.
Proof.
  unfold Scan.initial_candidates. rewrite <- list_fmap_compose.
  rewrite <- (list_fmap_id (seq 0 n)) at 2. reflexivity.
Qed.

Lemma scan_inv_init NDEBUG T_max n :
  2 <= n ->
  exists t0, Scan.new_tree NDEBUG n = Ok t0 /\
    Scan.num_edges t0 = 0 /\
    scan_inv NDEBUG n {| Scan.t := t0;
                         Scan.candidates := Scan.initial_candidates T_max n;
                         Scan.just_inserted_index := 0;
                         Scan.just_inserted := 0 |}.
Proof.
  intros Hn. unfold Scan.new_tree.
  rewrite (proj2 (Nat.ltb_lt 0 n)) by lia. cbn [runtime_assert bind].
  eexists. split; [reflexivity|]. split; [reflexivity|].
  split; cbn [Scan.t Scan.candidates Scan.just_inserted_index Scan.just_inserted
              Scan.m_adjacency_list Scan.m_parent Scan.num_edges Scan.m_num_edges].
  - apply tree_shape_init. lia.
  - by rewrite concat_replicate_nil.
  - intros ->. split; [apply length_replicate|].
    intros v Hv. rewrite lookup_replicate_2 by exact Hv.
    rewrite concat_replicate_nil. rewrite bool_decide_eq_false_2; [reflexivity|].
    apply not_elem_of_nil.
  - assert (H0 : Scan.initial_candidates T_max n !! 0
                 = Some {| Scan.source := 0; Scan.destination := 0; Scan.cost := T_max |}).
    { unfold Scan.initial_candidates. rewrite list_lookup_fmap, lookup_seq_lt by lia.
      reflexivity. }
    destruct (swap_pop_spec _ _ _ H0) as (rest & Hpop & Hperm).
    exists rest. split; [exact Hpop|].
    unfold tree_nodes. rewrite concat_replicate_nil.
    rewrite <- Permutation_cons_append.
    change (0 :: (Scan.destination <$> rest))
      with (Scan.destination <$> ({| Scan.source := 0; Scan.destination := 0;
                                     Scan.cost := T_max |} :: rest)).
    rewrite <- Hperm. by rewrite initial_candidates_destinations.
  - intros e He. unfold Scan.initial_candidates in He.
    apply list_elem_of_fmap in He as (i & -> & _). by left.
  - by left.
Qed.

Lemma scan_mst_loop_fuel_mono NDEBUG T_max final weights fuel :
  forall st t fuel', Scan.mst_loop fuel NDEBUG T_max final weights st = Ok t ->
    fuel <= fuel' -> Scan.mst_loop fuel' NDEBUG T_max final weights st = Ok t.
Proof.
  induction fuel as [|fuel IH]; intros st t fuel' Hrun Hle.
  - simpl in Hrun. destruct fuel'; simpl;
      destruct (Scan.num_edges (Scan.t st) <? final); congruence.
  - destruct fuel' as [|fuel']; [lia|]. cbn [Scan.mst_loop] in *.
    destruct (Scan.num_edges (Scan.t st) <? final); [|exact Hrun].
    apply bind_Ok_inv in Hrun as (st' & Hbody & Hrun). rewrite Hbody. cbn [bind].
    apply (IH st' t fuel' Hrun). lia.
Qed.

(** The array-scan builder returns, and what it returns is a spanning
    tree rooted at 0. *)
Lemma scan_compute_mst_spec NDEBUG T_max n weights :
  2 <= n -> table_wf n weights -> costs_below T_max weights ->
  exists t,
    returns (fun fuel => Scan.compute_mst fuel NDEBUG T_max n weights) t /\
    spanning_tree n (Scan.m_adjacency_list t) (Scan.num_edges t).
Proof.
  intros Hn Hwf Hbelow.
  destruct (scan_inv_init NDEBUG T_max n Hn) as (t0 & Hnew & Hedges0 & Hinv).
  destruct (mst_loop_spec NDEBUG T_max n weights Hwf Hbelow (n - 1) ltac:(lia) _ Hinv)
    as (t & Hloop & Hspan); [cbn [Scan.t]; rewrite Hedges0; lia|].
  exists t. split; [|exact Hspan].
  exists (n - 1). intros fuel Hfuel. unfold Scan.compute_mst.
  rewrite (proj2 (Nat.leb_le 2 n)) by lia. cbn [runtime_assert bind].
  rewrite Hnew. cbn [bind]. by eapply scan_mst_loop_fuel_mono.
Qed.

(** ** Counting nodes *)

Lemma nodes_below_length (l : list nat) n :
  NoDup l -> (forall v, v ∈ l -> v < n) -> length l <= n.
Proof.
  intros Hnd Hb.
  assert (Hsub : l ⊆+ seq 0 n).
  { apply NoDup_submseteq; [exact Hnd|].
    intros v Hv. apply elem_of_seq. specialize (Hb v Hv). lia. }
  apply submseteq_length in Hsub. by rewrite length_seq in Hsub.
Qed.

Lemma nodes_all (l : list nat) n :
  NoDup l -> (forall v, v ∈ l -> v < n) -> n <= length l -> l ≡ₚ seq 0 n.
Proof.
  intros Hnd Hb Hlen. apply submseteq_length_Permutation.
  - apply NoDup_submseteq; [exact Hnd|].
    intros v Hv. apply elem_of_seq. specialize (Hb v Hv). lia.
  - by rewrite length_seq.
Qed.

Lemma nodes_missing (l : list nat) n :
  NoDup l -> length l < n -> exists v, v < n /\ v ∉ l.
Proof.
  intros Hnd Hlen.
  destruct (decide (Forall (fun v => v ∈ l) (seq 0 n))) as [Hall|Hex].
  - exfalso. rewrite Forall_forall in Hall.
    assert (Hsub : seq 0 n ⊆+ l) by (apply NoDup_submseteq; [apply NoDup_seq | exact Hall]).
    apply submseteq_length in Hsub. rewrite length_seq in Hsub. lia.
  - apply not_Forall_Exists in Hex; [|intros v; apply _].
    apply Exists_exists in Hex as (v & Hv & Hnot).
    exists v. apply elem_of_seq in Hv. split; [lia | exact Hnot].
Qed.

Lemma shape_spanning n adj num_edges :
  0 < n -> tree_shape n adj -> num_edges = length (concat adj) -> n <= num_edges + 1 ->
  spanning_tree n adj num_edges.
Proof.
  intros Hn Hshape Hedges Hge.
  assert (Hperm : tree_nodes adj ≡ₚ seq 0 n).
  { apply nodes_all; [apply (shape_nodup _ _ Hshape) | apply (shape_bound _ _ Hshape) |].
    unfold tree_nodes. simpl. lia. }
  pose proof (Permutation_length Hperm) as Hlen.
  unfold tree_nodes in Hlen. rewrite length_seq in Hlen. simpl in Hlen.
  split; [exact Hshape|]. split; [lia|].
  destruct n as [|k]; [lia|]. unfold tree_nodes in Hperm. simpl in Hperm.
  apply Permutation_cons_inv in Hperm. by replace (S k - 1) with k by lia.
Qed.

(** ** The priority queue *)

Lemma selections_perm {A} (l : list A) e rest :
  (e, rest) ∈ Heap.selections l -> l ≡ₚ e :: rest.
Proof.
  revert e rest. induction l as [|x xs IH]; intros e rest Hin; simpl in Hin.
  - by apply elem_of_nil in Hin.
  - apply elem_of_cons in Hin as [[= -> ->]|Hin]; [reflexivity|].
    apply list_elem_of_In, in_map_iff in Hin as ([y ys] & [= <- <-] & Hin).
    apply list_elem_of_In in Hin. rewrite (IH _ _ Hin). apply perm_swap.
Qed.

Lemma selections_elem {A} (l : list A) e :
  e ∈ l -> exists rest, (e, rest) ∈ Heap.selections l.
Proof.
  induction l as [|x xs IH]; intros Hin.
  - by apply elem_of_nil in Hin.
  - apply elem_of_cons in Hin as [->|Hin].
    + exists xs. simpl. by left.
    + destruct (IH Hin) as (rest & Hrest). exists (x :: rest). simpl. right.
      apply list_elem_of_In, in_map_iff. exists (e, rest).
      split; [reflexivity | by apply list_elem_of_In].
Qed.

Lemma tops_selections heap e rest :
  (e, rest) ∈ Heap.tops heap -> heap ≡ₚ e :: rest.
Proof.
  unfold Heap.tops. intros Hin. apply list_elem_of_In, filter_In in Hin as [Hin _].
  apply selections_perm. by apply list_elem_of_In.
Qed.

Lemma lightest_entry (heap : Heap.priority_queue) :
  heap <> [] ->
  exists e, e ∈ heap /\ forall e', e' ∈ heap -> (Heap.weight e <= Heap.weight e')%Z.
Proof.
  induction heap as [|x xs IH]; intros Hne; [done|].
  destruct xs as [|y ys].
  - exists x. split; [by left|]. intros e' He'.
    apply list_elem_of_singleton in He'. subst. lia.
  - destruct (IH ltac:(discriminate)) as (m & Hm & Hmin).
    destruct (Z.le_gt_cases (Heap.weight x) (Heap.weight m)) as [Hle|Hgt].
    + exists x. split; [by left|]. intros e' He'.
      apply elem_of_cons in He' as [->|He']; [lia|]. specialize (Hmin e' He'). lia.
    + exists m. split; [by right|]. intros e' He'.
      apply elem_of_cons in He' as [->|He']; [lia | by apply Hmin].
Qed.

Lemma tops_nonempty heap : heap <> [] -> Heap.tops heap <> [].
Proof.
  intros Hne. destruct (lightest_entry heap Hne) as (e & He & Hmin).
  destruct (selections_elem heap e He) as (rest & Hrest).
  assert (Hin : (e, rest) ∈ Heap.tops heap).
  { unfold Heap.tops. apply list_elem_of_In, filter_In.
    split; [by apply list_elem_of_In|].
    unfold Heap.is_top. apply forallb_forall. intros e' He'.
    apply list_elem_of_In in He'. unfold Heap.entry_lt.
    apply negb_true_iff, Z.ltb_ge. by apply Hmin. }
  intros Heq. rewrite Heq in Hin. by apply elem_of_nil in Hin.
Qed.

(** ** Rows of the table *)

Lemma row_cells_spec n weights y xs :
  table_wf n weights -> y < n -> (forall x, x ∈ xs -> x < n /\ x <> y) ->
  exists cells, row_cells weights y xs = Ok cells /\
                cells.*1 = (fun x => (x, y)) <$> xs.
Proof.
  intros Hwf Hy. induction xs as [|x xs IH]; intros Hxs.
  - exists []. split; reflexivity.
  - destruct (Hxs x ltac:(by left)) as [Hx Hxy].
    destruct (get_valid n weights x y Hwf Hx Hy Hxy) as (v & _ & Hget).
    destruct IH as (cells & Hcells & Hfst); [intros x' Hx'; apply Hxs; by right|].
    exists (((x, y), v) :: cells). cbn [row_cells]. rewrite Hget, Hcells. cbn [bind].
    split; [reflexivity | by rewrite !fmap_cons, Hfst].
Qed.

Lemma row_spec n weights y :
  table_wf n weights -> y < n ->
  exists cells, row weights y = Ok cells /\
    length cells <= n /\
    (forall x w, ((x, y), w) ∈ cells -> x < n /\ x <> y) /\
    (forall c w, (c, w) ∈ cells -> snd c = y) /\
    (forall x, x < n -> x <> y -> exists w, ((x, y), w) ∈ cells).
Proof.
  intros Hwf Hy. unfold row. rewrite (proj1 Hwf).
  rewrite (proj2 (Nat.ltb_lt y n)) by exact Hy. cbn [runtime_assert bind].
  set (xs := List.filter (fun x => negb (x =? y)) (seq 0 n)).
  assert (Hxs : forall x, x ∈ xs <-> x < n /\ x <> y).
  { intros x. unfold xs. rewrite list_elem_of_In, filter_In, <- list_elem_of_In.
    rewrite elem_of_seq, negb_true_iff, Nat.eqb_neq. lia. }
  destruct (row_cells_spec n weights y xs Hwf Hy) as (cells & Hcells & Hfst);
    [intros x; apply Hxs|].
  exists cells. split; [exact Hcells|].
  assert (Hmem : forall c, c ∈ cells.*1 <-> exists x, c = (x, y) /\ x ∈ xs).
  { intros c. rewrite Hfst. apply list_elem_of_fmap. }
  split.
  { rewrite <- (length_fmap fst), Hfst, length_fmap. unfold xs.
    etrans; [apply filter_length_le | by rewrite length_seq]. }
  split.
  { intros x w Hin. apply Hxs.
    destruct (proj1 (Hmem (x, y))) as (x' & [= ->] & Hx'); [|exact Hx'].
    apply list_elem_of_fmap. by exists ((x, y), w). }
  split.
  { intros c w Hin.
    destruct (proj1 (Hmem c)) as (x' & -> & Hx'); [|reflexivity].
    apply list_elem_of_fmap. by exists (c, w). }
  intros x Hx Hxy.
  assert (Hin : (x, y) ∈ cells.*1).
  { apply Hmem. exists x. split; [reflexivity | by apply Hxs]. }
  apply list_elem_of_fmap in Hin as ([c w] & Hc & Hin). simpl in Hc. subst c.
  by exists w.
Qed.

(** ** The heap-based builder *)

Lemma heap_contains_spec n (t : Heap.tree) v :
  heap_flags n (Heap.m_adjacency_list t) (Heap.m_parent t) -> v < n ->
  Heap.contains t v = Ok (bool_decide (v ∈ tree_nodes (Heap.m_adjacency_list t))).
Proof.
  intros [_ Hflag] Hv. unfold Heap.contains, tree_nodes.
  destruct (v =? 0) eqn:Hv0.
  - apply Nat.eqb_eq in Hv0. subst v.
    rewrite bool_decide_eq_true_2; [reflexivity | by left].
  - apply Nat.eqb_neq in Hv0.
    destruct (Hflag v Hv) as (o & Ho & Hiff).
    rewrite (vector_at_Some _ _ _ Ho). cbn [bind]. f_equal.
    destruct o as [p|].
    + rewrite bool_decide_eq_true_2; [reflexivity|]. right. apply Hiff. by eexists.
    + rewrite bool_decide_eq_false_2; [reflexivity|].
      intros Hin. apply elem_of_cons in Hin as [?|Hin]; [done|].
      apply Hiff in Hin. by destruct Hin.
Qed.

Lemma heap_try_insert_old n (t : Heap.tree) p c :
  tree_shape n (Heap.m_adjacency_list t) ->
  heap_flags n (Heap.m_adjacency_list t) (Heap.m_parent t) ->
  p < n -> c < n -> c ∈ tree_nodes (Heap.m_adjacency_list t) ->
  Heap.try_insert t p c = Ok (t, false).
Proof.
  intros Hshape Hflags Hp Hc Hin. unfold Heap.try_insert.
  rewrite (shape_length _ _ Hshape), (proj1 Hflags).
  rewrite (proj2 (Nat.ltb_lt p n)), (proj2 (Nat.ltb_lt c n)) by done.
  cbn [runtime_assert bind]. rewrite (heap_contains_spec n t c Hflags Hc).
  cbn [bind]. by rewrite bool_decide_eq_true_2.
Qed.

Lemma heap_try_insert_fresh n (t : Heap.tree) p c :
  tree_shape n (Heap.m_adjacency_list t) ->
  heap_flags n (Heap.m_adjacency_list t) (Heap.m_parent t) ->
  p ∈ tree_nodes (Heap.m_adjacency_list t) -> c < n ->
  c ∉ tree_nodes (Heap.m_adjacency_list t) ->
  exists t', Heap.try_insert t p c = Ok (t', true) /\
    tree_shape n (Heap.m_adjacency_list t') /\
    concat (Heap.m_adjacency_list t') ≡ₚ c :: concat (Heap.m_adjacency_list t) /\
    Heap.num_edges t' = S (Heap.num_edges t) /\
    heap_flags n (Heap.m_adjacency_list t') (Heap.m_parent t').
Proof.
  intros Hshape Hflags Hp Hc Hnotin.
  destruct (tree_shape_emplace n _ p c Hshape Hp Hc Hnotin) as (adj' & Hadj & Hshape' & Hperm).
  pose proof (shape_bound _ _ Hshape p Hp) as Hpn.
  unfold Heap.try_insert.
  rewrite (shape_length _ _ Hshape), (proj1 Hflags).
  rewrite (proj2 (Nat.ltb_lt p n)), (proj2 (Nat.ltb_lt c n)) by done.
  cbn [runtime_assert bind]. rewrite (heap_contains_spec n t c Hflags Hc).
  cbn [bind]. rewrite bool_decide_eq_false_2 by exact Hnotin.
  rewrite Hadj. cbn [bind]. eexists. split; [reflexivity|]. simpl.
  split; [exact Hshape'|]. split; [exact Hperm|]. split; [reflexivity|].
  destruct Hflags as [Hlen Hflag].
  split; [by rewrite length_insert|].
  intros v Hv. destruct (decide (v = c)) as [->|Hne].
  - exists (Some p). rewrite list_lookup_insert_eq by lia.
    split; [reflexivity|]. split; [intros _; rewrite Hperm; by left | by eexists].
  - destruct (Hflag v Hv) as (o & Ho & Hiff). exists o.
    rewrite list_lookup_insert_ne by congruence. split; [exact Ho|].
    rewrite Hperm, elem_of_cons, Hiff. split; [by right | intros [?|?]; done].
Qed.

Lemma push_unreached_spec n (t : Heap.tree) y cells :
  heap_flags n (Heap.m_adjacency_list t) (Heap.m_parent t) ->
  (forall c w, (c, w) ∈ cells -> fst c < n /\ snd c = y) ->
  forall heap, exists heap',
    Heap.push_unreached t cells heap = Ok heap' /\
    length heap' <= length heap + length cells /\
    (forall e, e ∈ heap' -> e ∈ heap \/ (Heap.source e = y /\ Heap.destination e < n)) /\
    (forall e, e ∈ heap -> e ∈ heap') /\
    (forall c w, (c, w) ∈ cells -> fst c ∉ tree_nodes (Heap.m_adjacency_list t) ->
                 exists e, e ∈ heap' /\ Heap.destination e = fst c).
Proof.
  intros Hflags. induction cells as [|[[dst src] w] cells IH]; intros Hcells heap.
  - exists heap. split; [reflexivity|]. split; [simpl; lia|].
    split; [by left|]. split; [done|]. intros c w Hin. by apply elem_of_nil in Hin.
  - destruct (Hcells (dst, src) w ltac:(by left)) as [Hdst Hsrc]. simpl in Hdst, Hsrc.
    cbn [Heap.push_unreached]. rewrite (heap_contains_spec n t dst Hflags Hdst).
    cbn [bind].
    set (heap1 := if negb (bool_decide (dst ∈ tree_nodes (Heap.m_adjacency_list t)))
                  then Heap.emplace heap src dst w else heap).
    destruct (IH ltac:(intros c w' Hin; apply (Hcells c w'); by right) heap1)
      as (heap' & Hpush & Hlen & Hfrom & Hkeep & Hreach).
    assert (Hlen1 : length heap1 <= S (length heap)).
    { unfold heap1, Heap.emplace. destruct (negb _); [rewrite length_app; simpl|]; lia. }
    assert (Hsub1 : forall e, e ∈ heap -> e ∈ heap1).
    { intros e He. unfold heap1, Heap.emplace.
      destruct (negb _); [apply elem_of_app; by left | exact He]. }
    assert (Hfrom1 : forall e, e ∈ heap1 ->
              e ∈ heap \/ (Heap.source e = y /\ Heap.destination e < n)).
    { intros e He. unfold heap1, Heap.emplace in He.
      destruct (negb _); [|by left].
      apply elem_of_app in He as [He|He]; [by left|].
      apply list_elem_of_singleton in He. subst e. right. simpl. by split. }
    exists heap'. split; [exact Hpush|]. split; [simpl; lia|].
    split; [intros e He; destruct (Hfrom e He) as [He1|He1]; [exact (Hfrom1 e He1) | by right]|].
    split; [intros e He; by apply Hkeep, Hsub1|].
    intros c w' Hin Hnot. apply elem_of_cons in Hin as [[= -> ->]|Hin].
    + simpl in Hnot.
      exists {| Heap.source := src; Heap.destination := dst; Heap.weight := w |}.
      split; [|reflexivity].
      apply Hkeep. unfold heap1. rewrite bool_decide_eq_false_2 by exact Hnot.
      simpl. unfold Heap.emplace. apply elem_of_app. right.
      apply list_elem_of_singleton. reflexivity.
    + by apply (Hreach c w').
Qed.

Lemma push_all_spec n y cells :
  (forall c w, (c, w) ∈ cells -> fst c < n /\ snd c = y) ->
  forall heap,
    length (Heap.push_all cells heap) = length heap + length cells /\
    (forall e, e ∈ Heap.push_all cells heap ->
               e ∈ heap \/ (Heap.source e = y /\ Heap.destination e < n)) /\
    (forall e, e ∈ heap -> e ∈ Heap.push_all cells heap) /\
    (forall c w, (c, w) ∈ cells ->
                 exists e, e ∈ Heap.push_all cells heap /\ Heap.destination e = fst c).
Proof.
  unfold Heap.push_all.
  induction cells as [|[[dst src] w] cells IH]; intros Hcells heap.
  - simpl. split; [lia|]. split; [by left|]. split; [done|].
    intros c w Hin. by apply elem_of_nil in Hin.
  - destruct (Hcells (dst, src) w ltac:(by left)) as [Hdst Hsrc]. simpl in Hdst, Hsrc.
    cbn [fold_left].
    destruct (IH ltac:(intros c w' Hin; apply (Hcells c w'); by right) (Heap.emplace heap src dst w))
      as (Hlen & Hfrom & Hkeep & Hreach).
    split; [rewrite Hlen; unfold Heap.emplace; rewrite length_app; simpl; lia|].
    split.
    { intros e He. destruct (Hfrom e He) as [He'|?]; [|by right].
      unfold Heap.emplace in He'. apply elem_of_app in He' as [?|He']; [by left|].
      apply list_elem_of_singleton in He'. subst e. right. simpl. by split. }
    split.
    { intros e He. apply Hkeep. unfold Heap.emplace. apply elem_of_app. by left. }
    intros c w' Hin. apply elem_of_cons in Hin as [[= -> ->]|Hin].
    + exists {| Heap.source := src; Heap.destination := dst; Heap.weight := w |}.
      split; [|reflexivity]. apply Hkeep. unfold Heap.emplace.
      apply elem_of_app. right. apply list_elem_of_singleton. reflexivity.
    + by apply (Hreach c w').
Qed.

Lemma flat_map_results {A B} (f : A -> list B) (P : B -> Prop) (l : list A) :
  l <> [] -> (forall a, a ∈ l -> f a <> [] /\ Forall P (f a)) ->
  flat_map f l <> [] /\ Forall P (flat_map f l).
Proof.
  intros Hne Hall. split.
  - destruct l as [|a l]; [done|]. simpl.
    destruct (Hall a ltac:(by left)) as [Hfa _].
    destruct (f a); [done | discriminate].
  - apply Forall_flat_map, Forall_forall. intros a Ha. by apply Hall.
Qed.

Section HeapLoop.

Variables (n : nat) (weights : triangular_table).
Hypothesis weights_wf : table_wf n weights.
Hypothesis n_pos : 0 < n.

Lemma heap_visit_old t heap curr :
  heap_inv n t (curr :: heap) ->
  Heap.destination curr ∈ tree_nodes (Heap.m_adjacency_list t) ->
  Heap.visit weights t curr heap = Ok (t, heap) /\ heap_inv n t heap.
Proof.
  intros [Hshape Hedges Hflags Hentries Hreach] Hin.
  destruct (Hentries curr ltac:(by left)) as [Hsrc Hdst].
  split.
  - unfold Heap.visit.
    rewrite (heap_try_insert_old n t _ _ Hshape Hflags
               (shape_bound _ _ Hshape _ Hsrc) Hdst Hin).
    reflexivity.
  - split; try done.
    + intros e He. apply Hentries. by right.
    + intros v Hv Hnot. destruct (Hreach v Hv Hnot) as (e & He & Hev).
      exists e. split; [|exact Hev].
      apply elem_of_cons in He as [->|He]; [|exact He]. congruence.
Qed.

Lemma heap_visit_fresh t heap curr :
  heap_inv n t (curr :: heap) ->
  Heap.destination curr ∉ tree_nodes (Heap.m_adjacency_list t) ->
  exists t' heap',
    Heap.visit weights t curr heap = Ok (t', heap') /\ heap_inv n t' heap' /\
    Heap.num_edges t' = S (Heap.num_edges t) /\
    length heap' <= length heap + n.
Proof.
  intros [Hshape Hedges Hflags Hentries Hreach] Hnot.
  destruct (Hentries curr ltac:(by left)) as [Hsrc Hdst].
  destruct (heap_try_insert_fresh n t _ _ Hshape Hflags Hsrc Hdst Hnot)
    as (t' & Hins & Hshape' & Hperm & Hedges' & Hflags').
  destruct (row_spec n weights _ weights_wf Hdst)
    as (cells & Hrow & Hlen & Hcells & Hsnd & Hall).
  destruct (push_unreached_spec n t' (Heap.destination curr) cells Hflags') with (heap := heap)
    as (heap' & Hpush & Hlen' & Hfrom & Hkeep & Hnew).
  { intros [x y] w Hin. pose proof (Hsnd _ _ Hin) as Hy. simpl in Hy. subst y.
    split; [by apply (Hcells x w) | reflexivity]. }
  assert (Hnodes' : tree_nodes (Heap.m_adjacency_list t')
                    ≡ₚ Heap.destination curr :: tree_nodes (Heap.m_adjacency_list t)).
  { unfold tree_nodes. rewrite Hperm. apply perm_swap. }
  exists t', heap'. split.
  { unfold Heap.visit. rewrite Hins. cbn [bind]. rewrite Hrow. cbn [bind].
    rewrite Hpush. reflexivity. }
  split; [|split; [exact Hedges' | lia]].
  split.
  - exact Hshape'.
  - rewrite Hedges', Hedges. apply Permutation_length in Hperm. simpl in Hperm.
    by rewrite Hperm.
  - exact Hflags'.
  - intros e He. rewrite Hnodes'. destruct (Hfrom e He) as [Hold|[Hs Hd]].
    + destruct (Hentries e ltac:(by right)) as [? ?]. split; [by right | done].
    + split; [rewrite Hs; by left | exact Hd].
  - intros v Hv Hvnot. rewrite Hnodes' in Hvnot.
    apply not_elem_of_cons in Hvnot as [Hvd Hvnot].
    destruct (Hall v Hv Hvd) as (w & Hw).
    apply (Hnew _ _ Hw). simpl. rewrite Hnodes'.
    intros Hin. apply elem_of_cons in Hin as [?|?]; done.
Qed.

Lemma heap_inv_perm t heap heap' :
  heap ≡ₚ heap' -> heap_inv n t heap -> heap_inv n t heap'.
Proof.
  intros Hperm [Hshape Hedges Hflags Hentries Hreach]. split; try done.
  - intros e He. apply Hentries. by rewrite Hperm.
  - intros v Hv Hnot. destruct (Hreach v Hv Hnot) as (e & He & Hev).
    exists e. split; [by rewrite <- Hperm | exact Hev].
Qed.

Lemma heap_mst_loop_spec fuel :
  forall t heap,
    heap_inv n t heap ->
    length heap + n * (n - 1 - Heap.num_edges t) <= fuel ->
    Heap.mst_loop fuel n weights t heap <> [] /\
    Forall (heap_result_ok n) (Heap.mst_loop fuel n weights t heap).
Proof.
  induction fuel as [|fuel IH]; intros t heap Hinv Hfuel.
  - cbn [Heap.mst_loop].
    destruct (Heap.num_edges t + 1 <? n) eqn:Hguard.
    + apply Nat.ltb_lt in Hguard. exfalso.
      assert (1 <= n * (n - 1 - Heap.num_edges t)) by nia. lia.
    + apply Nat.ltb_ge in Hguard. split; [discriminate|].
      constructor; [|constructor]. exists t. split; [reflexivity|].
      destruct Hinv. apply shape_spanning; try done.
  - cbn [Heap.mst_loop].
    destruct (Heap.num_edges t + 1 <? n) eqn:Hguard.
    2:{ apply Nat.ltb_ge in Hguard. split; [discriminate|].
        constructor; [|constructor]. exists t. split; [reflexivity|].
        destruct Hinv. apply shape_spanning; try done. }
    apply Nat.ltb_lt in Hguard.
    assert (Hne : heap <> []).
    { destruct Hinv as [Hshape Hedges _ _ Hreach].
      destruct (nodes_missing (tree_nodes (Heap.m_adjacency_list t)) n)
        as (v & Hv & Hnot); [apply (shape_nodup _ _ Hshape) | |].
      { unfold tree_nodes. simpl. rewrite <- Hedges. lia. }
      destruct (Hreach v Hv Hnot) as (e & He & _).
      intros ->. by apply elem_of_nil in He. }
    pose proof (tops_nonempty heap Hne) as Htops.
    destruct (Heap.tops heap) as [|c0 choices] eqn:Heq; [done|].
    rewrite <- Heq. apply flat_map_results; [by rewrite Heq|].
    intros [curr heap'] Hin.
    pose proof (tops_selections _ _ _ Hin) as Hperm.
    pose proof (heap_inv_perm _ _ _ Hperm Hinv) as Hinv'.
    pose proof (Permutation_length Hperm) as Hlen. simpl in Hlen.
    destruct (decide (Heap.destination curr ∈ tree_nodes (Heap.m_adjacency_list t)))
      as [Hold|Hfresh].
    + destruct (heap_visit_old t heap' curr Hinv' Hold) as [Hvisit Hinv''].
      rewrite Hvisit. apply IH; [exact Hinv'' | lia].
    + destruct (heap_visit_fresh t heap' curr Hinv' Hfresh)
        as (t' & heap'' & Hvisit & Hinv'' & Hedges' & Hlen'').
      rewrite Hvisit. apply IH; [exact Hinv''|].
      rewrite Hedges'. nia.
Qed.

End HeapLoop.

(** The heap-based builder returns, and whatever the order in which the
    queue hands out entries of equal weight, what it returns is a spanning
    tree rooted at 0. *)
Lemma heap_compute_mst_spec n weights :
  1 <= n -> table_wf n weights ->
  returns_all (fun fuel => Heap.compute_mst fuel n weights)
    (fun t => spanning_tree n (Heap.m_adjacency_list t) (Heap.num_edges t)).
Proof.
  intros Hn Hwf. exists (n * n). intros fuel Hfuel.
  unfold Heap.compute_mst, Heap.new_tree.
  rewrite (proj2 (Nat.ltb_lt 0 n)) by lia. cbn [runtime_assert bind].
  destruct (row_spec n weights 0 Hwf ltac:(lia)) as (cells & Hrow & Hlen & Hcells & Hsnd & Hall).
  rewrite Hrow.
  destruct (push_all_spec n 0 cells) with (heap := @nil Heap.pq_entry)
    as (Hplen & Hfrom & _ & Hreach).
  { intros [x y] w Hin. pose proof (Hsnd _ _ Hin) as Hy. simpl in Hy. subst y.
    split; [by apply (Hcells x w) | reflexivity]. }
  apply heap_mst_loop_spec; [exact Hwf | lia | |].
  - split; cbn [Heap.m_adjacency_list Heap.m_parent Heap.num_edges Heap.m_num_edges].
    + apply tree_shape_init. lia.
    + by rewrite concat_replicate_nil.
    + split; [apply length_replicate|]. intros v Hv. exists None.
      split; [by apply lookup_replicate_2|]. rewrite concat_replicate_nil.
      split; [intros [? ?]; discriminate | intros Hin; by apply elem_of_nil in Hin].
    + intros e He. unfold tree_nodes. rewrite concat_replicate_nil.
      destruct (Hfrom e He) as [Hnil|[Hs Hd]]; [by apply elem_of_nil in Hnil|].
      split; [rewrite Hs; by left | exact Hd].
    + intros v Hv Hnot. unfold tree_nodes in Hnot. rewrite concat_replicate_nil in Hnot.
      assert (v <> 0) by (intros ->; apply Hnot; by left).
      destruct (Hall v Hv ltac:(done)) as (w & Hw).
      apply (Hreach _ _ Hw).
  - cbn [Heap.num_edges Heap.m_num_edges]. rewrite Hplen. simpl. nia.
Qed.

(** ** Edges of a tree *)

Lemma concat_imap_snd {A} (f : nat -> list nat -> list (A * nat)) (adj : list (list nat)) :
  (forall i cs, (f i cs).*2 = cs) -> (concat (imap f adj)).*2 = concat adj.
Proof.
  revert f. induction adj as [|cs adj IH]; intros f Hf; [reflexivity|].
  cbn [imap concat]. rewrite fmap_app, Hf. f_equal.
  apply IH. intros i cs'. apply Hf.
Qed.

Lemma concat_imap_elem {A B} (f : nat -> A -> list B) (Q : nat -> B -> Prop) (l : list A) e :
  (forall i a b, b ∈ f i a -> Q i b) -> e ∈ concat (imap f l) ->
  exists i, i < length l /\ Q i e.
Proof.
  revert f Q. induction l as [|a l IH]; intros f Q Hf Hin.
  - by apply elem_of_nil in Hin.
  - cbn [imap concat] in Hin. apply elem_of_app in Hin as [Hin|Hin].
    + exists 0. split; [simpl; lia | by eapply Hf].
    + destruct (IH (f ∘ S) (Q ∘ S)) as (i & Hi & HQ); [|exact Hin|].
      * intros i a' b Hb. by eapply Hf.
      * exists (S i). split; [simpl; lia | exact HQ].
Qed.

Lemma edges_of_children adj : (edges_of adj).*2 = concat adj.
Proof.
  apply concat_imap_snd. intros i cs.
  induction cs as [|c cs IH]; [reflexivity|]. cbn. f_equal. exact IH.
Qed.

Lemma edges_of_parent adj p c : (p, c) ∈ edges_of adj -> p < length adj.
Proof.
  intros Hin.
  destruct (concat_imap_elem (fun parent cs => map (fun child => (parent, child)) cs)
              (fun i e => fst e = i) adj (p, c)) as (i & Hi & Heq); [|exact Hin|].
  - intros i cs e He. apply list_elem_of_In, in_map_iff in He as (c' & <- & _). reflexivity.
  - simpl in Heq. by subst.
Qed.

Lemma spanning_tree_all_nodes n adj num_edges :
  0 < n -> spanning_tree n adj num_edges -> rooted_with_all_nodes n adj num_edges.
Proof.
  intros Hn (Hshape & Hedges & Hperm).
  split; [exact Hedges|]. split.
  { rewrite <- (length_fmap snd), edges_of_children.
    apply Permutation_length in Hperm. by rewrite length_seq in Hperm. }
  unfold times_child. split.
  { rewrite (Permutation_count_occ Nat.eq_dec) in Hperm. rewrite Hperm.
    apply count_occ_not_In. rewrite in_seq. lia. }
  split.
  { intros c Hc1 Hcn.
    rewrite (Permutation_count_occ Nat.eq_dec) in Hperm. rewrite Hperm.
    apply NoDup_count_occ'; [apply NoDup_ListNoDup, NoDup_seq | apply in_seq; lia]. }
  intros p c Hin. split.
  - rewrite <- (shape_length _ _ Hshape). by eapply edges_of_parent.
  - assert (Hc : c ∈ seq 1 (n - 1)).
    { rewrite <- Hperm, <- edges_of_children. apply list_elem_of_fmap. by exists (p, c). }
    apply elem_of_seq in Hc. lia.
Qed.

(** C4: for [n >= 2] and a table of width [n], both builders return, and
    the tree has [n-1] edges, 0 is never a child, and each of the nodes
    [1 .. n-1] is a child exactly once, of one parent. *)
Theorem compute_mst_tree_has_every_node_once
    (NDEBUG : bool) (T_max : Z) (n : nat) (weights : triangular_table) :
  2 <= n -> table_wf n weights -> costs_below T_max weights ->
  (exists t,
     returns (fun fuel => Scan.compute_mst fuel NDEBUG T_max n weights) t /\
     rooted_with_all_nodes n (Scan.m_adjacency_list t) (Scan.num_edges t)) /\
  returns_all (fun fuel => Heap.compute_mst fuel n weights)
    (fun t => rooted_with_all_nodes n (Heap.m_adjacency_list t) (Heap.num_edges t)).
Proof.
  intros Hn Hwf Hbelow. split.
  - destruct (scan_compute_mst_spec NDEBUG T_max n weights Hn Hwf Hbelow) as (t & Hret & Hspan).
    exists t. split; [exact Hret|]. apply spanning_tree_all_nodes; [lia | exact Hspan].
  - destruct (heap_compute_mst_spec n weights ltac:(lia) Hwf) as (k & Hk).
    exists k. intros fuel Hfuel. destruct (Hk fuel Hfuel) as [Hne Hall].
    split; [exact Hne|]. eapply Forall_impl; [exact Hall|].
    intros r (t & -> & Hspan). exists t. split; [reflexivity|].
    apply spanning_tree_all_nodes; [lia | exact Hspan].
Qed.

Lemma compute_mst_tree_has_every_node_once_witness :
  exists t,
    returns (fun fuel => Scan.compute_mst fuel false DBL_MAX 4 weights_distinct) t /\
    rooted_with_all_nodes 4 (Scan.m_adjacency_list t) (Scan.num_edges t).
Proof.
  apply (compute_mst_tree_has_every_node_once false DBL_MAX 4 weights_distinct).
  - lia.
  - split; reflexivity.
  - unfold costs_below, weights_distinct, table_of, DBL_MAX. simpl.
    repeat constructor; vm_compute; discriminate.
Defined.

(** ** pre_order of a tree *)

Lemma pre_order_on_length fuel children num_edges order :
  pre_order_on fuel children num_edges = Ok order -> length order = num_edges + 1.
Proof.
  unfold pre_order_on. intros H.
  apply bind_Ok_inv in H as (order' & _ & H).
  apply bind_Ok_inv in H as (u & Hassert & [= <-]).
  apply runtime_assert_Ok in Hassert. by apply Nat.eqb_eq.
Qed.

Lemma pre_order_on_returns adj num_edges l :
  preorder_listing adj 0 l -> length l = num_edges + 1 ->
  returns (fun fuel => pre_order_on fuel (children_of adj) num_edges) l.
Proof.
  intros Hl Hlen. exists (length l). intros fuel Hfuel.
  by apply pre_order_on_listing.
Qed.

Lemma pre_order_loop_turn fuel children curr stack order cs :
  children curr = Ok cs ->
  pre_order_loop (S fuel) children (curr :: stack) order
  = pre_order_loop fuel children (cs ++ stack) (order ++ [curr]).
Proof. intros H. cbn [pre_order_loop]. rewrite H. cbn [bind]. by rewrite fold_left_push. Qed.

Lemma linearizer_listing : preorder_listing adjacency_linearizer 0 [0; 1; 2; 3].
Proof.
  apply (listing_node _ 0 [1; 3] [1; 2; 3]); [reflexivity|].
  apply (listings_cons _ 1 [3] [1; 2] [3]).
  - apply (listing_node _ 1 [2] [2]); [reflexivity|].
    apply (listings_cons _ 2 [] [2] []); [|constructor].
    apply (listing_node _ 2 [] []); [reflexivity | constructor].
  - apply (listings_cons _ 3 [] [3] []); [|constructor].
    apply (listing_node _ 3 [] []); [reflexivity | constructor].
Qed.

Lemma listing_sublisting adj :
  (forall node l, preorder_listing adj node l ->
     forall p, p ∈ l -> exists l1 lp l2, l = l1 ++ lp ++ l2 /\ preorder_listing adj p lp) /\
  (forall cs l, preorder_listings adj cs l ->
     forall p, p ∈ l -> exists l1 lp l2, l = l1 ++ lp ++ l2 /\ preorder_listing adj p lp).
Proof.
  apply preorder_listing_mutind.
  - intros node cs l Hnode Hcs IH p Hp.
    apply elem_of_cons in Hp as [->|Hp].
    + exists [], (node :: l), []. split; [by rewrite app_nil_r|]. by econstructor.
    + destruct (IH p Hp) as (l1 & lp & l2 & -> & Hlp).
      by exists (node :: l1), lp, l2.
  - intros p Hp. by apply elem_of_nil in Hp.
  - intros c cs l1 l2 Hc IH1 Hcs IH2 p Hp.
    apply elem_of_app in Hp as [Hp|Hp].
    + destruct (IH1 p Hp) as (a & lp & b & -> & Hlp).
      exists a, lp, (b ++ l2). split; [by rewrite <- !app_assoc | exact Hlp].
    + destruct (IH2 p Hp) as (a & lp & b & -> & Hlp).
      exists (l1 ++ a), lp, b. split; [by rewrite <- !app_assoc | exact Hlp].
Qed.

Lemma listing_children_follow adj l p cs :
  preorder_listing adj 0 l -> p ∈ l -> adj !! p = Some cs ->
  exists l1 lcs l2, l = l1 ++ p :: lcs ++ l2 /\ preorder_listings adj cs lcs.
Proof.
  intros Hl Hp Hcs.
  destruct (proj1 (listing_sublisting adj) 0 l Hl p Hp) as (l1 & lp & l2 & -> & Hlp).
  destruct Hlp as [node cs' lcs Hnode Hlcs].
  assert (cs' = cs) by congruence. subst cs'.
  by exists l1, lcs, l2.
Qed.

Lemma tree_shape_pre_order n adj num_edges :
  tree_shape n adj -> num_edges = length (concat adj) ->
  exists l, preorder_listing adj 0 l /\ length l = num_edges + 1 /\
            returns (fun fuel => pre_order_on fuel (children_of adj) num_edges) l.
Proof.
  intros Hshape Hedges. destruct (shape_listing _ _ Hshape) as (l & Hl & Hperm).
  assert (Hlen : length l = num_edges + 1).
  { apply Permutation_length in Hperm. unfold tree_nodes in Hperm. simpl in Hperm. lia. }
  exists l. split; [exact Hl|]. split; [exact Hlen | by apply pre_order_on_returns].
Qed.

(** C9: one turn of the loop pops the top of the stack, appends it to the
    output and pushes its children so that the first discovered is on top.
    The listing of a tree from 0 is a node followed by the listings of its
    children in discovery order, so that each node of it is directly
    followed by the listings of its children, in that order.  On a tree
    whose listing has [num_edges + 1] entries, as every tree made by
    insertions under nodes of the tree has, [pre_order] returns that
    listing; whatever [pre_order] returns has [num_edges + 1] entries; and
    on the tree 0 -> [1; 3], 1 -> [2] it returns [0; 1; 2; 3].  This holds
    for the tree class of either revision. *)
Theorem pre_order_lists_parents_first_children_in_order :
  (forall fuel children curr stack order cs,
     children curr = Ok cs ->
     pre_order_loop (S fuel) children (curr :: stack) order
     = pre_order_loop fuel children (cs ++ stack) (order ++ [curr])) /\
  (forall adj l p cs,
     preorder_listing adj 0 l -> p ∈ l -> adj !! p = Some cs ->
     exists l1 lcs l2, l = l1 ++ p :: lcs ++ l2 /\ preorder_listings adj cs lcs) /\
  (forall (t : Scan.tree) l,
     preorder_listing (Scan.m_adjacency_list t) 0 l ->
     length l = Scan.num_edges t + 1 ->
     returns (fun fuel => Scan.pre_order fuel t) l) /\
  (forall (t : Heap.tree) l,
     preorder_listing (Heap.m_adjacency_list t) 0 l ->
     length l = Heap.num_edges t + 1 ->
     returns (fun fuel => Heap.pre_order fuel t) l) /\
  (forall n (t : Scan.tree),
     tree_shape n (Scan.m_adjacency_list t) ->
     Scan.num_edges t = length (concat (Scan.m_adjacency_list t)) ->
     exists l, preorder_listing (Scan.m_adjacency_list t) 0 l /\
               length l = Scan.num_edges t + 1 /\
               returns (fun fuel => Scan.pre_order fuel t) l) /\
  (forall n (t : Heap.tree),
     tree_shape n (Heap.m_adjacency_list t) ->
     Heap.num_edges t = length (concat (Heap.m_adjacency_list t)) ->
     exists l, preorder_listing (Heap.m_adjacency_list t) 0 l /\
               length l = Heap.num_edges t + 1 /\
               returns (fun fuel => Heap.pre_order fuel t) l) /\
  (forall fuel (t : Scan.tree) order,
     Scan.pre_order fuel t = Ok order -> length order = Scan.num_edges t + 1) /\
  (forall fuel (t : Heap.tree) order,
     Heap.pre_order fuel t = Ok order -> length order = Heap.num_edges t + 1) /\
  (forall t : Scan.tree,
     Scan.m_adjacency_list t = adjacency_linearizer -> Scan.num_edges t = 3 ->
     returns (fun fuel => Scan.pre_order fuel t) [0; 1; 2; 3]) /\
  (forall t : Heap.tree,
     Heap.m_adjacency_list t = adjacency_linearizer -> Heap.num_edges t = 3 ->
     returns (fun fuel => Heap.pre_order fuel t) [0; 1; 2; 3]).
Proof.
  split; [exact pre_order_loop_turn|].
  split; [exact listing_children_follow|].
  split; [intros t l Hl Hlen; by apply pre_order_on_returns|].
  split; [intros t l Hl Hlen; by apply pre_order_on_returns|].
  split; [intros n t Hshape Hedges; by apply (tree_shape_pre_order n)|].
  split; [intros n t Hshape Hedges; by apply (tree_shape_pre_order n)|].
  split; [intros fuel t order; apply pre_order_on_length|].
  split; [intros fuel t order; apply pre_order_on_length|].
  split.
  - intros t Hadj Hedges. unfold Scan.pre_order, Scan.children.
    apply pre_order_on_returns; [rewrite Hadj; apply linearizer_listing | by rewrite Hedges].
  - intros t Hadj Hedges. unfold Heap.pre_order, Heap.children.
    apply pre_order_on_returns; [rewrite Hadj; apply linearizer_listing | by rewrite Hedges].
Qed.

Lemma pre_order_lists_parents_first_children_in_order_witness :
  returns (fun fuel => Scan.pre_order fuel
             {| Scan.m_parent := [false; true; true; true];
                Scan.m_adjacency_list := adjacency_linearizer;
                Scan.m_num_edges := 3 |}) [0; 1; 2; 3].
Proof.
  destruct pre_order_lists_parents_first_children_in_order
    as (_ & _ & _ & _ & _ & _ & _ & _ & Hexample & _).
  apply Hexample; reflexivity.
Defined.

Lemma spanning_tree_order n adj num_edges :
  0 < n -> spanning_tree n adj num_edges ->
  exists order,
    returns (fun fuel => pre_order_on fuel (children_of adj) num_edges) order /\
    order ≡ₚ seq 0 n /\ head order = Some 0.
Proof.
  intros Hn (Hshape & Hedges & Hperm).
  destruct (shape_listing _ _ Hshape) as (l & Hl & Hnodes).
  assert (Hseq : l ≡ₚ seq 0 n).
  { rewrite Hnodes. unfold tree_nodes. rewrite Hperm.
    destruct n as [|k]; [lia|]. simpl. by replace (k - 0) with k by lia. }
  exists l. split; [|split; [exact Hseq|]].
  - apply pre_order_on_returns; [exact Hl|].
    apply Permutation_length in Hseq. rewrite length_seq in Hseq. lia.
  - destruct Hl. reflexivity.
Qed.

(** X1: The order handed to the caller: for [n >= 2] and a table of width [n],
    [pre_order] of the tree that [compute_mst] returns (either builder)
    returns, and its output lists each of [0 .. n-1] once, 0 first. *)
Theorem final_order_is_a_permutation
    (NDEBUG : bool) (T_max : Z) (n : nat) (weights : triangular_table) :
  2 <= n -> table_wf n weights -> costs_below T_max weights ->
  (exists t order,
     returns (fun fuel => Scan.compute_mst fuel NDEBUG T_max n weights) t /\
     returns (fun fuel => Scan.pre_order fuel t) order /\
     order ≡ₚ seq 0 n /\ head order = Some 0) /\
  returns_all (fun fuel => Heap.compute_mst fuel n weights)
    (fun t => exists order,
       returns (fun fuel => Heap.pre_order fuel t) order /\
       order ≡ₚ seq 0 n /\ head order = Some 0).
Proof.
  intros Hn Hwf Hbelow. split.
  - destruct (scan_compute_mst_spec NDEBUG T_max n weights Hn Hwf Hbelow) as (t & Hret & Hspan).
    destruct (spanning_tree_order n _ _ ltac:(lia) Hspan) as (order & Hord).
    by exists t, order.
  - destruct (heap_compute_mst_spec n weights ltac:(lia) Hwf) as (k & Hk).
    exists k. intros fuel Hfuel. destruct (Hk fuel Hfuel) as [Hne Hall].
    split; [exact Hne|]. eapply Forall_impl; [exact Hall|].
    intros r (t & -> & Hspan). exists t. split; [reflexivity|].
    by apply spanning_tree_order; [lia|].
Qed.

Lemma final_order_is_a_permutation_witness :
  exists t order,
    returns (fun fuel => Scan.compute_mst fuel true DBL_MAX 3 weights_end_to_end) t /\
    returns (fun fuel => Scan.pre_order fuel t) order /\
    order ≡ₚ seq 0 3 /\ head order = Some 0.
Proof.
  apply (final_order_is_a_permutation true DBL_MAX 3 weights_end_to_end).
  - lia.
  - split; reflexivity.
  - unfold costs_below, weights_end_to_end, table_of, DBL_MAX. simpl.
    repeat constructor; vm_compute; discriminate.
Defined.

(** ** Running with any fuel *)

Lemma scan_mst_loop_fuel_cases NDEBUG T_max final weights fuel :
  forall st,
    Scan.mst_loop fuel NDEBUG T_max final weights st = Err OutOfFuel \/
    forall fuel', fuel <= fuel' ->
      Scan.mst_loop fuel' NDEBUG T_max final weights st
      = Scan.mst_loop fuel NDEBUG T_max final weights st.
Proof.
  induction fuel as [|fuel IH]; intros st.
  - cbn [Scan.mst_loop]. destruct (Scan.num_edges (Scan.t st) <? final) eqn:Hguard.
    + by left.
    + right. intros fuel' _. destruct fuel'; cbn [Scan.mst_loop]; by rewrite Hguard.
  - cbn [Scan.mst_loop]. destruct (Scan.num_edges (Scan.t st) <? final) eqn:Hguard.
    + destruct (Scan.loop_body NDEBUG T_max weights st) as [st'|e] eqn:Hbody.
      * cbn [bind]. destruct (IH st') as [Hout|Hsame]; [by left|].
        right. intros fuel' Hle. destruct fuel' as [|fuel']; [lia|].
        cbn [Scan.mst_loop]. rewrite Hguard, Hbody. cbn [bind]. apply Hsame. lia.
      * right. intros fuel' Hle. destruct fuel' as [|fuel']; [lia|].
        cbn [Scan.mst_loop]. by rewrite Hguard, Hbody.
    + right. intros fuel' _. destruct fuel'; cbn [Scan.mst_loop]; by rewrite Hguard.
Qed.

Lemma heap_mst_loop_fuel_cases n weights fuel :
  forall t heap r,
    r ∈ Heap.mst_loop fuel n weights t heap ->
    r = Err OutOfFuel \/
    forall fuel', fuel <= fuel' -> r ∈ Heap.mst_loop fuel' n weights t heap.
Proof.
  induction fuel as [|fuel IH]; intros t heap r Hr.
  - cbn [Heap.mst_loop] in Hr. destruct (Heap.num_edges t + 1 <? n) eqn:Hguard.
    + left. by apply list_elem_of_singleton in Hr.
    + right. intros fuel' _. destruct fuel'; cbn [Heap.mst_loop]; by rewrite Hguard.
  - cbn [Heap.mst_loop] in Hr. destruct (Heap.num_edges t + 1 <? n) eqn:Hguard.
    2:{ right. intros fuel' _. destruct fuel'; cbn [Heap.mst_loop]; by rewrite Hguard. }
    destruct (Heap.tops heap) as [|c0 choices] eqn:Htops.
    { right. intros fuel' Hle. destruct fuel' as [|fuel']; [lia|].
      cbn [Heap.mst_loop]. by rewrite Hguard, Htops. }
    apply list_elem_of_In, in_flat_map in Hr as ([curr heap'] & Hin & Hr).
    apply list_elem_of_In in Hr.
    assert (Hstep : forall fuel', fuel <= fuel' ->
              (r ∈ match Heap.visit weights t curr heap' with
                   | Ok (t', heap'') => Heap.mst_loop fuel' n weights t' heap''
                   | Err e => [Err e]
                   end) ->
              r ∈ Heap.mst_loop (S fuel') n weights t heap).
    { intros fuel' _ Hr'. cbn [Heap.mst_loop]. rewrite Hguard, Htops.
      apply list_elem_of_In, in_flat_map. exists (curr, heap').
      split; [exact Hin | by apply list_elem_of_In]. }
    destruct (Heap.visit weights t curr heap') as [[t' heap'']|e] eqn:Hvisit.
    + destruct (IH t' heap'' r Hr) as [Hout|Hsame]; [by left|].
      right. intros fuel' Hle. destruct fuel' as [|fuel']; [lia|].
      apply Hstep; [lia|]. apply Hsame. lia.
    + right. intros fuel' Hle. destruct fuel' as [|fuel']; [lia|].
      apply Hstep; [lia | exact Hr].
Qed.

Lemma get_lookup_error n weights x y :
  table_wf n weights ->
  (exists e, get weights x y = Err e /\ lookup_error e) <-> ~ (x < n /\ y < n /\ x <> y).
Proof.
  intros Hwf. split.
  - intros (e & Hget & _) (Hx & Hy & Hxy).
    destruct (get_valid n weights x y Hwf Hx Hy Hxy) as (v & _ & Hv). congruence.
  - intros Hnot. unfold get. rewrite (proj1 Hwf).
    destruct ((x <? n) && (y <? n)) eqn:Hrange; cbn [runtime_assert bind].
    + apply andb_true_iff in Hrange as [Hx Hy].
      apply Nat.ltb_lt in Hx, Hy.
      destruct (x =? y) eqn:Hxy; cbn [negb runtime_assert bind].
      * eexists. split; [reflexivity | by right].
      * apply Nat.eqb_neq in Hxy. tauto.
    + eexists. split; [reflexivity | by left].
Qed.

(** C10: a lookup into a table of width [n] fails on its range or on its
    pair exactly when its arguments are not two different nodes below [n];
    for [n >= 2] neither builder ever ends in such a failure, with any fuel:
    the only failure left is running out of fuel. *)
Theorem compute_mst_lookups_are_valid
    (NDEBUG : bool) (T_max : Z) (n : nat) (weights : triangular_table) (fuel : nat) :
  2 <= n -> table_wf n weights -> costs_below T_max weights ->
  (forall x y, (exists e, get weights x y = Err e /\ lookup_error e)
               <-> ~ (x < n /\ y < n /\ x <> y)) /\
  (forall e, Scan.compute_mst fuel NDEBUG T_max n weights = Err e ->
             e = OutOfFuel /\ ~ lookup_error e) /\
  (forall e, Err e ∈ Heap.compute_mst fuel n weights ->
             e = OutOfFuel /\ ~ lookup_error e).
Proof.
  intros Hn Hwf Hbelow.
  assert (Hout : forall e, e = OutOfFuel -> e = OutOfFuel /\ ~ lookup_error e).
  { intros e ->. split; [reflexivity|]. intros [?|?]; discriminate. }
  split; [intros x y; by apply get_lookup_error|]. split.
  - intros e Herr. apply Hout.
    destruct (scan_compute_mst_spec NDEBUG T_max n weights Hn Hwf Hbelow)
      as (t & (k & Hk) & _).
    specialize (Hk (Nat.max fuel k) ltac:(lia)).
    unfold Scan.compute_mst in *.
    destruct (runtime_assert (2 <=? n) A_size_ge_2) as [u|e0]; [|discriminate].
    cbn [bind] in *.
    destruct (Scan.new_tree NDEBUG n) as [t0|e0]; [|discriminate].
    cbn [bind] in *.
    destruct (scan_mst_loop_fuel_cases NDEBUG T_max (n - 1) weights fuel
                {| Scan.t := t0; Scan.candidates := Scan.initial_candidates T_max n;
                   Scan.just_inserted_index := 0; Scan.just_inserted := 0 |})
      as [Hfuel|Hsame]; [congruence|].
    rewrite (Hsame (Nat.max fuel k) ltac:(lia)) in Hk. congruence.
  - intros e Herr. apply Hout.
    destruct (heap_compute_mst_spec n weights ltac:(lia) Hwf) as (k & Hk).
    destruct (Hk (Nat.max fuel k) ltac:(lia)) as [_ Hall].
    rewrite Forall_forall in Hall.
    unfold Heap.compute_mst in *.
    destruct (Heap.new_tree n) as [t0|e0].
    2:{ destruct (Hall (Err e0) ltac:(by left)) as (t & Ht & _). discriminate. }
    destruct (row weights 0) as [cells|e0].
    2:{ destruct (Hall (Err e0) ltac:(by left)) as (t & Ht & _). discriminate. }
    destruct (heap_mst_loop_fuel_cases n weights fuel _ _ _ Herr) as [Hfuel|Hsame];
      [congruence|].
    destruct (Hall (Err e) (Hsame (Nat.max fuel k) ltac:(lia))) as (t & Ht & _).
    discriminate.
Qed.

Lemma compute_mst_lookups_are_valid_witness :
  exists e, Scan.compute_mst 2 false DBL_MAX 4 weights_distinct = Err e /\
            ~ lookup_error e.
Proof.
  exists OutOfFuel. split; [vm_compute; reflexivity|].
  assert (Hwf : table_wf 4 weights_distinct) by (split; reflexivity).
  assert (Hbelow : costs_below DBL_MAX weights_distinct).
  { unfold costs_below, weights_distinct, table_of, DBL_MAX. simpl.
    repeat constructor; vm_compute; discriminate. }
  destruct (compute_mst_lookups_are_valid false DBL_MAX 4 weights_distinct 2
              ltac:(lia) Hwf Hbelow) as (_ & Hscan & _).
  apply (Hscan OutOfFuel). vm_compute. reflexivity.
Defined.

(** ** Which failures can come from where *)

Lemma bind_Err_inv {A B} (m : result A) (k : A -> result B) e :
  bind m k = Err e -> m = Err e \/ exists a, m = Ok a /\ k a = Err e.
Proof. destruct m as [a|e']; simpl; [right; eauto | left; congruence]. Qed.

Lemma runtime_assert_Err cond a e : runtime_assert cond a = Err e -> e = AssertFailed a.
Proof. unfold runtime_assert. destruct cond; congruence. Qed.

Lemma vector_at_Err {A} (v : list A) i e :
  vector_at v i = Err e -> e = UndefinedBehaviour UB_vector_index.
Proof. unfold vector_at. destruct (v !! i); congruence. Qed.

(** Splits [H : ... = Err e] along the binds of a definition, leaving the
    failures of its parts. *)
Ltac split_err H :=
  repeat match type of H with
         | bind _ _ = Err _ =>
             let a := fresh "a" in let Ha := fresh "Ha" in
             apply bind_Err_inv in H as [H|(a & Ha & H)]
         | (if ?b then _ else _) = Err _ => destruct b
         | (let '(_, _) := ?p in _) = Err _ => destruct p
         | match ?o with Some _ => _ | None => _ end = Err _ => destruct o
         | Ok _ = Err _ => discriminate H
         end.

Ltac not_size_error :=
  unfold size_error;
  match goal with
  | H : runtime_assert _ _ = Err _ |- _ =>
      apply runtime_assert_Err in H; subst; intros [?|?]; discriminate
  | H : vector_at _ _ = Err _ |- _ =>
      apply vector_at_Err in H; subst; intros [?|?]; discriminate
  | H : Err _ = Err _ |- _ => injection H as <-; intros [?|?]; discriminate
  end.

Lemma get_not_size weights x y e : get weights x y = Err e -> ~ size_error e.
Proof. unfold get. intros H. split_err H; not_size_error. Qed.

Lemma emplace_child_not_size adj p c e : emplace_child adj p c = Err e -> ~ size_error e.
Proof. unfold emplace_child. intros H. split_err H; not_size_error. Qed.

Lemma row_cells_not_size weights y xs e : row_cells weights y xs = Err e -> ~ size_error e.
Proof.
  induction xs as [|x xs IH]; cbn [row_cells]; intros H; [discriminate|].
  split_err H; [by eapply get_not_size | by apply IH].
Qed.

Lemma row_not_size weights y e : row weights y = Err e -> ~ size_error e.
Proof.
  unfold row. intros H. split_err H; [not_size_error | by eapply row_cells_not_size].
Qed.

Lemma scan_try_insert_not_size NDEBUG t p c e :
  Scan.try_insert NDEBUG t p c = Err e -> ~ size_error e.
Proof.
  unfold Scan.try_insert, Scan.contains. intros H.
  split_err H; try not_size_error; by eapply emplace_child_not_size.
Qed.

Lemma scan_step_not_size T_max weights ji st i e :
  Scan.scan_step T_max weights ji st i = Err e -> ~ size_error e.
Proof.
  unfold Scan.scan_step, Scan.min_entry_cost. destruct st as [cands min_entry]. intros H.
  split_err H; try not_size_error; by eapply get_not_size.
Qed.

Lemma scan_from_not_size T_max weights ji indices :
  forall st e, Scan.scan_from T_max weights ji st indices = Err e -> ~ size_error e.
Proof.
  induction indices as [|i indices IH]; cbn [Scan.scan_from]; intros st e H; [discriminate|].
  split_err H; [by eapply scan_step_not_size | by eapply IH].
Qed.

Lemma scan_loop_body_not_size NDEBUG T_max weights st e :
  Scan.loop_body NDEBUG T_max weights st = Err e -> ~ size_error e.
Proof.
  unfold Scan.loop_body, Scan.scan, Scan.swap_pop. intros H.
  split_err H; try not_size_error;
    first [by eapply scan_from_not_size | by eapply scan_try_insert_not_size].
Qed.

Lemma scan_mst_loop_not_size NDEBUG T_max final weights fuel :
  forall st e, Scan.mst_loop fuel NDEBUG T_max final weights st = Err e -> ~ size_error e.
Proof.
  induction fuel as [|fuel IH]; cbn [Scan.mst_loop]; intros st e H.
  - split_err H. not_size_error.
  - split_err H; [by eapply scan_loop_body_not_size | by eapply IH].
Qed.

Lemma heap_try_insert_not_size t p c e :
  Heap.try_insert t p c = Err e -> ~ size_error e.
Proof.
  unfold Heap.try_insert, Heap.contains. intros H.
  split_err H; try not_size_error; by eapply emplace_child_not_size.
Qed.

Lemma push_unreached_not_size t cells :
  forall heap e, Heap.push_unreached t cells heap = Err e -> ~ size_error e.
Proof.
  induction cells as [|[[dst src] w] cells IH]; cbn [Heap.push_unreached];
    intros heap e H; [discriminate|].
  unfold Heap.contains in H. split_err H; try not_size_error; by eapply IH.
Qed.

Lemma heap_visit_not_size weights t curr heap e :
  Heap.visit weights t curr heap = Err e -> ~ size_error e.
Proof.
  unfold Heap.visit. intros H.
  split_err H;
    first [by eapply heap_try_insert_not_size | by eapply row_not_size
          | by eapply push_unreached_not_size].
Qed.

Lemma heap_mst_loop_not_size n weights fuel :
  forall t heap e, Err e ∈ Heap.mst_loop fuel n weights t heap -> ~ size_error e.
Proof.
  induction fuel as [|fuel IH]; cbn [Heap.mst_loop]; intros t heap e H.
  - destruct (Heap.num_edges t + 1 <? n);
      apply list_elem_of_singleton in H; [|discriminate].
    injection H as ->. intros [?|?]; discriminate.
  - destruct (Heap.num_edges t + 1 <? n).
    2:{ apply list_elem_of_singleton in H. discriminate. }
    destruct (Heap.tops heap) as [|c0 choices].
    { apply list_elem_of_singleton in H. injection H as ->. intros [?|?]; discriminate. }
    apply list_elem_of_In, in_flat_map in H as ([curr heap'] & _ & H).
    apply list_elem_of_In in H.
    destruct (Heap.visit weights t curr heap') as [[t' heap'']|e'] eqn:Hvisit.
    + by eapply IH.
    + apply list_elem_of_singleton in H. injection H as ->.
      by eapply heap_visit_not_size.
Qed.

(** ** The size of the input *)

(** C6, as amended: the array-scan builder fails its [size >= 2] assertion
    for every [n < 2] and fails no size assertion for [n >= 2]; the
    heap-based builder has no check of its own: [n = 0] fails in the tree
    constructor, [n = 1] returns the tree of one node and no edge, and for
    [n >= 1] it fails no size assertion. *)
Theorem compute_mst_size_checks :
  (forall fuel NDEBUG T_max n weights,
     n < 2 ->
     Scan.compute_mst fuel NDEBUG T_max n weights = Err (AssertFailed A_size_ge_2)) /\
  (forall fuel NDEBUG T_max n weights e,
     2 <= n -> Scan.compute_mst fuel NDEBUG T_max n weights = Err e -> ~ size_error e) /\
  (forall fuel weights,
     Heap.compute_mst fuel 0 weights = [Err (AssertFailed A_tree_size_gt_0)]) /\
  (forall fuel weights,
     table_wf 1 weights ->
     Heap.compute_mst fuel 1 weights
     = [Ok {| Heap.m_parent := [None]; Heap.m_adjacency_list := [[]];
              Heap.m_num_edges := 0 |}]) /\
  (forall fuel n weights e,
     1 <= n -> Err e ∈ Heap.compute_mst fuel n weights -> ~ size_error e).
Proof.
  split; [|split; [|split; [|split]]].
  - intros fuel NDEBUG T_max n weights Hn. unfold Scan.compute_mst.
    by rewrite (proj2 (Nat.leb_gt 2 n)) by lia.
  - intros fuel NDEBUG T_max n weights e Hn. unfold Scan.compute_mst, Scan.new_tree.
    rewrite (proj2 (Nat.leb_le 2 n)), (proj2 (Nat.ltb_lt 0 n)) by lia.
    cbn [runtime_assert bind]. apply scan_mst_loop_not_size.
  - reflexivity.
  - intros fuel weights [Hw Hlen]. unfold Heap.compute_mst, row. rewrite Hw.
    cbn [Heap.new_tree Nat.ltb Nat.leb runtime_assert bind replicate seq List.filter
         Nat.eqb negb row_cells Heap.push_all fold_left].
    destruct fuel; reflexivity.
  - intros fuel n weights e Hn. unfold Heap.compute_mst, Heap.new_tree.
    rewrite (proj2 (Nat.ltb_lt 0 n)) by lia. cbn [runtime_assert bind].
    destruct (row weights 0) as [cells|e0] eqn:Hrow.
    + apply heap_mst_loop_not_size.
    + intros Hin. apply list_elem_of_singleton in Hin. injection Hin as ->.
      by eapply row_not_size.
Qed.

Lemma compute_mst_size_checks_witness :
  Scan.compute_mst 5 false DBL_MAX 1 (table_of 1 []) = Err (AssertFailed A_size_ge_2) /\
  Heap.compute_mst 5 1 (table_of 1 [])
  = [Ok {| Heap.m_parent := [None]; Heap.m_adjacency_list := [[]];
           Heap.m_num_edges := 0 |}].
Proof.
  destruct compute_mst_size_checks as (Hscan & _ & _ & Hheap & _).
  split; [apply Hscan; lia | apply Hheap; split; reflexivity].
Defined.

(** C6 as stated fails for the heap-based builder: given one node, it
    returns. *)
Lemma heap_compute_mst_accepts_one_node :
  table_wf 1 (table_of 1 []) /\
  returns_all (fun fuel => Heap.compute_mst fuel 1 (table_of 1 []))
    (fun t => Heap.num_edges t = 0 /\ Heap.m_adjacency_list t = [[]]).
Proof.
  split; [split; reflexivity|].
  exists 0. intros fuel _. destruct fuel; vm_compute;
    (split; [discriminate|]); repeat constructor; eexists; split; try reflexivity;
    split; reflexivity.
Qed.

(** ** The two builders compared *)

(** Symbolic runs: evaluate, deciding each comparison of two costs from
    the hypotheses on their order. *)
Ltac rewrite_comparisons :=
  repeat match goal with
         | H : (?x <=? ?y)%Z = _ |- context [(?x <=? ?y)%Z] => rewrite H
         | H : (?x <? ?y)%Z = _ |- context [(?x <? ?y)%Z] => rewrite H
         | |- context [(?x <? ?x)%Z] => rewrite (Z.ltb_irrefl x)
         | |- context [(?x <=? ?x)%Z] => rewrite (Z.leb_refl x)
         end.

Ltac run_symbolic :=
  repeat (progress (cbn -[Z.leb Z.ltb]; unfold Heap.entry_lt; cbn -[Z.leb Z.ltb];
                    rewrite_comparisons)).

Ltac comparisons_to_props :=
  repeat match goal with
         | H : (_ <=? _)%Z = true |- _ => apply Z.leb_le in H
         | H : (_ <=? _)%Z = false |- _ => apply Z.leb_gt in H
         | H : (_ <? _)%Z = true |- _ => apply Z.ltb_lt in H
         | H : (_ <? _)%Z = false |- _ => apply Z.ltb_ge in H
         end.

Ltac case_order x y :=
  let Hle := fresh "Hle" in let Hlt := fresh "Hlt" in
  let Hge := fresh "Hge" in let Hgt := fresh "Hgt" in
  destruct (Z.leb x y) eqn:Hle; destruct (Z.ltb x y) eqn:Hlt;
  destruct (Z.leb y x) eqn:Hge; destruct (Z.ltb y x) eqn:Hgt;
  try solve [exfalso; comparisons_to_props; lia].

Ltac same_heap_result :=
  (split; [discriminate|]); repeat constructor; eexists; (split; [reflexivity|]);
  split; reflexivity.

Lemma builders_agree_two_nodes (NDEBUG : bool) (T_max a : Z) :
  (a <= T_max)%Z ->
  exists ts,
    returns (fun fuel => Scan.compute_mst fuel NDEBUG T_max 2 (table_of 2 [a])) ts /\
    returns_all (fun fuel => Heap.compute_mst fuel 2 (table_of 2 [a]))
      (fun th => Heap.m_adjacency_list th = Scan.m_adjacency_list ts /\
                 Heap.num_edges th = Scan.num_edges ts).
Proof.
  intros Ha. apply Z.leb_le in Ha.
  destruct NDEBUG; eexists; (split;
    [exists 1; intros fuel Hfuel; destruct fuel as [|[|fuel]]; [lia| |];
     run_symbolic; reflexivity
    |exists 1; intros fuel Hfuel; destruct fuel as [|[|fuel]]; [lia| |];
     run_symbolic; same_heap_result]).
Qed.

Lemma builders_agree_three_nodes (NDEBUG : bool) (T_max a b c : Z) :
  (a <= T_max)%Z -> (b <= T_max)%Z -> (c <= T_max)%Z ->
  a <> b -> a <> c -> b <> c ->
  exists ts,
    returns (fun fuel => Scan.compute_mst fuel NDEBUG T_max 3 (table_of 3 [a; b; c])) ts /\
    returns_all (fun fuel => Heap.compute_mst fuel 3 (table_of 3 [a; b; c]))
      (fun th => Heap.m_adjacency_list th = Scan.m_adjacency_list ts /\
                 Heap.num_edges th = Scan.num_edges ts).
Proof.
  intros Ha Hb Hc Hab Hac Hbc. apply Z.leb_le in Ha, Hb, Hc.
  case_order a b; case_order a c; case_order b c;
    try solve [exfalso; comparisons_to_props; lia].
  all: destruct NDEBUG; eexists; (split;
    [exists 2; intros fuel Hfuel; destruct fuel as [|[|[|fuel]]]; [lia|lia| |];
     run_symbolic; reflexivity
    |exists 3; intros fuel Hfuel; destruct fuel as [|[|[|[|fuel]]]]; [lia|lia|lia| |];
     run_symbolic; same_heap_result]).
Qed.

Lemma same_tree_same_order (th : Heap.tree) (ts : Scan.tree) :
  Heap.m_adjacency_list th = Scan.m_adjacency_list ts ->
  Heap.num_edges th = Scan.num_edges ts ->
  forall fuel, Heap.pre_order fuel th = Scan.pre_order fuel ts.
Proof.
  intros Hadj Hedges fuel.
  unfold Heap.pre_order, Scan.pre_order, Heap.children, Scan.children.
  by rewrite Hadj, Hedges.
Qed.

(** C3, as amended: on two nodes, and on three nodes whose three costs are
    pairwise distinct, the heap-based and the array-scan builder return the
    same children in the same discovery order, hence the same pre-order. *)
Theorem builders_agree_up_to_three_nodes
    (NDEBUG : bool) (T_max : Z) (n : nat) (weights : triangular_table) :
  table_wf n weights -> costs_below T_max weights ->
  n = 2 \/ (n = 3 /\ NoDup (m_data weights)) ->
  exists ts,
    returns (fun fuel => Scan.compute_mst fuel NDEBUG T_max n weights) ts /\
    returns_all (fun fuel => Heap.compute_mst fuel n weights)
      (fun th => Heap.m_adjacency_list th = Scan.m_adjacency_list ts /\
                 Heap.num_edges th = Scan.num_edges ts /\
                 forall fuel, Heap.pre_order fuel th = Scan.pre_order fuel ts).
Proof.
  intros [Hw Hlen] Hbelow Hn.
  destruct weights as [data width]. simpl in Hw, Hlen. subst width.
  unfold costs_below in Hbelow. simpl in Hbelow.
  assert (Hsame : exists ts,
    returns (fun fuel => Scan.compute_mst fuel NDEBUG T_max n (table_of n data)) ts /\
    returns_all (fun fuel => Heap.compute_mst fuel n (table_of n data))
      (fun th => Heap.m_adjacency_list th = Scan.m_adjacency_list ts /\
                 Heap.num_edges th = Scan.num_edges ts)).
  { destruct Hn as [->|[-> Hnd]].
    - destruct data as [|a [|]]; try discriminate Hlen.
      apply builders_agree_two_nodes. by inversion Hbelow.
    - destruct data as [|a [|b [|c [|]]]]; try discriminate Hlen.
      apply Forall_cons in Hbelow as [Ha Hbelow].
      apply Forall_cons in Hbelow as [Hb Hbelow].
      apply Forall_cons in Hbelow as [Hc _].
      apply NoDup_cons in Hnd as [Hab Hnd]. apply NoDup_cons in Hnd as [Hbc _].
      apply builders_agree_three_nodes; try done.
      + intros ->. apply Hab. by left.
      + intros ->. apply Hab. right. by left.
      + intros ->. apply Hbc. by left. }
  destruct Hsame as (ts & Hscan & k & Hheap).
  exists ts. split; [exact Hscan|]. exists k. intros fuel Hfuel.
  destruct (Hheap fuel Hfuel) as [Hne Hall]. split; [exact Hne|].
  eapply Forall_impl; [exact Hall|].
  intros r (th & -> & Hadj & Hedges). exists th. split; [reflexivity|].
  split; [exact Hadj|]. split; [exact Hedges | by apply same_tree_same_order].
Qed.

Lemma builders_agree_up_to_three_nodes_witness :
  exists ts,
    returns (fun fuel => Scan.compute_mst fuel false DBL_MAX 3 weights_end_to_end) ts /\
    returns_all (fun fuel => Heap.compute_mst fuel 3 weights_end_to_end)
      (fun th => Heap.m_adjacency_list th = Scan.m_adjacency_list ts /\
                 Heap.num_edges th = Scan.num_edges ts /\
                 forall fuel, Heap.pre_order fuel th = Scan.pre_order fuel ts).
Proof.
  apply (builders_agree_up_to_three_nodes false DBL_MAX 3 weights_end_to_end).
  - split; reflexivity.
  - unfold costs_below, weights_end_to_end, table_of, DBL_MAX. simpl.
    repeat constructor; vm_compute; discriminate.
  - right. split; [reflexivity|]. unfold weights_end_to_end, table_of. simpl.
    repeat constructor; rewrite ?elem_of_cons, ?elem_of_nil; intros H;
      repeat destruct H as [H|H]; try discriminate H; exact H.
Defined.

(** C3 as stated fails: on four nodes with the pairwise distinct costs
    d(0,1)=2, d(0,2)=3, d(1,2)=10, d(0,3)=4, d(1,3)=5, d(2,3)=1 the array-scan
    builder returns 0 -> [1; 3], 3 -> [2] with pre-order [0; 1; 3; 2], and the
    heap-based builder returns 0 -> [1; 2], 2 -> [3] with pre-order
    [0; 1; 2; 3]. *)
Lemma builders_differ_on_four_nodes :
  table_wf 4 weights_distinct /\
  Forall (fun c => (0 <= c)%Z) (m_data weights_distinct) /\
  NoDup (m_data weights_distinct) /\
  (forall NDEBUG, exists ts,
     returns (fun fuel => Scan.compute_mst fuel NDEBUG DBL_MAX 4 weights_distinct) ts /\
     Scan.m_adjacency_list ts = [[1; 3]; []; []; [2]] /\
     returns (fun fuel => Scan.pre_order fuel ts) [0; 1; 3; 2]) /\
  returns_all (fun fuel => Heap.compute_mst fuel 4 weights_distinct)
    (fun th => Heap.m_adjacency_list th = [[1; 2]; []; [3]; []] /\
               returns (fun fuel => Heap.pre_order fuel th) [0; 1; 2; 3]).
Proof.
  split; [split; reflexivity|].
  split; [unfold weights_distinct, table_of; simpl; repeat constructor; lia|].
  split.
  { unfold weights_distinct, table_of. simpl.
    repeat constructor; rewrite ?elem_of_cons, ?elem_of_nil; intros H;
      repeat destruct H as [H|H]; try discriminate H; exact H. }
  split.
  - intros [|]; eexists; (split; [|split]).
    1,4: exists 3; intros fuel Hfuel;
      destruct fuel as [|[|[|fuel]]]; try lia;
      destruct fuel; vm_compute; reflexivity.
    1,3: reflexivity.
    all: exists 4; intros fuel Hfuel;
      destruct fuel as [|[|[|[|fuel]]]]; try lia;
      destruct fuel; vm_compute; reflexivity.
  - exists 3. intros fuel Hfuel.
    destruct fuel as [|[|[|fuel]]]; try lia.
    destruct fuel; vm_compute; (split; [discriminate|]);
      repeat constructor; eexists; (split; [reflexivity|]);
      (split; [reflexivity|]);
      exists 4; intros fuel' Hfuel';
      (destruct fuel' as [|[|[|[|fuel']]]]; try lia);
      destruct fuel'; vm_compute; reflexivity.
Qed.

(** On tied costs the result of the heap-based builder is not determined
    by the matrix: with d(0,1) = d(0,2) = 1 and d(1,2) = 2 the queue may hand
    out either of the two entries of weight 1 first, and the root's children
    come out as [1; 2] or as [2; 1]. *)
Lemma heap_result_depends_on_queue_order :
  exists th1 th2,
    Heap.m_adjacency_list th1 = [[1; 2]; []; []] /\
    Heap.m_adjacency_list th2 = [[2; 1]; []; []] /\
    exists k, forall fuel, k <= fuel ->
      Ok th1 ∈ Heap.compute_mst fuel 3 (table_of 3 [1; 1; 2]%Z) /\
      Ok th2 ∈ Heap.compute_mst fuel 3 (table_of 3 [1; 1; 2]%Z).
Proof.
  do 2 eexists. split; [|split]; [| |exists 2; intros fuel Hfuel].
  3: destruct fuel as [|[|fuel]]; try lia;
     destruct fuel; vm_compute; (split; [left | right; left]).
  all: reflexivity.
Qed.

(** ** A row of the table *)

Lemma filter_seq_other (j m y : nat) :
  ~ (j <= y < j + m) -> List.filter (fun x => negb (x =? y)) (seq j m) = seq j m.
Proof.
  revert j. induction m as [|m IH]; intros j Hy; [reflexivity|].
  simpl. rewrite (proj2 (Nat.eqb_neq j y)) by lia. simpl. f_equal. apply IH. lia.
Qed.

Lemma filter_seq_skip (n y : nat) :
  y < n ->
  List.filter (fun x => negb (x =? y)) (seq 0 n) = seq 0 y ++ seq (S y) (n - S y).
Proof.
  intros Hy. replace n with (y + (1 + (n - S y))) at 1 by lia.
  rewrite seq_app, List.filter_app, seq_app, List.filter_app.
  rewrite (filter_seq_other 0 y y) by lia.
  rewrite (filter_seq_other (0 + y + 1) (n - S y) y) by lia.
  simpl. rewrite Nat.eqb_refl. simpl. by replace (y + 1) with (S y) by lia.
Qed.

Lemma row_cells_values weights y xs cells :
  row_cells weights y xs = Ok cells ->
  forall x v, ((x, y), v) ∈ cells -> get weights x y = Ok v.
Proof.
  revert cells. induction xs as [|x0 xs IH]; intros cells Hrow x v Hin.
  - injection Hrow as <-. by apply elem_of_nil in Hin.
  - cbn [row_cells] in Hrow.
    apply bind_Ok_inv in Hrow as (v0 & Hget & Hrow).
    apply bind_Ok_inv in Hrow as (rest & Hrest & [= <-]).
    apply elem_of_cons in Hin as [[= -> ->]|Hin]; [exact Hget | by eapply IH].
Qed.

(** X2: [row(y)] of a table of width [n], for [y < n]: the [n-1] pairs
    [(x, y)] with [x <> y], in increasing [x], each with the value that
    [get(x, y)] reads. *)
Theorem row_lists_the_other_nodes (n : nat) (weights : triangular_table) (y : nat) :
  table_wf n weights -> y < n ->
  exists cells,
    row weights y = Ok cells /\
    cells.*1 = (fun x => (x, y)) <$> (seq 0 y ++ seq (S y) (n - S y)) /\
    length cells = n - 1 /\
    (forall x v, ((x, y), v) ∈ cells -> get weights x y = Ok v).
Proof.
  intros Hwf Hy.
  destruct (row_cells_spec n weights y (seq 0 y ++ seq (S y) (n - S y)) Hwf Hy)
    as (cells & Hcells & Hfst).
  { intros x Hx. apply elem_of_app in Hx as [Hx|Hx]; apply elem_of_seq in Hx; lia. }
  exists cells. split; [|split; [exact Hfst|split]].
  - unfold row. rewrite (proj1 Hwf), (proj2 (Nat.ltb_lt y n)) by exact Hy.
    cbn [runtime_assert bind]. by rewrite filter_seq_skip.
  - rewrite <- (length_fmap fst), Hfst, length_fmap, length_app, !length_seq. lia.
  - by apply (row_cells_values weights y (seq 0 y ++ seq (S y) (n - S y)) cells).
Qed.

Lemma row_lists_the_other_nodes_witness :
  exists cells,
    row weights_distinct 2 = Ok cells /\
    cells.*1 = [(0, 2); (1, 2); (3, 2)].
Proof.
  destruct (row_lists_the_other_nodes 4 weights_distinct 2) as (cells & Hrow & Hfst & _).
  - split; reflexivity.
  - lia.
  - exists cells. split; [exact Hrow | exact Hfst].
Defined.


(** ** The debug build and the NDEBUG build of the array-scan revision *)

Lemma scan_try_insert_builds (t : Scan.tree) p c :
  Scan.try_insert false t p c = Err (AssertFailed A_child_lt_size) \/
  (exists t', Scan.try_insert false t p c = Ok (t', false)) \/
  Scan.try_insert true (release_tree t) p c
  = match Scan.try_insert false t p c with
    | Ok (t', b) => Ok (release_tree t', b)
    | Err e => Err e
    end.
Proof.
  unfold Scan.try_insert. cbn [release_tree Scan.m_adjacency_list Scan.m_num_edges].
  destruct (runtime_assert (p <? length (Scan.m_adjacency_list t)) A_parent_lt_size)
    as [[]|e]; cbn [bind]; [|by right; right].
  destruct (c <? length (Scan.m_parent t)) eqn:Hc; cbn [runtime_assert bind];
    [|by left].
  apply Nat.ltb_lt in Hc. unfold Scan.contains.
  destruct (c =? 0); cbn [bind]; [right; left; eauto|].
  apply lookup_lt_is_Some_2 in Hc as [b Hb].
  rewrite (vector_at_Some _ _ _ Hb). cbn [bind].
  destruct b; [right; left; eauto|].
  right; right. by destruct (emplace_child (Scan.m_adjacency_list t) p c).
Qed.

Lemma scan_loop_body_builds T_max weights (st : Scan.loop_state) :
  Scan.loop_body false T_max weights st = Err (AssertFailed A_child_lt_size) \/
  Scan.loop_body false T_max weights st = Err (AssertFailed A_insert_result) \/
  Scan.loop_body true T_max weights (release_state st)
  = match Scan.loop_body false T_max weights st with
    | Ok st' => Ok (release_state st')
    | Err e => Err e
    end.
Proof.
  unfold Scan.loop_body.
  cbn [release_state Scan.t Scan.candidates Scan.just_inserted_index Scan.just_inserted].
  destruct (Scan.swap_pop (Scan.candidates st) (Scan.just_inserted_index st))
    as [popped|e]; cbn [bind]; [|by right; right].
  destruct (Scan.scan T_max weights (Scan.just_inserted st) popped)
    as [[scanned [m|]]|e]; cbn [bind]; [| by right; right | by right; right].
  destruct (vector_at scanned m) as [e|e']; cbn [bind]; [|by right; right].
  destruct (scan_try_insert_builds (Scan.t st) (Scan.source e) (Scan.destination e))
    as [Herr|[[t' Hrefused]|Hsame]].
  - left. by rewrite Herr.
  - right; left. by rewrite Hrefused.
  - right; right. rewrite Hsame.
    destruct (Scan.try_insert false (Scan.t st) (Scan.source e) (Scan.destination e))
      as [[t' []]|e']; reflexivity.
Qed.

Lemma scan_mst_loop_builds T_max final weights fuel :
  forall st,
    Scan.mst_loop fuel false T_max final weights st = Err (AssertFailed A_child_lt_size) \/
    Scan.mst_loop fuel false T_max final weights st = Err (AssertFailed A_insert_result) \/
    Scan.mst_loop fuel true T_max final weights (release_state st)
    = release_result (Scan.mst_loop fuel false T_max final weights st).
Proof.
  induction fuel as [|fuel IH]; intros st; cbn [Scan.mst_loop];
    change (Scan.num_edges (Scan.t (release_state st))) with (Scan.num_edges (Scan.t st));
    destruct (Scan.num_edges (Scan.t st) <? final); try by (right; right).
  destruct (scan_loop_body_builds T_max weights st) as [Herr|[Herr|Hsame]].
  - left. by rewrite Herr.
  - right; left. by rewrite Herr.
  - rewrite Hsame.
    destruct (Scan.loop_body false T_max weights st) as [st'|e]; cbn [bind];
      [apply IH | by right; right].
Qed.

(** X11: The NDEBUG build of the array-scan [compute_mst] differs from the debug
    build in nothing but the checks of [try_insert]: on every input and
    with every fuel, either the debug build fails one of its two insertion
    checks ([child < m_parent.size()], [insert_result]), or the NDEBUG
    build has the same outcome, the same error or a tree with the same
    children lists and the same edge count. *)
Theorem scan_builds_differ_only_in_the_insertion_checks
    (fuel : nat) (T_max : Z) (size : nat) (weights : triangular_table) :
  Scan.compute_mst fuel false T_max size weights = Err (AssertFailed A_child_lt_size) \/
  Scan.compute_mst fuel false T_max size weights = Err (AssertFailed A_insert_result) \/
  Scan.compute_mst fuel true T_max size weights
  = release_result (Scan.compute_mst fuel false T_max size weights).
Proof.
  unfold Scan.compute_mst.
  destruct (runtime_assert (2 <=? size) A_size_ge_2) as [[]|e]; cbn [bind];
    [|by right; right].
  unfold Scan.new_tree.
  destruct (runtime_assert (0 <? size) A_tree_size_gt_0) as [[]|e]; cbn [bind];
    [|by right; right].
  apply (scan_mst_loop_builds T_max (size - 1) weights fuel
           {| Scan.t := {| Scan.m_parent := replicate size false;
                           Scan.m_adjacency_list := replicate size [];
                           Scan.m_num_edges := 0 |};
              Scan.candidates := Scan.initial_candidates T_max size;
              Scan.just_inserted_index := 0; Scan.just_inserted := 0 |}).
Qed.

(** ** The distance fill *)

Section Fill.

Context {H : Type}.
Variables (compute_histogram_diff : H -> H -> Z) (histograms : list H) (n : nat).
Hypothesis histograms_size : length histograms = n.

Lemma compute_diff_spec table x y r :
  ((x, y), r) ∈ indexed_pairs n ->
  exists v,
    pair_diff compute_histogram_diff histograms x y = Some v /\
    compute_diff compute_histogram_diff histograms table ((x, y), r)
    = Ok (write_ref table (cell_index x y) v).
Proof.
  intros Hin. apply indexed_pairs_ref in Hin as (Hxy & Hyn & ->).
  destruct (lookup_lt_is_Some_2 histograms x) as [hx Hx]; [lia|].
  destruct (lookup_lt_is_Some_2 histograms y) as [hy Hy]; [lia|].
  exists (compute_histogram_diff hx hy). split.
  - unfold pair_diff. rewrite Hx, Hy. reflexivity.
  - unfold compute_diff.
    rewrite (proj2 (Nat.eqb_neq x y)) by lia. cbn [negb runtime_assert bind].
    rewrite (vector_at_Some _ _ _ Hx), (vector_at_Some _ _ _ Hy). reflexivity.
Qed.

Lemma for_each_from_spec fuel :
  forall table x y,
    table_wf n table -> x < y -> y <= n ->
    nth_triangular (n - 1) <= nth_triangular (y - 1) + x + fuel ->
    for_each_from fuel (compute_diff compute_histogram_diff histograms) table
      {| m_x := x; m_y := y; m_prev_triangular := nth_triangular (y - 1) |}
    = apply_in_order (compute_diff compute_histogram_diff histograms) table
        (drop (nth_triangular (y - 1) + x) (indexed_pairs n)).
Proof.
  induction fuel as [|fuel IH]; intros table x y Hwf Hxy Hyn Hfuel.
  - assert (y = n).
    { destruct (decide (y = n)) as [|Hne]; [done|].
      pose proof (nth_triangular_row _ _ Hxy).
      pose proof (nth_triangular_mono y (n - 1)). lia. }
    subst y. cbn [for_each_from]. unfold at_end. cbn [m_y].
    rewrite (proj1 Hwf), Nat.eqb_refl.
    rewrite drop_ge; [reflexivity | rewrite length_indexed_pairs; lia].
  - cbn [for_each_from]. unfold at_end. cbn [m_y]. rewrite (proj1 Hwf).
    destruct (y =? n) eqn:Hy.
    { apply Nat.eqb_eq in Hy. subst y.
      rewrite drop_ge; [reflexivity | rewrite length_indexed_pairs; lia]. }
    apply Nat.eqb_neq in Hy.
    assert (Hidx : nth_triangular (y - 1) + x < nth_triangular (n - 1)).
    { pose proof (nth_triangular_row _ _ Hxy).
      pose proof (nth_triangular_mono y (n - 1)). lia. }
    unfold deref. cbn [m_x m_y m_prev_triangular]. rewrite (proj1 Hwf).
    rewrite (proj2 (Nat.ltb_lt y n)) by lia. cbn [runtime_assert bind].
    destruct (lookup_lt_is_Some_2 (m_data table) (nth_triangular (y - 1) + x))
      as [v Hv].
    { rewrite (proj2 Hwf), nth_triangular_pred by lia. lia. }
    rewrite (vector_at_Some _ _ _ Hv). cbn [bind].
    pose proof (indexed_pairs_lookup n x y Hxy ltac:(lia)) as Hcell.
    rewrite (drop_S _ _ _ Hcell). cbn [apply_in_order].
    destruct (compute_diff_spec table x y (nth_triangular (y - 1) + x))
      as (w & _ & ->); [by eapply list_elem_of_lookup_2|].
    cbn [bind].
    assert (Hwf' : table_wf n (write_ref table (cell_index x y) w))
      by by apply write_ref_wf.
    unfold next. cbn [m_x m_y m_prev_triangular].
    destruct (S x =? y) eqn:Hrow.
    + apply Nat.eqb_eq in Hrow.
      assert (Hny : nth_triangular y = nth_triangular (y - 1) + y).
      { destruct y as [|k]; [lia|]. rewrite nth_triangular_S.
        by replace (S k - 1) with k by lia. }
      pose proof (IH (write_ref table (cell_index x y) w) 0 (S y) Hwf'
                    ltac:(lia) ltac:(lia)) as IH'.
      replace (S y - 1) with y in IH' by lia.
      rewrite <- Hny, IH' by lia.
      replace (S (nth_triangular (y - 1) + x)) with (nth_triangular y + 0) by lia.
      reflexivity.
    + apply Nat.eqb_neq in Hrow.
      rewrite (IH (write_ref table (cell_index x y) w) (S x) y Hwf') by lia.
      replace (nth_triangular (y - 1) + S x)
        with (S (nth_triangular (y - 1) + x)) by lia. reflexivity.
Qed.

Lemma for_each_spec fuel table :
  table_wf n table -> 1 <= n -> nth_triangular (n - 1) <= fuel ->
  for_each fuel (compute_diff compute_histogram_diff histograms) table
  = apply_in_order (compute_diff compute_histogram_diff histograms) table
      (indexed_pairs n).
Proof.
  intros Hwf Hn Hfuel. unfold for_each, begin_.
  rewrite (proj1 Hwf), (proj2 (Nat.ltb_lt 0 n)) by lia. cbn [runtime_assert bind].
  pose proof (for_each_from_spec fuel table 0 1 Hwf) as Hit.
  cbn [Nat.sub] in Hit. rewrite nth_triangular_0 in Hit. cbn [Nat.add drop] in Hit.
  apply Hit; lia.
Qed.

Lemma apply_in_order_lookup cells :
  forall table,
    table_wf n table ->
    (forall c, c ∈ cells -> c ∈ indexed_pairs n) ->
    exists table',
      apply_in_order (compute_diff compute_histogram_diff histograms) table cells
      = Ok table' /\
      table_wf n table' /\
      forall x y, x < y -> y < n ->
        m_data table' !! cell_index x y
        = if decide (((x, y), cell_index x y) ∈ cells)
          then pair_diff compute_histogram_diff histograms x y
          else m_data table !! cell_index x y.
Proof.
  induction cells as [|[[a b] r] cells IH]; intros table Hwf Hcells.
  - exists table. split; [reflexivity|]. split; [exact Hwf|].
    intros x y _ _. destruct (decide _) as [Hin|_]; [inversion Hin | reflexivity].
  - assert (Hab : ((a, b), r) ∈ indexed_pairs n) by (apply Hcells; left).
    destruct (compute_diff_spec table a b r Hab) as (v & Hv & Hrun).
    apply indexed_pairs_ref in Hab as (Hab & Hbn & ->).
    destruct (IH (write_ref table (cell_index a b) v)) as (table' & Hrest & Hwf' & Hlook).
    { by apply write_ref_wf. }
    { intros c Hc. apply Hcells. by right. }
    exists table'. split; [cbn [apply_in_order]; by rewrite Hrun|].
    split; [exact Hwf'|].
    intros x y Hxy Hyn. rewrite (Hlook x y Hxy Hyn).
    destruct (decide (((x, y), cell_index x y) ∈ cells)) as [Hin|Hout].
    { rewrite decide_True by by right. reflexivity. }
    cbn [write_ref m_data].
    destruct (decide ((x, y) = (a, b))) as [[= -> ->]|Hne].
    + rewrite decide_True by by left.
      rewrite list_lookup_insert_eq; [by symmetry|].
      rewrite (proj2 Hwf), nth_triangular_pred by lia.
      apply cell_index_bound; lia.
    + rewrite decide_False.
      * apply list_lookup_insert_ne. intros Heq.
        destruct (cell_index_inj n a b x y) as [[-> ->]|[-> ->]];
          first [lia | done | congruence].
      * intros Hin. apply elem_of_cons in Hin as [[= -> ->]|Hin]; [by apply Hne | done].
Qed.

Lemma apply_in_order_all cells table :
  table_wf n table ->
  cells ≡ₚ indexed_pairs n ->
  exists table',
    apply_in_order (compute_diff compute_histogram_diff histograms) table cells
    = Ok table' /\
    table_wf n table' /\
    forall x y, x < y -> y < n ->
      m_data table' !! cell_index x y
      = pair_diff compute_histogram_diff histograms x y.
Proof.
  intros Hwf Hperm.
  destruct (apply_in_order_lookup cells table Hwf) as (table' & Hrun & Hwf' & Hlook).
  { intros c Hc. by rewrite <- Hperm. }
  exists table'. split; [exact Hrun|]. split; [exact Hwf'|].
  intros x y Hxy Hyn. rewrite (Hlook x y Hxy Hyn), decide_True; [reflexivity|].
  rewrite Hperm. eapply list_elem_of_lookup_2.
  rewrite (cell_index_lt _ _ Hxy). by apply indexed_pairs_lookup.
Qed.

Lemma filled_table_unique t1 t2 :
  table_wf n t1 -> table_wf n t2 ->
  (forall x y, x < y -> y < n ->
     m_data t1 !! cell_index x y = m_data t2 !! cell_index x y) ->
  t1 = t2.
Proof.
  clear compute_histogram_diff histograms histograms_size.
  intros [Hw1 Hl1] [Hw2 Hl2] Hcells.
  destruct t1 as [d1 w1], t2 as [d2 w2]. cbn [m_data m_width] in *. subst w1 w2.
  f_equal. apply list_eq. intros i.
  destruct (decide (i < nth_triangular (n - 1))) as [Hi|Hi].
  - rewrite <- length_indexed_pairs in Hi.
    apply lookup_lt_is_Some_2 in Hi as [[[x y] r] Hr].
    assert (Hin := list_elem_of_lookup_2 _ _ _ Hr).
    apply indexed_pairs_ref in Hin as (Hxy & Hyn & ->).
    pose proof (indexed_pairs_lookup n x y Hxy Hyn) as Hl.
    rewrite <- (cell_index_lt _ _ Hxy) in Hl.
    assert (Hnd : NoDup (indexed_pairs n)).
    { eapply NoDup_fmap_1 with (f := fst). rewrite indexed_pairs_fst.
      apply (StronglySorted_irrefl_NoDup pair_lt);
        [apply pair_lt_irrefl | apply all_pairs_sorted]. }
    rewrite (NoDup_lookup _ _ _ _ Hnd Hr Hl). by apply Hcells.
  - destruct (decide (n = 0)) as [->|Hn].
    + rewrite nth_triangular_0 in Hl1, Hl2.
      rewrite !lookup_ge_None_2; [reflexivity | lia | lia].
    + rewrite nth_triangular_pred in Hl1, Hl2 by lia.
      rewrite !lookup_ge_None_2; [reflexivity | lia | lia].
Qed.

End Fill.

(** X12: The distance fill of [main]: on a table as wide as [histograms],
    whatever it holds before, [std::for_each] over [begin() .. end()] with
    [compute_diff] returns, and in the table it leaves both [get(i, j)]
    and [get(j, i)], for [i < j], are the difference computed for the
    operands [(histograms[i], histograms[j])] in that order. *)
Theorem fill_stores_the_difference_of_every_pair {H}
    (compute_histogram_diff : H -> H -> Z) (histograms : list H)
    (table : triangular_table) :
  1 <= length histograms ->
  table_wf (length histograms) table ->
  exists table',
    returns (fun fuel => for_each fuel (compute_diff compute_histogram_diff histograms) table)
            table' /\
    table_wf (length histograms) table' /\
    forall i j hi hj,
      i < j -> histograms !! i = Some hi -> histograms !! j = Some hj ->
      get table' i j = Ok (compute_histogram_diff hi hj) /\
      get table' j i = Ok (compute_histogram_diff hi hj).
Proof.
  intros Hn Hwf. set (n := length histograms) in *.
  destruct (apply_in_order_all compute_histogram_diff histograms n eq_refl
              (indexed_pairs n) table Hwf) as (table' & Hrun & Hwf' & Hlook);
    [reflexivity|].
  exists table'. split; [|split; [exact Hwf'|]].
  - exists (nth_triangular (n - 1)). intros fuel Hfuel.
    by rewrite (for_each_spec compute_histogram_diff histograms n eq_refl fuel table).
  - intros i j hi hj Hij Hi Hj.
    assert (Hjn : j < n) by (apply lookup_lt_Some in Hj; exact Hj).
    assert (Hget : get table' i j = Ok (compute_histogram_diff hi hj)).
    { destruct (get_valid n table' i j Hwf') as (v & Hv & ->); [lia | lia | lia |].
      rewrite (Hlook i j Hij Hjn) in Hv. unfold pair_diff in Hv.
      rewrite Hi, Hj in Hv. cbn in Hv. congruence. }
    split; [exact Hget | by rewrite get_sym].
Qed.

Lemma fill_stores_the_difference_of_every_pair_witness :
  exists table',
    returns (fun fuel => for_each fuel (compute_diff Z.sub [10; 7; 1]%Z)
                           (table_of 3 [0; 0; 0]%Z)) table' /\
    get table' 2 0 = Ok 9%Z.
Proof.
  destruct (fill_stores_the_difference_of_every_pair Z.sub [10; 7; 1]%Z
              (table_of 3 [0; 0; 0]%Z)) as (table' & Hrun & _ & Hget).
  - simpl. lia.
  - split; reflexivity.
  - exists table'. split; [exact Hrun|].
    exact (proj2 (Hget 0 2 10%Z 1%Z ltac:(lia) eq_refl eq_refl)).
Defined.

(** X13: The fill does not depend on the order in which the cells are
    processed ([main] passes [std::execution::par]): applying
    [compute_diff] to the cells the iterator visits, taken in any order,
    returns the table that the in-order [std::for_each] returns. *)
Theorem fill_is_independent_of_the_processing_order {H}
    (compute_histogram_diff : H -> H -> Z) (histograms : list H)
    (table : triangular_table) (fuel : nat)
    (visited cells : list (coordinate * nat)) :
  1 <= length histograms ->
  table_wf (length histograms) table ->
  iterate_all fuel table = Ok visited ->
  cells ≡ₚ visited ->
  exists table',
    apply_in_order (compute_diff compute_histogram_diff histograms) table cells = Ok table' /\
    returns (fun fuel => for_each fuel (compute_diff compute_histogram_diff histograms) table)
            table'.
Proof.
  intros Hn Hwf Hvisited Hperm. set (n := length histograms) in *.
  assert (Hall : visited = indexed_pairs n).
  { destruct (decide (nth_triangular (n - 1) <= fuel)) as [Hfuel|Hfuel].
    - rewrite (iterate_all_spec n table fuel Hwf Hn Hfuel) in Hvisited. congruence.
    - exfalso. revert Hvisited. unfold iterate_all, begin_.
      rewrite (proj1 Hwf), (proj2 (Nat.ltb_lt 0 n)) by lia.
      cbn [runtime_assert bind].
      assert (Hshort : forall k x y,
                x < y -> y <= n -> nth_triangular (y - 1) + x + k < nth_triangular (n - 1) ->
                forall l, iterate_from k table
                            {| m_x := x; m_y := y;
                               m_prev_triangular := nth_triangular (y - 1) |} <> Ok l).
      { clear -Hwf. induction k as [|k IH]; intros x y Hxy Hyn Hk l;
          cbn [iterate_from]; unfold at_end; cbn [m_y]; rewrite (proj1 Hwf).
        - destruct (y =? n) eqn:Hy; [|discriminate].
          apply Nat.eqb_eq in Hy. subst y.
          pose proof (nth_triangular_row _ _ Hxy). lia.
        - destruct (y =? n) eqn:Hy.
          { apply Nat.eqb_eq in Hy. subst y.
            pose proof (nth_triangular_row _ _ Hxy). lia. }
          apply Nat.eqb_neq in Hy.
          destruct (deref table _) as [c|e]; cbn [bind]; [|discriminate].
          unfold next. cbn [m_x m_y m_prev_triangular].
          assert (Hny : nth_triangular y = nth_triangular (y - 1) + y).
          { destruct y as [|j]; [lia|]. rewrite nth_triangular_S.
            by replace (S j - 1) with j by lia. }
          destruct (S x =? y) eqn:Hrow.
          + apply Nat.eqb_eq in Hrow.
            pose proof (IH 0 (S y) ltac:(lia) ltac:(lia)) as IH'.
            replace (S y - 1) with y in IH' by lia.
            rewrite <- Hny.
            destruct (iterate_from k table _) as [l'|e] eqn:Hrest; cbn [bind];
              [|discriminate].
            exfalso. eapply IH'; [lia | reflexivity].
          + apply Nat.eqb_neq in Hrow.
            pose proof (IH (S x) y ltac:(lia) ltac:(lia) ltac:(lia)) as IH'.
            destruct (iterate_from k table _) as [l'|e]; cbn [bind];
              [|discriminate].
            exfalso. eapply IH'; reflexivity. }
      intros Hrun. eapply (Hshort fuel 0 1); [lia | lia | | exact Hrun].
      cbn [Nat.sub]. rewrite nth_triangular_0. lia. }
  subst visited.
  destruct (apply_in_order_all compute_histogram_diff histograms n eq_refl
              cells table Hwf Hperm) as (t1 & Hrun1 & Hwf1 & Hlook1).
  destruct (apply_in_order_all compute_histogram_diff histograms n eq_refl
              (indexed_pairs n) table Hwf) as (t2 & Hrun2 & Hwf2 & Hlook2);
    [reflexivity|].
  assert (t1 = t2) as <-.
  { apply (filled_table_unique n t1 t2 Hwf1 Hwf2).
    intros x y Hxy Hyn. by rewrite Hlook1, Hlook2. }
  exists t1. split; [exact Hrun1|].
  exists (nth_triangular (n - 1)). intros fuel' Hfuel.
  by rewrite (for_each_spec compute_histogram_diff histograms n eq_refl fuel' table).
Qed.

Lemma fill_is_independent_of_the_processing_order_witness :
  exists table',
    apply_in_order (compute_diff Z.sub [10; 7; 1]%Z) (table_of 3 [0; 0; 0]%Z)
      [((1, 2), 2); ((0, 1), 0); ((0, 2), 1)] = Ok table' /\
    returns (fun fuel => for_each fuel (compute_diff Z.sub [10; 7; 1]%Z)
                           (table_of 3 [0; 0; 0]%Z)) table'.
Proof.
  apply (fill_is_independent_of_the_processing_order Z.sub [10; 7; 1]%Z
           (table_of 3 [0; 0; 0]%Z) 3 [((0, 1), 0); ((0, 2), 1); ((1, 2), 2)]).
  - simpl. lia.
  - split; reflexivity.
  - reflexivity.
  - apply (Permutation_cons_append [((0, 1), 0); ((0, 2), 1)] ((1, 2), 2)).
Defined.

(** ** [main] *)

Lemma link_all_spec {H} (histograms : list H) order :
  forall idx,
    (forall entry, entry ∈ order -> entry < length histograms) ->
    exists links,
      link_all histograms idx order = Ok links /\
      links.*1 = seq idx (length order) /\
      links.*2 = omap (histograms !!.) order.
Proof.
  induction order as [|entry order IH]; intros idx Hbound.
  - exists []. by repeat split.
  - destruct (lookup_lt_is_Some_2 histograms entry) as [src Hsrc];
      [apply Hbound; left|].
    destruct (IH (S idx)) as (links & Hrun & Hfst & Hsnd);
      [intros e He; apply Hbound; by right|].
    exists ((idx, src) :: links). split; [|split].
    + cbn [link_all]. rewrite (vector_at_Some _ _ _ Hsrc). cbn [bind].
      by rewrite Hrun.
    + cbn. by rewrite Hfst.
    + cbn. by rewrite Hsrc, Hsnd.
Qed.

Lemma omap_lookup_seq {H} (histograms : list H) :
  omap (histograms !!.) (seq 0 (length histograms)) = histograms.
Proof.
  induction histograms as [|h histograms IH] using rev_ind; [reflexivity|].
  rewrite length_app. cbn [length]. rewrite Nat.add_1_r, seq_S, omap_app.
  cbn. rewrite lookup_app_r, Nat.sub_diag by lia. cbn. f_equal.
  rewrite <- IH at 2. apply list_omap_ext.
  apply Forall_Forall2_diag, Forall_forall. intros i Hi.
  apply elem_of_seq in Hi. apply lookup_app_l. lia.
Qed.

Lemma links_of_order {H} (histograms : list H) order :
  order ≡ₚ seq 0 (length histograms) -> head order = Some 0 ->
  exists links,
    link_all histograms 0 order = Ok links /\
    links.*1 = seq 0 (length histograms) /\
    links.*2 ≡ₚ histograms /\
    head links.*2 = head histograms.
Proof.
  intros Hperm Hhead.
  destruct (link_all_spec histograms order 0) as (links & Hrun & Hfst & Hsnd).
  { intros e He. rewrite Hperm in He. apply elem_of_seq in He. lia. }
  exists links. split; [exact Hrun|]. split; [|split].
  - rewrite Hfst. f_equal. apply Permutation_length in Hperm.
    by rewrite length_seq in Hperm.
  - by rewrite Hsnd, Hperm, omap_lookup_seq.
  - rewrite Hsnd. destruct order as [|e order]; [discriminate|].
    injection Hhead as ->. cbn. by destruct histograms.
Qed.

Lemma spanning_tree_order_fuel n adj num_edges :
  0 < n -> spanning_tree n adj num_edges ->
  exists order,
    (forall fuel, n <= fuel -> pre_order_on fuel (children_of adj) num_edges = Ok order) /\
    order ≡ₚ seq 0 n /\ head order = Some 0.
Proof.
  intros Hn (Hshape & Hedges & Hperm).
  destruct (shape_listing _ _ Hshape) as (l & Hl & Hnodes).
  assert (Hseq : l ≡ₚ seq 0 n).
  { rewrite Hnodes. unfold tree_nodes. rewrite Hperm.
    destruct n as [|k]; [lia|]. simpl. by replace (k - 0) with k by lia. }
  assert (Hlen : length l = n).
  { apply Permutation_length in Hseq. by rewrite length_seq in Hseq. }
  exists l. split; [|split; [exact Hseq|]].
  - intros fuel Hfuel. apply pre_order_on_listing; [exact Hl | lia | lia].
  - destruct Hl. reflexivity.
Qed.

Lemma filled_table {H} (compute_histogram_diff : H -> H -> Z) (histograms : list H) T_max :
  2 <= length histograms ->
  (forall hx hy, hx ∈ histograms -> hy ∈ histograms ->
     (compute_histogram_diff hx hy <= T_max)%Z) ->
  exists diff_table,
    (forall fuel, nth_triangular (length histograms - 1) <= fuel ->
       (let* diff_table := new_table (length histograms) 0 in
        for_each fuel (compute_diff compute_histogram_diff histograms) diff_table)
       = Ok diff_table) /\
    table_wf (length histograms) diff_table /\
    costs_below T_max diff_table.
Proof.
  intros Hn Hmax. set (n := length histograms) in *.
  destruct (new_table n 0) as [t0|e] eqn:Hnew.
  2: { unfold new_table in Hnew. rewrite (proj2 (Nat.ltb_lt 0 n)) in Hnew by lia.
       discriminate. }
  pose proof (new_table_wf _ _ _ Hnew) as Hwf0.
  destruct (apply_in_order_all compute_histogram_diff histograms n eq_refl
              (indexed_pairs n) t0 Hwf0) as (table & Hrun & Hwf & Hlook);
    [reflexivity|].
  exists table. split; [|split; [exact Hwf|]].
  - intros fuel Hfuel. cbn [bind].
    rewrite (for_each_spec compute_histogram_diff histograms n eq_refl fuel t0)
      by first [exact Hwf0 | lia].
    exact Hrun.
  - apply Forall_lookup. intros i c Hc.
    assert (Hi : i < length (indexed_pairs n)).
    { rewrite length_indexed_pairs, <- nth_triangular_pred, <- (proj2 Hwf) by lia.
      by eapply lookup_lt_Some. }
    apply lookup_lt_is_Some_2 in Hi as [[[x y] r] Hr].
    pose proof (list_elem_of_lookup_2 _ _ _ Hr) as Hin.
    pose proof Hin as Hin'. apply indexed_pairs_ref in Hin' as (Hxy & Hyn & ->).
    pose proof (indexed_pairs_lookup n x y Hxy Hyn) as Hl.
    rewrite <- (cell_index_lt _ _ Hxy) in Hl.
    assert (Hnd : NoDup (indexed_pairs n)).
    { eapply NoDup_fmap_1 with (f := fst). rewrite indexed_pairs_fst.
      apply (StronglySorted_irrefl_NoDup pair_lt);
        [apply pair_lt_irrefl | apply all_pairs_sorted]. }
    rewrite (NoDup_lookup _ _ _ _ Hnd Hr Hl) in Hc.
    rewrite (Hlook x y Hxy Hyn) in Hc. unfold pair_diff in Hc.
    destruct (histograms !! x) as [hx|] eqn:Hx; [|discriminate].
    destruct (histograms !! y) as [hy|] eqn:Hy; [|discriminate].
    cbn in Hc. injection Hc as <-.
    apply Hmax; by eapply list_elem_of_lookup_2.
Qed.





(** ** The tree class under any sequence of calls *)

Lemma children_in_concat (adj : list (list nat)) p cs c :
  adj !! p = Some cs -> c ∈ cs -> c ∈ concat adj.
Proof.
  intros Hp Hc. apply list_elem_of_In, in_concat. exists cs.
  split; apply list_elem_of_In; [by eapply list_elem_of_lookup_2 | exact Hc].
Qed.

Lemma concat_in_children (adj : list (list nat)) c :
  c ∈ concat adj -> exists p cs, adj !! p = Some cs /\ c ∈ cs.
Proof.
  intros Hc. apply list_elem_of_In, in_concat in Hc as (cs & Hcs & Hc).
  apply list_elem_of_In, list_elem_of_lookup in Hcs as [p Hp].
  exists p, cs. split; [exact Hp | by apply list_elem_of_In].
Qed.

Lemma nodup_concat_children (adj : list (list nat)) p cs :
  NoDup (concat adj) -> adj !! p = Some cs -> NoDup cs.
Proof.
  revert p. induction adj as [|a adj IH]; intros p Hnd Hp; [by rewrite lookup_nil in Hp|].
  cbn [concat] in Hnd. apply NoDup_app in Hnd as (Ha & _ & Hrest).
  destruct p as [|p]; cbn in Hp; [by injection Hp as <- | by eapply IH].
Qed.

Lemma nodup_concat_parent (adj : list (list nat)) p q cs cs' c :
  NoDup (concat adj) ->
  adj !! p = Some cs -> adj !! q = Some cs' -> c ∈ cs -> c ∈ cs' -> p = q.
Proof.
  revert p q. induction adj as [|a adj IH]; intros p q Hnd Hp Hq Hc Hc';
    [by rewrite lookup_nil in Hp|].
  cbn [concat] in Hnd. apply NoDup_app in Hnd as (Ha & Hdisj & Hrest).
  destruct p as [|p], q as [|q]; cbn in Hp, Hq.
  - reflexivity.
  - injection Hp as <-. exfalso. apply (Hdisj c Hc). by eapply children_in_concat.
  - injection Hq as <-. exfalso. apply (Hdisj c Hc'). by eapply children_in_concat.
  - f_equal. by eapply IH.
Qed.

Lemma edges_of_elem_from (adj : list (list nat)) k p c :
  (p, c) ∈ concat (imap (fun parent cs => map (fun child => (k + parent, child)) cs) adj)
  <-> exists i cs, p = k + i /\ adj !! i = Some cs /\ c ∈ cs.
Proof.
  revert k. induction adj as [|a adj IH]; intros k.
  - cbn. split; [intros Hin; inversion Hin | intros (i & cs & _ & Hi & _)].
    by rewrite lookup_nil in Hi.
  - cbn [imap concat]. rewrite elem_of_app.
    rewrite (imap_ext _ (fun parent cs => map (fun child => (S k + parent, child)) cs))
      by (intros i cs _; cbn; apply map_ext; intros ch; f_equal; lia).
    rewrite IH. split.
    + intros [Hin|(i & cs & -> & Hi & Hc)].
      * apply list_elem_of_In, in_map_iff in Hin as (ch & [= <- <-] & Hch).
        exists 0, a. split; [lia|]. split; [reflexivity | by apply list_elem_of_In].
      * exists (S i), cs. split; [lia | by split].
    + intros ([|i] & cs & -> & Hi & Hc); cbn in Hi.
      * injection Hi as <-. left. apply list_elem_of_In, in_map_iff.
        exists c. split; [f_equal; lia | by apply list_elem_of_In].
      * right. exists i, cs. split; [lia | by split].
Qed.

Lemma edges_of_elem (adj : list (list nat)) p c :
  (p, c) ∈ edges_of adj <-> exists cs, adj !! p = Some cs /\ c ∈ cs.
Proof.
  unfold edges_of.
  rewrite (imap_ext _ (fun parent cs => map (fun child => (0 + parent, child)) cs))
    by reflexivity.
  rewrite edges_of_elem_from. split.
  - intros (i & cs & -> & Hi & Hc). by exists cs.
  - intros (cs & Hp & Hc). by exists p, cs.
Qed.

Lemma checked_init size : 0 < size -> checked_adjacency size (replicate size []).
Proof.
  intros Hsize. split.
  - apply length_replicate.
  - unfold tree_nodes. rewrite concat_replicate_nil. apply NoDup_singleton.
  - unfold tree_nodes. rewrite concat_replicate_nil. intros v Hv.
    apply list_elem_of_singleton in Hv. lia.
Qed.

Lemma checked_emplace size adj p c :
  checked_adjacency size adj -> p < size -> c < size -> c ∉ tree_nodes adj ->
  exists cs,
    adj !! p = Some cs /\
    emplace_child adj p c = Ok (<[p := cs ++ [c]]> adj) /\
    checked_adjacency size (<[p := cs ++ [c]]> adj) /\
    concat (<[p := cs ++ [c]]> adj) ≡ₚ c :: concat adj /\
    forall q d, (q, d) ∈ edges_of (<[p := cs ++ [c]]> adj)
                <-> (q, d) = (p, c) \/ (q, d) ∈ edges_of adj.
Proof.
  intros [Hlen Hnd Hbound] Hp Hc Hnew.
  destruct (lookup_lt_is_Some_2 adj p) as [cs Hcs]; [lia|].
  pose proof (concat_insert_snoc adj p cs c Hcs) as Hconcat.
  exists cs. split; [exact Hcs|]. split; [by apply emplace_child_Ok|].
  split; [split|split; [exact Hconcat|]].
  - by rewrite length_insert.
  - unfold tree_nodes. rewrite Hconcat.
    apply (NoDup_Permutation_proper _ _ (perm_swap _ _ _)).
    apply NoDup_cons. split; [exact Hnew | exact Hnd].
  - unfold tree_nodes. intros v Hv. rewrite Hconcat in Hv.
    apply elem_of_cons in Hv as [->|Hv]; [lia|].
    apply elem_of_cons in Hv as [->|Hv]; [exact Hc|].
    apply Hbound. by right.
  - intros q d. rewrite !edges_of_elem. split.
    + intros (cs' & Hq & Hd). destruct (decide (q = p)) as [->|Hne].
      * rewrite list_lookup_insert_eq in Hq by lia. injection Hq as <-.
        apply elem_of_app in Hd as [Hd|Hd]; [right; by exists cs|].
        apply list_elem_of_singleton in Hd. subst d. by left.
      * rewrite list_lookup_insert_ne in Hq by done. right. by exists cs'.
    + intros [[= -> ->]|(cs' & Hq & Hd)].
      * exists (cs ++ [c]). split; [by rewrite list_lookup_insert_eq by lia|].
        apply elem_of_app. right. by left.
      * destruct (decide (q = p)) as [->|Hne].
        -- exists (cs ++ [c]). split; [by rewrite list_lookup_insert_eq by lia|].
           apply elem_of_app. left. congruence.
        -- exists cs'. by rewrite list_lookup_insert_ne by done.
Qed.

(** The state of a tree object of img_sort.cpp. *)
Lemma heap_built_inv size t :
  heap_built size t ->
  0 < size /\
  checked_adjacency size (Heap.m_adjacency_list t) /\
  Heap.num_edges t = length (concat (Heap.m_adjacency_list t)) /\
  heap_flags size (Heap.m_adjacency_list t) (Heap.m_parent t) /\
  forall c p, Heap.m_parent t !! c = Some (Some p)
              <-> (p, c) ∈ edges_of (Heap.m_adjacency_list t).
Proof.
  induction 1 as [t Hnew|t parent child t' inserted Hbuilt IH Hins].
  - unfold Heap.new_tree in Hnew.
    destruct (0 <? size) eqn:Hsize; cbn [runtime_assert bind] in Hnew; [|discriminate].
    apply Nat.ltb_lt in Hsize. injection Hnew as <-.
    cbn [Heap.m_adjacency_list Heap.m_parent Heap.num_edges Heap.m_num_edges].
    split; [exact Hsize|]. split; [by apply checked_init|].
    split; [by rewrite concat_replicate_nil|]. split; [split|].
    + apply length_replicate.
    + intros v Hv. exists None. split; [by apply lookup_replicate_2|].
      rewrite concat_replicate_nil. split; [intros [? ?]; discriminate|].
      intros Hin. inversion Hin.
    + intros c p. rewrite edges_of_elem. split.
      * intros Hc. apply lookup_replicate in Hc as [? _]. discriminate.
      * intros (cs & Hp & Hc). apply lookup_replicate in Hp as [-> _]. inversion Hc.
  - destruct IH as (Hsize & Hadj & Hedges & Hflags & Hparent).
    split; [exact Hsize|].
    unfold Heap.try_insert in Hins.
    apply bind_Ok_inv in Hins as ([] & Hp & Hins). apply runtime_assert_Ok in Hp.
    apply bind_Ok_inv in Hins as ([] & Hc & Hins). apply runtime_assert_Ok in Hc.
    apply Nat.ltb_lt in Hp, Hc.
    rewrite (checked_length _ _ Hadj) in Hp. rewrite (proj1 Hflags) in Hc.
    rewrite (heap_contains_spec size t child Hflags Hc) in Hins. cbn [bind] in Hins.
    destruct (bool_decide (child ∈ tree_nodes (Heap.m_adjacency_list t))) eqn:Hin.
    { injection Hins as <- <-. exact (conj Hadj (conj Hedges (conj Hflags Hparent))). }
    apply bool_decide_eq_false in Hin.
    destruct (checked_emplace size _ parent child Hadj Hp Hc Hin)
      as (cs & Hcs & Hrun & Hadj' & Hconcat & Hedge).
    rewrite Hrun in Hins. cbn [bind] in Hins. injection Hins as <- <-.
    cbn [Heap.m_adjacency_list Heap.m_parent Heap.num_edges Heap.m_num_edges].
    split; [exact Hadj'|]. split; [|split].
    + rewrite Hconcat. cbn. f_equal. exact Hedges.
    + destruct Hflags as [Hlen Hflag]. split; [by rewrite length_insert|].
      intros v Hv. destruct (decide (v = child)) as [->|Hne].
      * exists (Some parent). rewrite list_lookup_insert_eq by lia.
        split; [reflexivity|]. split; [intros _; rewrite Hconcat; by left | by eexists].
      * destruct (Hflag v Hv) as (o & Ho & Hiff). exists o.
        rewrite list_lookup_insert_ne by congruence. split; [exact Ho|].
        rewrite Hconcat, elem_of_cons, Hiff. split; [by right | intros [?|?]; done].
    + intros c p. rewrite Hedge. destruct (decide (c = child)) as [->|Hne].
      * rewrite list_lookup_insert_eq by (rewrite (proj1 Hflags); lia). split.
        -- intros [= ->]. by left.
        -- intros [[= ->]|Hold]; [reflexivity|]. exfalso. apply Hin.
           right. rewrite <- edges_of_children. apply list_elem_of_fmap.
           by exists (p, child).
      * rewrite list_lookup_insert_ne by congruence. rewrite Hparent.
        split; [by right | intros [[= -> ->]|?]; done].
Qed.

(** The state of a tree object of the debug build of the later revision. *)
Lemma scan_built_inv size t :
  scan_built false size t ->
  0 < size /\
  checked_adjacency size (Scan.m_adjacency_list t) /\
  Scan.num_edges t = length (concat (Scan.m_adjacency_list t)) /\
  parent_flags false size (Scan.m_adjacency_list t) (Scan.m_parent t).
Proof.
  induction 1 as [t Hnew|t parent child t' inserted Hbuilt IH Hins].
  - unfold Scan.new_tree in Hnew.
    destruct (0 <? size) eqn:Hsize; cbn [runtime_assert bind] in Hnew; [|discriminate].
    apply Nat.ltb_lt in Hsize. injection Hnew as <-.
    cbn [Scan.m_adjacency_list Scan.m_parent Scan.num_edges Scan.m_num_edges].
    split; [exact Hsize|]. split; [by apply checked_init|].
    split; [by rewrite concat_replicate_nil|].
    intros _. split; [apply length_replicate|].
    intros v Hv. rewrite lookup_replicate_2 by exact Hv.
    rewrite concat_replicate_nil, bool_decide_eq_false_2; [reflexivity|].
    apply not_elem_of_nil.
  - destruct IH as (Hsize & Hadj & Hedges & Hflags).
    split; [exact Hsize|].
    destruct (Hflags eq_refl) as [Hlen Hflag].
    unfold Scan.try_insert in Hins.
    apply bind_Ok_inv in Hins as ([] & Hp & Hins). apply runtime_assert_Ok in Hp.
    apply bind_Ok_inv in Hins as ([] & Hc & Hins). apply runtime_assert_Ok in Hc.
    apply Nat.ltb_lt in Hp, Hc.
    rewrite (checked_length _ _ Hadj) in Hp. rewrite Hlen in Hc.
    assert (Hcontains : Scan.contains t child
                        = Ok (bool_decide (child ∈ tree_nodes (Scan.m_adjacency_list t)))).
    { unfold Scan.contains, tree_nodes. destruct (child =? 0) eqn:H0.
      - apply Nat.eqb_eq in H0. subst child.
        rewrite bool_decide_eq_true_2; [reflexivity | by left].
      - apply Nat.eqb_neq in H0. rewrite (vector_at_Some _ _ _ (Hflag child Hc)).
        f_equal. apply bool_decide_ext. rewrite elem_of_cons.
        split; [by right | intros [?|?]; done]. }
    rewrite Hcontains in Hins. cbn [bind] in Hins.
    destruct (bool_decide (child ∈ tree_nodes (Scan.m_adjacency_list t))) eqn:Hin.
    { injection Hins as <- <-. exact (conj Hadj (conj Hedges Hflags)). }
    apply bool_decide_eq_false in Hin.
    destruct (checked_emplace size _ parent child Hadj Hp Hc Hin)
      as (cs & Hcs & Hrun & Hadj' & Hconcat & Hedge).
    rewrite Hrun in Hins. cbn [bind] in Hins. injection Hins as <- <-.
    cbn [Scan.m_adjacency_list Scan.m_parent Scan.num_edges Scan.m_num_edges].
    split; [exact Hadj'|]. split.
    + rewrite Hconcat. cbn. f_equal. exact Hedges.
    + intros _. split; [by rewrite length_insert|].
      intros v Hv. destruct (decide (v = child)) as [->|Hne].
      * rewrite list_lookup_insert_eq by lia.
        rewrite bool_decide_eq_true_2; [reflexivity | rewrite Hconcat; by left].
      * rewrite list_lookup_insert_ne by congruence. rewrite (Hflag v Hv).
        f_equal. apply bool_decide_ext. rewrite Hconcat, elem_of_cons.
        split; [by right | intros [?|?]; done].
Qed.

(** *** [pre_order] on such trees *)

Lemma pre_order_loop_checked size adj fuel :
  checked_adjacency size adj ->
  forall stack order,
    NoDup (order ++ stack) ->
    (forall c, c ∈ order ++ stack ->
       c ∈ tree_nodes adj /\
       (c = 0 \/ exists p cs, p ∈ order /\ adj !! p = Some cs /\ c ∈ cs)) ->
    size <= length order + fuel ->
    exists order',
      pre_order_loop fuel (children_of adj) stack order = Ok order' /\
      order `prefix_of` order' /\
      NoDup order' /\
      forall c, c ∈ order' -> c ∈ tree_nodes adj.
Proof.
  intros Hadj. induction fuel as [|fuel IH]; intros stack order Hnd Hin Hfuel.
  - assert (Hlen : length (order ++ stack) <= size).
    { apply nodes_below_length; [exact Hnd|].
      intros v Hv. apply (checked_bound _ _ Hadj). by apply Hin. }
    rewrite length_app in Hlen.
    destruct stack as [|curr stack]; [|cbn in Hlen; lia].
    exists order. rewrite app_nil_r in Hnd, Hin.
    split; [reflexivity|]. split; [reflexivity|]. split; [exact Hnd|].
    intros c Hc. by apply Hin.
  - destruct stack as [|curr stack].
    { exists order. rewrite app_nil_r in Hnd, Hin.
      split; [reflexivity|]. split; [reflexivity|]. split; [exact Hnd|].
      intros c Hc. by apply Hin. }
    assert (Hcurr : curr < size).
    { apply (checked_bound _ _ Hadj). apply Hin, elem_of_app. right. by left. }
    destruct (lookup_lt_is_Some_2 adj curr) as [cs Hcs];
      [by rewrite (checked_length _ _ Hadj)|].
    rewrite (pre_order_loop_turn _ _ _ _ _ cs) by by apply children_of_Some.
    pose proof (checked_nodup _ _ Hadj) as Hnodes. unfold tree_nodes in Hnodes.
    apply NoDup_cons in Hnodes as [Hroot Hconcat].
    assert (Hfresh : forall c, c ∈ cs -> c ∉ order ++ curr :: stack).
    { intros c Hc Hold. destruct (Hin c Hold) as [_ [->|(p & cs' & Hp & Hcs' & Hc')]].
      - apply Hroot. by eapply children_in_concat.
      - assert (p = curr) by by eapply (nodup_concat_parent adj p curr cs' cs c).
        subst p. apply NoDup_app in Hnd as (_ & Hdisj & _).
        apply (Hdisj curr Hp). by left. }
    destruct (IH (cs ++ stack) (order ++ [curr])) as (order' & Hrun & Hpre & Hnd' & Hin').
    + rewrite <- app_assoc. cbn [app].
      apply (NoDup_Permutation_proper (cs ++ (order ++ curr :: stack))).
      { rewrite (Permutation_middle cs stack curr), !app_assoc.
        by rewrite (Permutation_app_comm cs order). }
      apply NoDup_app. split; [by eapply nodup_concat_children|].
      split; [exact Hfresh | exact Hnd].
    + intros c Hc. rewrite <- app_assoc in Hc. cbn [app] in Hc.
      assert (Hcase : c ∈ cs \/ c ∈ order ++ curr :: stack).
      { rewrite elem_of_app, elem_of_cons, elem_of_app in Hc.
        rewrite elem_of_app, elem_of_cons. tauto. }
      destruct Hcase as [Hc'|Hc'].
      * split; [right; by eapply children_in_concat|].
        right. exists curr, cs. split; [|by split].
        apply elem_of_app. right. by left.
      * destruct (Hin c Hc') as [Hnode Hparent]. split; [exact Hnode|].
        destruct Hparent as [->|(p & cs' & Hp & Hcs' & Hcin)]; [by left|].
        right. exists p, cs'. split; [|by split]. apply elem_of_app. by left.
    + rewrite length_app. cbn. lia.
    + exists order'. split; [exact Hrun|]. split; [|by split].
      etrans; [|exact Hpre]. by apply prefix_app_r.
Qed.

Lemma pre_order_on_checked size adj num_edges :
  0 < size -> checked_adjacency size adj -> num_edges = length (concat adj) ->
  exists r,
    (forall fuel, size <= fuel -> pre_order_on fuel (children_of adj) num_edges = r) /\
    (r = Err (AssertFailed A_order_size) \/
     exists order, r = Ok order /\ order ≡ₚ tree_nodes adj /\ head order = Some 0).
Proof.
  intros Hsize Hadj Hedges.
  destruct (lookup_lt_is_Some_2 adj 0) as [cs Hcs];
    [by rewrite (checked_length _ _ Hadj)|].
  assert (Hloop : exists order,
            (forall fuel, size <= fuel ->
               pre_order_loop fuel (children_of adj) [0] [] = Ok order) /\
            head order = Some 0 /\ NoDup order /\
            forall c, c ∈ order -> c ∈ tree_nodes adj).
  { destruct (pre_order_loop_checked size adj size Hadj [0] [])
      as (order & Hrun & _ & Hnd & Hin).
    - apply NoDup_singleton.
    - intros c Hc. apply list_elem_of_singleton in Hc. subst c.
      split; [by left | by left].
    - cbn. lia.
    - exists order. split; [|split; [|by split]].
      + intros fuel Hfuel.
        destruct (pre_order_loop_checked size adj fuel Hadj [0] [])
          as (order2 & Hrun2 & _).
        * apply NoDup_singleton.
        * intros c Hc. apply list_elem_of_singleton in Hc. subst c.
          split; [by left | by left].
        * cbn. lia.
        * rewrite Hrun2. f_equal.
          assert (Hmono : forall k stack acc l,
                    pre_order_loop k (children_of adj) stack acc = Ok l ->
                    forall k', k <= k' ->
                      pre_order_loop k' (children_of adj) stack acc = Ok l).
          { clear. induction k as [|k IHk]; intros stack acc l Hl k' Hk.
            - destruct stack; [|discriminate]. by destruct k'.
            - destruct stack as [|c stack]; [by destruct k'|].
              destruct k' as [|k']; [lia|]. cbn [pre_order_loop] in Hl |- *.
              destruct (children_of adj c) as [cs|e]; cbn [bind] in Hl |- *;
                [|discriminate].
              apply (IHk _ _ _ Hl). lia. }
          pose proof (Hmono size [0] [] order Hrun fuel Hfuel) as Hsame.
          congruence.
      + destruct size as [|k]; [lia|]. cbn [pre_order_loop] in Hrun.
        rewrite (children_of_Some _ _ _ Hcs) in Hrun. cbn [bind] in Hrun.
        destruct (pre_order_loop_checked (S k) adj k Hadj
                    (fold_left push (rev cs) []) ([] ++ [0]))
          as (order2 & Hrun2 & Hpre & _).
        * rewrite fold_left_push, app_nil_r. cbn [app].
          pose proof (checked_nodup _ _ Hadj) as Hnodes. unfold tree_nodes in Hnodes.
          apply NoDup_cons in Hnodes as [Hroot Hconcat].
          apply NoDup_cons. split; [|by eapply nodup_concat_children].
          intros H0. apply Hroot. by eapply children_in_concat.
        * rewrite fold_left_push, app_nil_r. cbn [app].
          intros c Hc. apply elem_of_cons in Hc as [->|Hc].
          -- split; by left.
          -- split; [right; by eapply children_in_concat|].
             right. exists 0, cs. split; [by left | by split].
        * cbn. lia.
        * rewrite Hrun in Hrun2. injection Hrun2 as <-.
          destruct Hpre as [l ->]. reflexivity. }
  destruct Hloop as (order & Hrun & Hhead & Hnd & Hin).
  destruct (decide (length order = num_edges + 1)) as [Hlen|Hlen].
  - exists (Ok order). split.
    + intros fuel Hfuel. unfold pre_order_on, push. rewrite (Hrun fuel Hfuel).
      cbn [bind]. by rewrite (proj2 (Nat.eqb_eq _ _) Hlen).
    + right. exists order. split; [reflexivity|]. split; [|exact Hhead].
      apply submseteq_length_Permutation.
      * by apply NoDup_submseteq.
      * unfold tree_nodes. cbn. lia.
  - exists (Err (AssertFailed A_order_size)). split; [|by left].
    intros fuel Hfuel. unfold pre_order_on, push. rewrite (Hrun fuel Hfuel).
    cbn [bind]. by rewrite (proj2 (Nat.eqb_neq _ _) Hlen).
Qed.

Lemma heap_tree_0_2_1_built : heap_built 3 heap_tree_0_2_1.
Proof.
  apply (heap_built_insert 3
           {| Heap.m_parent := [None; None; Some 0];
              Heap.m_adjacency_list := [[2]; []; []];
              Heap.m_num_edges := 1 |} 2 1 _ true); [|reflexivity].
  apply (heap_built_insert 3
           {| Heap.m_parent := [None; None; None];
              Heap.m_adjacency_list := [[]; []; []];
              Heap.m_num_edges := 0 |} 0 2 _ true); [|reflexivity].
  apply heap_built_new. reflexivity.
Qed.

Lemma scan_tree_0_2_1_built : scan_built false 3 scan_tree_0_2_1.
Proof.
  apply (scan_built_insert false 3
           {| Scan.m_parent := [false; false; true];
              Scan.m_adjacency_list := [[2]; []; []];
              Scan.m_num_edges := 1 |} 2 1 _ true); [|reflexivity].
  apply (scan_built_insert false 3
           {| Scan.m_parent := [false; false; false];
              Scan.m_adjacency_list := [[]; []; []];
              Scan.m_num_edges := 0 |} 0 2 _ true); [|reflexivity].
  apply scan_built_new. reflexivity.
Qed.

Lemma checked_counts size adj :
  checked_adjacency size adj ->
  length (edges_of adj) = length (concat adj) /\
  length (concat adj) < size /\
  NoDup (0 :: (edges_of adj).*2) /\
  forall p c, (p, c) ∈ edges_of adj -> p < size /\ c < size.
Proof.
  intros Hadj. split; [by rewrite <- edges_of_children, length_fmap|].
  split; [|split].
  - pose proof (nodes_below_length (tree_nodes adj) size (checked_nodup _ _ Hadj)
                  (checked_bound _ _ Hadj)) as Hlen.
    unfold tree_nodes in Hlen. cbn in Hlen. lia.
  - rewrite edges_of_children. apply (checked_nodup _ _ Hadj).
  - intros p c Hin. split.
    + rewrite <- (checked_length _ _ Hadj). by eapply edges_of_parent.
    + apply (checked_bound _ _ Hadj). right. rewrite <- edges_of_children.
      apply list_elem_of_fmap. by exists (p, c).
Qed.

(** X16: The tree class of img_sort.cpp keeps its members consistent under
    every sequence of [try_insert] calls, whatever their arguments:
    [num_edges()] is the number of stored edges and is below [size]; no
    node is a child twice and 0 is never a child; parents and children are
    below [size]; [m_parent[c]] is [p] exactly when [c] is listed among
    the children of [p]; and [contains(v)] is true exactly for 0 and the
    stored children. *)
Theorem heap_tree_members_stay_consistent (size : nat) (t : Heap.tree) :
  heap_built size t ->
  Heap.num_edges t = length (edges_of (Heap.m_adjacency_list t)) /\
  Heap.num_edges t < size /\
  NoDup (0 :: (edges_of (Heap.m_adjacency_list t)).*2) /\
  (forall p c, (p, c) ∈ edges_of (Heap.m_adjacency_list t) -> p < size /\ c < size) /\
  (forall c p, Heap.m_parent t !! c = Some (Some p)
               <-> (p, c) ∈ edges_of (Heap.m_adjacency_list t)) /\
  (forall v, v < size ->
     Heap.contains t v
     = Ok (bool_decide (v = 0 \/ v ∈ (edges_of (Heap.m_adjacency_list t)).*2))).
Proof.
  intros Hbuilt.
  destruct (heap_built_inv size t Hbuilt) as (Hsize & Hadj & Hedges & Hflags & Hparent).
  destruct (checked_counts size _ Hadj) as (Hlen & Hlt & Hnd & Hbound).
  split; [congruence|]. split; [lia|]. split; [exact Hnd|]. split; [exact Hbound|].
  split; [exact Hparent|].
  intros v Hv. rewrite (heap_contains_spec size t v Hflags Hv). f_equal.
  apply bool_decide_ext. unfold tree_nodes.
  by rewrite elem_of_cons, edges_of_children.
Qed.

Lemma heap_tree_members_stay_consistent_witness :
  Heap.num_edges heap_tree_0_2_1 = 2 /\
  Heap.contains heap_tree_0_2_1 1 = Ok true.
Proof.
  destruct (heap_tree_members_stay_consistent 3 heap_tree_0_2_1 heap_tree_0_2_1_built)
    as (Hedges & _ & _ & _ & _ & Hcontains).
  split; [exact Hedges | exact (Hcontains 1 ltac:(lia))].
Defined.

(** X17: [try_insert] followed by the observers, on the tree class of
    img_sort.cpp after any sequence of calls: a parent or a child outside
    [0 .. size-1] fails the corresponding assertion; otherwise the call
    returns whether the child was absent; a refused call leaves the tree
    as it was; an accepted one adds one edge, appends the child to the
    children of the parent and leaves the other children lists alone; in
    both cases the child is contained afterwards and every further
    insertion of it, under any parent, is refused. *)
Theorem heap_try_insert_then_observe (size : nat) (t : Heap.tree) (p c : nat) :
  heap_built size t ->
  (size <= p -> Heap.try_insert t p c = Err (AssertFailed A_parent_lt_size)) /\
  (p < size -> size <= c -> Heap.try_insert t p c = Err (AssertFailed A_child_lt_size)) /\
  (p < size -> c < size ->
   exists t' inserted,
     Heap.try_insert t p c = Ok (t', inserted) /\
     Heap.contains t c = Ok (negb inserted) /\
     Heap.contains t' c = Ok true /\
     (inserted = false -> t' = t) /\
     (inserted = true ->
      Heap.num_edges t' = S (Heap.num_edges t) /\
      exists cs, Heap.children t p = Ok cs /\
                 Heap.children t' p = Ok (cs ++ [c]) /\
                 forall q, q <> p -> Heap.children t' q = Heap.children t q) /\
     forall q, q < size -> Heap.try_insert t' q c = Ok (t', false)).
Proof.
  intros Hbuilt.
  destruct (heap_built_inv size t Hbuilt) as (Hsize & Hadj & Hedges & Hflags & Hparent).
  pose proof (checked_length _ _ Hadj) as Hlen. pose proof (proj1 Hflags) as Hlenp.
  split; [|split].
  - intros Hp. unfold Heap.try_insert.
    by rewrite Hlen, (proj2 (Nat.ltb_ge p size)) by lia.
  - intros Hp Hc. unfold Heap.try_insert.
    rewrite Hlen, Hlenp, (proj2 (Nat.ltb_lt p size)), (proj2 (Nat.ltb_ge c size)) by lia.
    reflexivity.
  - intros Hp Hc.
    assert (Hrefuse : forall t', heap_built size t' -> Heap.contains t' c = Ok true ->
              forall q, q < size -> Heap.try_insert t' q c = Ok (t', false)).
    { intros t' Hbuilt' Hcontains q Hq.
      destruct (heap_built_inv size t' Hbuilt') as (_ & Hadj' & _ & Hflags' & _).
      unfold Heap.try_insert.
      rewrite (checked_length _ _ Hadj'), (proj1 Hflags').
      rewrite (proj2 (Nat.ltb_lt q size)), (proj2 (Nat.ltb_lt c size)) by lia.
      cbn [runtime_assert bind]. by rewrite Hcontains. }
    pose proof (heap_contains_spec size t c Hflags Hc) as Hcontains.
    destruct (bool_decide (c ∈ tree_nodes (Heap.m_adjacency_list t))) eqn:Hin.
    + assert (Hrun : Heap.try_insert t p c = Ok (t, false)) by by apply Hrefuse.
      exists t, false. split; [exact Hrun|]. split; [exact Hcontains|].
      split; [exact Hcontains|]. split; [done|]. split; [discriminate|].
      by apply Hrefuse.
    + apply bool_decide_eq_false in Hin.
      destruct (checked_emplace size _ p c Hadj Hp Hc Hin)
        as (cs & Hcs & Hemplace & _).
      assert (Hrun : Heap.try_insert t p c
                = Ok ({| Heap.m_parent := <[c := Some p]> (Heap.m_parent t);
                         Heap.m_adjacency_list := <[p := cs ++ [c]]> (Heap.m_adjacency_list t);
                         Heap.m_num_edges := S (Heap.m_num_edges t) |}, true)).
      { unfold Heap.try_insert.
        rewrite Hlen, Hlenp, (proj2 (Nat.ltb_lt p size)), (proj2 (Nat.ltb_lt c size)) by lia.
        cbn [runtime_assert bind]. rewrite Hcontains. cbn [bind].
        by rewrite Hemplace. }
      pose proof (heap_built_insert size t p c _ true Hbuilt Hrun) as Hbuilt'.
      assert (Hcontains' : Heap.contains
                {| Heap.m_parent := <[c := Some p]> (Heap.m_parent t);
                   Heap.m_adjacency_list := <[p := cs ++ [c]]> (Heap.m_adjacency_list t);
                   Heap.m_num_edges := S (Heap.m_num_edges t) |} c = Ok true).
      { unfold Heap.contains. cbn [Heap.m_parent]. destruct (c =? 0); [reflexivity|].
        rewrite (vector_at_Some _ _ (Some p)); [reflexivity|].
        apply list_lookup_insert_eq. lia. }
      eexists _, true. split; [exact Hrun|]. split; [exact Hcontains|].
      split; [exact Hcontains'|]. split; [discriminate|]. split.
      * intros _. split; [reflexivity|]. exists cs.
        unfold Heap.children. cbn [Heap.m_adjacency_list].
        split; [by apply children_of_Some|]. split.
        -- apply children_of_Some. apply list_lookup_insert_eq. lia.
        -- intros q Hq. unfold children_of, vector_at.
           by rewrite length_insert, list_lookup_insert_ne by done.
      * by apply Hrefuse.
Qed.

Lemma heap_try_insert_then_observe_witness :
  exists t',
    Heap.try_insert heap_tree_0_2_1 1 2 = Ok (t', false) /\ t' = heap_tree_0_2_1.
Proof.
  destruct (heap_try_insert_then_observe 3 heap_tree_0_2_1 1 2 heap_tree_0_2_1_built)
    as (_ & _ & Hin).
  destruct (Hin ltac:(lia) ltac:(lia)) as (t' & inserted & Hrun & Hwas & _ & Hsame & _).
  assert (inserted = false) as ->.
  { change (Heap.contains heap_tree_0_2_1 2) with (@Ok bool true) in Hwas.
    destruct inserted; [discriminate | reflexivity]. }
  exists t'. split; [exact Hrun | by apply Hsame].
Defined.

(** X18: The tree class of the debug build of the later revision keeps its
    members consistent under every sequence of [try_insert] calls:
    [num_edges()] is the number of stored edges and is below [size]; no
    node is a child twice and 0 is never a child; parents and children are
    below [size]; [contains(v)] is true exactly for 0 and the stored
    children; and inserting a contained node again, under any parent, is
    refused and changes nothing. *)
Theorem scan_debug_tree_members_stay_consistent (size : nat) (t : Scan.tree) :
  scan_built false size t ->
  Scan.num_edges t = length (edges_of (Scan.m_adjacency_list t)) /\
  Scan.num_edges t < size /\
  NoDup (0 :: (edges_of (Scan.m_adjacency_list t)).*2) /\
  (forall p c, (p, c) ∈ edges_of (Scan.m_adjacency_list t) -> p < size /\ c < size) /\
  (forall v, v < size ->
     Scan.contains t v
     = Ok (bool_decide (v = 0 \/ v ∈ (edges_of (Scan.m_adjacency_list t)).*2))) /\
  (forall p c, p < size -> c < size -> Scan.contains t c = Ok true ->
     Scan.try_insert false t p c = Ok (t, false)).
Proof.
  intros Hbuilt.
  destruct (scan_built_inv size t Hbuilt) as (Hsize & Hadj & Hedges & Hflags).
  destruct (checked_counts size _ Hadj) as (Hlen & Hlt & Hnd & Hbound).
  destruct (Hflags eq_refl) as [Hlenp Hflag].
  split; [congruence|]. split; [lia|]. split; [exact Hnd|]. split; [exact Hbound|].
  split.
  - intros v Hv. unfold Scan.contains. rewrite edges_of_children.
    destruct (v =? 0) eqn:H0.
    + apply Nat.eqb_eq in H0. rewrite bool_decide_eq_true_2; [reflexivity | by left].
    + apply Nat.eqb_neq in H0. rewrite (vector_at_Some _ _ _ (Hflag v Hv)).
      f_equal. apply bool_decide_ext. split; [by right | intros [?|?]; done].
  - intros p c Hp Hc Hcontains. unfold Scan.try_insert.
    rewrite (checked_length _ _ Hadj), Hlenp.
    rewrite (proj2 (Nat.ltb_lt p size)), (proj2 (Nat.ltb_lt c size)) by lia.
    cbn [runtime_assert bind]. by rewrite Hcontains.
Qed.

Lemma scan_debug_tree_members_stay_consistent_witness :
  Scan.num_edges scan_tree_0_2_1 = 2 /\
  Scan.try_insert false scan_tree_0_2_1 1 2 = Ok (scan_tree_0_2_1, false).
Proof.
  destruct (scan_debug_tree_members_stay_consistent 3 scan_tree_0_2_1 scan_tree_0_2_1_built)
    as (Hedges & _ & _ & _ & _ & Hrefuse).
  split; [exact Hedges|]. apply Hrefuse; [lia | lia | reflexivity].
Defined.

(** X19: [pre_order] is safe on every tree object that was built through the
    interface with the child check in place (the class of img_sort.cpp,
    and the debug build of the later revision): with fuel [size] or more
    it returns, and its result does not depend on the fuel; the result is
    either the failure of its final assertion or an order that starts with
    0 and lists 0 and every stored child once.  It reads no children list
    out of range and does not loop. *)
Theorem pre_order_returns_on_checked_trees (size : nat) :
  (forall t, heap_built size t ->
     exists r,
       (forall fuel, size <= fuel -> Heap.pre_order fuel t = r) /\
       (r = Err (AssertFailed A_order_size) \/
        exists order, r = Ok order /\
          order ≡ₚ tree_nodes (Heap.m_adjacency_list t) /\ head order = Some 0)) /\
  (forall t, scan_built false size t ->
     exists r,
       (forall fuel, size <= fuel -> Scan.pre_order fuel t = r) /\
       (r = Err (AssertFailed A_order_size) \/
        exists order, r = Ok order /\
          order ≡ₚ tree_nodes (Scan.m_adjacency_list t) /\ head order = Some 0)).
Proof.
  split; intros t Hbuilt.
  - destruct (heap_built_inv size t Hbuilt) as (Hsize & Hadj & Hedges & _).
    exact (pre_order_on_checked size _ _ Hsize Hadj Hedges).
  - destruct (scan_built_inv size t Hbuilt) as (Hsize & Hadj & Hedges & _).
    exact (pre_order_on_checked size _ _ Hsize Hadj Hedges).
Qed.

Lemma pre_order_returns_on_checked_trees_witness :
  exists r,
    (forall fuel, 3 <= fuel -> Heap.pre_order fuel heap_tree_0_2_1 = r) /\
    (r = Err (AssertFailed A_order_size) \/
     exists order, r = Ok order /\
       order ≡ₚ tree_nodes (Heap.m_adjacency_list heap_tree_0_2_1) /\
       head order = Some 0).
Proof.
  exact (proj1 (pre_order_returns_on_checked_trees 3) heap_tree_0_2_1
           heap_tree_0_2_1_built).
Defined.

Lemma scan_release_built_length size t :
  scan_built true size t -> length (Scan.m_adjacency_list t) = size.
Proof.
  induction 1 as [t Hnew|t parent child t' inserted Hbuilt IH Hins].
  - unfold Scan.new_tree in Hnew.
    destruct (0 <? size); cbn [runtime_assert bind] in Hnew; [|discriminate].
    injection Hnew as <-. apply length_replicate.
  - unfold Scan.try_insert in Hins.
    apply bind_Ok_inv in Hins as ([] & _ & Hins).
    apply bind_Ok_inv in Hins as (adj & Hadj & [= <- _]).
    unfold emplace_child in Hadj. apply bind_Ok_inv in Hadj as (cs & _ & [= <-]).
    cbn [Scan.m_adjacency_list]. by rewrite length_insert.
Qed.

Lemma scan_release_insert size t p c :
  scan_built true size t -> p < size ->
  exists cs,
    Scan.m_adjacency_list t !! p = Some cs /\
    Scan.try_insert true t p c
    = Ok ({| Scan.m_parent := Scan.m_parent t;
             Scan.m_adjacency_list := <[p := cs ++ [c]]> (Scan.m_adjacency_list t);
             Scan.m_num_edges := S (Scan.m_num_edges t) |}, true).
Proof.
  intros Hbuilt Hp. pose proof (scan_release_built_length size t Hbuilt) as Hlen.
  destruct (lookup_lt_is_Some_2 (Scan.m_adjacency_list t) p) as [cs Hcs]; [lia|].
  exists cs. split; [exact Hcs|]. unfold Scan.try_insert.
  rewrite Hlen, (proj2 (Nat.ltb_lt p size)) by lia. cbn [runtime_assert bind].
  by rewrite (emplace_child_Ok _ _ _ _ Hcs).
Qed.

(** X20: The NDEBUG build of the later revision checks nothing about the child
    of [try_insert]: on every tree object and for every parent below
    [size] the call returns true and counts one more edge, whatever the
    child.  So, for every [size >= 2], a caller can build a tree on which
    [pre_order] never returns (after [try_insert(0, 1)] and
    [try_insert(1, 0)]), and one on which it fails the range assertion of
    [children] (after [try_insert(0, size)]); neither can happen with the
    child check in place. *)
Theorem ndebug_tree_accepts_any_child (size : nat) :
  2 <= size ->
  (forall t p c, scan_built true size t -> p < size ->
     exists t', Scan.try_insert true t p c = Ok (t', true) /\
                Scan.num_edges t' = S (Scan.num_edges t)) /\
  (exists t, scan_built true size t /\
     forall fuel, Scan.pre_order fuel t = Err OutOfFuel) /\
  (exists t, scan_built true size t /\
     forall fuel, 2 <= fuel -> Scan.pre_order fuel t = Err (AssertFailed A_node_lt_size)).
Proof.
  intros Hsize.
  assert (Hnew : scan_built true size
                   {| Scan.m_parent := []; Scan.m_adjacency_list := replicate size [];
                      Scan.m_num_edges := 0 |}).
  { apply scan_built_new. unfold Scan.new_tree.
    by rewrite (proj2 (Nat.ltb_lt 0 size)) by lia. }
  split; [|split].
  - intros t p c Hbuilt Hp.
    destruct (scan_release_insert size t p c Hbuilt Hp) as (cs & _ & ->).
    eexists. split; reflexivity.
  - destruct (scan_release_insert size _ 0 1 Hnew ltac:(lia)) as (cs0 & Hcs0 & Hrun0).
    pose proof (scan_built_insert true size _ 0 1 _ true Hnew Hrun0) as Hbuilt1.
    destruct (scan_release_insert size _ 1 0 Hbuilt1 ltac:(lia)) as (cs1 & Hcs1 & Hrun1).
    pose proof (scan_built_insert true size _ 1 0 _ true Hbuilt1 Hrun1) as Hbuilt2.
    cbn [Scan.m_adjacency_list Scan.m_parent Scan.m_num_edges] in *.
    rewrite lookup_replicate_2 in Hcs0 by lia. injection Hcs0 as <-.
    rewrite list_lookup_insert_ne, lookup_replicate_2 in Hcs1 by lia.
    injection Hcs1 as <-. cbn [app] in *.
    eexists. split; [exact Hbuilt2|].
    set (adj := <[1:=[0]]> (<[0:=[1]]> (replicate size []))).
    assert (H0 : children_of adj 0 = Ok [1]).
    { apply children_of_Some. subst adj.
      rewrite list_lookup_insert_ne by lia.
      apply list_lookup_insert_eq. rewrite length_replicate. lia. }
    assert (H1 : children_of adj 1 = Ok [0]).
    { apply children_of_Some. subst adj.
      apply list_lookup_insert_eq. rewrite length_insert, length_replicate. lia. }
    assert (Hloop : forall fuel order,
              pre_order_loop fuel (children_of adj) [0] order = Err OutOfFuel /\
              pre_order_loop fuel (children_of adj) [1] order = Err OutOfFuel).
    { induction fuel as [|fuel IH]; intros order; [by split|].
      split; cbn [pre_order_loop]; [rewrite H0 | rewrite H1]; cbn [bind];
        apply (IH (order ++ _)). }
    intros fuel. unfold Scan.pre_order, Scan.children, pre_order_on, push.
    cbn [Scan.m_adjacency_list]. fold adj.
    by rewrite (proj1 (Hloop fuel [])).
  - destruct (scan_release_insert size _ 0 size Hnew ltac:(lia)) as (cs0 & Hcs0 & Hrun0).
    pose proof (scan_built_insert true size _ 0 size _ true Hnew Hrun0) as Hbuilt1.
    cbn [Scan.m_adjacency_list Scan.m_parent Scan.m_num_edges] in *.
    rewrite lookup_replicate_2 in Hcs0 by lia. injection Hcs0 as <-. cbn [app] in *.
    eexists. split; [exact Hbuilt1|].
    intros fuel Hfuel. destruct fuel as [|[|fuel]]; [lia | lia |].
    unfold Scan.pre_order, Scan.children, pre_order_on, push.
    cbn [Scan.m_adjacency_list pre_order_loop].
    rewrite (children_of_Some _ 0 [size]);
      [|apply list_lookup_insert_eq; rewrite length_replicate; lia].
    cbn [bind rev app fold_left push]. unfold push at 1. unfold children_of at 1.
    rewrite length_insert, length_replicate, Nat.ltb_irrefl. reflexivity.
Qed.

Lemma ndebug_tree_accepts_any_child_witness :
  exists t, scan_built true 2 t /\ forall fuel, Scan.pre_order fuel t = Err OutOfFuel.
Proof.
  exact (proj1 (proj2 (ndebug_tree_accepts_any_child 2 ltac:(lia)))).
Defined.

(** ** Exchanging an edge of a spanning tree *)

Lemma joined_sym edges a b : joined edges a b -> joined edges b a.
Proof. unfold joined. tauto. Qed.

Lemma connected_once edges a b : joined edges a b -> connected edges a b.
Proof. intros H. eapply connected_step; [apply connected_refl | exact H]. Qed.

Lemma connected_trans edges a b c :
  connected edges a b -> connected edges b c -> connected edges a c.
Proof.
  intros Hab Hbc. induction Hbc as [|b c d Hbc IH Hcd]; [exact Hab|].
  eapply connected_step; [by apply IH | exact Hcd].
Qed.

Lemma connected_sym edges a b : connected edges a b -> connected edges b a.
Proof.
  induction 1 as [|a b c Hab IH Hbc]; [apply connected_refl|].
  eapply connected_trans; [|exact IH]. by apply connected_once, joined_sym.
Qed.

Lemma connected_mono edges edges' a b :
  (forall e, e ∈ edges -> e ∈ edges') -> connected edges a b -> connected edges' a b.
Proof.
  intros Hsub. induction 1 as [|a b c Hab IH Hbc]; [apply connected_refl|].
  eapply connected_step; [exact IH|]. destruct Hbc as [H|H]; [left | right]; by apply Hsub.
Qed.

Lemma connected_crossing nodes edges a b :
  connected edges a b -> a ∈ nodes -> b ∉ nodes ->
  exists f, f ∈ edges /\ crosses nodes f.
Proof.
  induction 1 as [|a b c Hab IH Hbc]; intros Ha Hc; [done|].
  destruct (decide (b ∈ nodes)) as [Hb|Hb]; [|by apply IH].
  destruct Hbc as [H|H].
  - exists (b, c). split; [exact H | by left].
  - exists (c, b). split; [exact H | by right].
Qed.

Lemma connected_without edges f rest a b :
  edges ≡ₚ f :: rest -> connected edges a b ->
  connected rest a b \/
  (connected rest a f.1 /\ connected rest f.2 b) \/
  (connected rest a f.2 /\ connected rest f.1 b).
Proof.
  intros Hperm. induction 1 as [|a b c Hab IH Hbc]; [left; apply connected_refl|].
  assert (Hcase : joined rest b c \/ (b = f.1 /\ c = f.2) \/ (b = f.2 /\ c = f.1)).
  { destruct f as [x y]. cbn [fst snd].
    destruct Hbc as [H|H]; rewrite Hperm in H;
      apply elem_of_cons in H as [[= -> ->]|H]; unfold joined; tauto. }
  destruct Hcase as [Hstep|[[-> ->]|[-> ->]]].
  - destruct IH as [IH|[[IH1 IH2]|[IH1 IH2]]].
    + left. by eapply connected_step.
    + right; left. split; [exact IH1 | by eapply connected_step].
    + right; right. split; [exact IH1 | by eapply connected_step].
  - destruct IH as [IH|[[IH1 IH2]|[IH1 IH2]]].
    + right; left. split; [exact IH | apply connected_refl].
    + right; left. split; [exact IH1 | apply connected_refl].
    + left. exact IH1.
  - destruct IH as [IH|[[IH1 IH2]|[IH1 IH2]]].
    + right; right. split; [exact IH | apply connected_refl].
    + left. exact IH1.
    + right; right. split; [exact IH1 | apply connected_refl].
Qed.

Lemma connected_reroute edges f rest edges' a b :
  edges ≡ₚ f :: rest -> (forall e, e ∈ rest -> e ∈ edges') ->
  connected edges' f.1 f.2 ->
  connected edges a b -> connected edges' a b.
Proof.
  intros Hperm Hsub Hf. induction 1 as [|a b c Hab IH Hbc]; [apply connected_refl|].
  eapply connected_trans; [exact IH|].
  assert (Hcase : joined rest b c \/ (b = f.1 /\ c = f.2) \/ (b = f.2 /\ c = f.1)).
  { destruct f as [x y]. cbn [fst snd].
    destruct Hbc as [H|H]; rewrite Hperm in H;
      apply elem_of_cons in H as [[= -> ->]|H]; unfold joined; tauto. }
  destruct Hcase as [Hstep|[[-> ->]|[-> ->]]].
  - apply connected_once. destruct Hstep as [H|H]; [left | right]; by apply Hsub.
  - exact Hf.
  - by apply connected_sym.
Qed.

Lemma swap_exists nodes u v m :
  forall edges,
    length edges = m -> connected edges u v -> u ∈ nodes -> v ∉ nodes ->
    exists f rest,
      edges ≡ₚ f :: rest /\ crosses nodes f /\ connected ((u, v) :: rest) f.1 f.2.
Proof.
  induction m as [|m IH]; intros edges Hlen Huv Hu Hv;
    destruct (connected_crossing nodes edges u v Huv Hu Hv) as (f & Hf & Hcross).
  { destruct edges; [inversion Hf | discriminate]. }
  apply elem_of_Permutation in Hf as [rest Hperm].
  assert (Hedge : connected ((u, v) :: rest) u v) by (apply connected_once; left; by left).
  assert (Hmono : forall a b, connected rest a b -> connected ((u, v) :: rest) a b).
  { intros a b. apply connected_mono. intros e He. by right. }
  destruct (connected_without edges f rest u v Hperm Huv) as [Hrest|[[H1 H2]|[H1 H2]]].
  - destruct (IH rest) as (f2 & rest2 & Hperm2 & Hcross2 & Hconn2); try done.
    { apply Permutation_length in Hperm. cbn in Hperm. lia. }
    exists f2, (f :: rest2). split; [|split; [exact Hcross2|]].
    + rewrite Hperm, Hperm2. apply perm_swap.
    + eapply connected_mono; [|exact Hconn2].
      intros e He. apply elem_of_cons in He as [->|He]; [by left|]. right. by right.
  - exists f, rest. split; [exact Hperm|]. split; [exact Hcross|].
    eapply connected_trans; [apply connected_sym, Hmono, H1|].
    eapply connected_trans; [exact Hedge|]. apply connected_sym, Hmono, H2.
  - exists f, rest. split; [exact Hperm|]. split; [exact Hcross|].
    eapply connected_trans; [apply Hmono, H2|].
    eapply connected_trans; [apply connected_sym, Hedge|]. apply Hmono, H1.
Qed.

Lemma exchange nodes n edges u v :
  is_spanning_tree n edges -> u ∈ nodes -> v ∉ nodes -> u < n -> v < n ->
  exists f rest,
    edges ≡ₚ f :: rest /\ crosses nodes f /\ is_spanning_tree n ((u, v) :: rest).
Proof.
  intros (Hlen & Hvalid & Hconn) Hu Hv Hun Hvn.
  destruct (swap_exists nodes u v (length edges) edges eq_refl) as (f & rest & Hperm & Hcross & Hf);
    try done.
  { eapply connected_trans; [apply connected_sym, Hconn, Hun | by apply Hconn]. }
  exists f, rest. split; [exact Hperm|]. split; [exact Hcross|].
  split; [|split].
  - apply Permutation_length in Hperm. cbn in Hperm |- *. lia.
  - intros p c Hin. apply elem_of_cons in Hin as [[= -> ->]|Hin].
    + split; [exact Hun|]. split; [exact Hvn|]. intros ->. done.
    + apply Hvalid. rewrite Hperm. by right.
  - intros x Hx. eapply (connected_reroute edges f rest); [exact Hperm | | exact Hf | by apply Hconn].
    intros e He. by right.
Qed.

Lemma star_spanning n : 1 <= n -> is_spanning_tree n (star n).
Proof.
  intros Hn. unfold star. split; [|split].
  - by rewrite length_fmap, length_seq.
  - intros p c Hin. apply list_elem_of_fmap in Hin as (x & [= -> ->] & Hx).
    apply elem_of_seq in Hx. lia.
  - intros v Hv. destruct (decide (v = 0)) as [->|Hne]; [apply connected_refl|].
    apply connected_once. left. apply list_elem_of_fmap. exists v.
    split; [reflexivity | apply elem_of_seq; lia].
Qed.

Lemma spanning_perm n edges edges' :
  edges ≡ₚ edges' -> is_spanning_tree n edges -> is_spanning_tree n edges'.
Proof.
  intros Hperm (Hlen & Hvalid & Hconn). split; [|split].
  - by rewrite <- Hperm.
  - intros p c Hin. apply Hvalid. by rewrite Hperm.
  - intros v Hv. eapply connected_mono; [|by apply Hconn].
    intros e He. by rewrite <- Hperm.
Qed.

(** *** Costs *)

Lemma edges_cost_perm weights edges edges' :
  edges ≡ₚ edges' -> edges_cost weights edges = edges_cost weights edges'.
Proof.
  unfold edges_cost.
  induction 1 as [|e l l' _ IH|e e' l|l l' l'' _ IH1 _ IH2]; cbn [foldr];
    [reflexivity | by rewrite IH | lia | congruence].
Qed.

Lemma edge_cost_sym weights a b : edge_cost weights (a, b) = edge_cost weights (b, a).
Proof. unfold edge_cost. cbn [fst snd]. by rewrite get_sym. Qed.

Lemma total_cost_edges_cost n weights edges :
  table_wf n weights ->
  (forall p c, (p, c) ∈ edges -> p < n /\ c < n /\ p <> c) ->
  total_cost weights edges = Ok (edges_cost weights edges).
Proof.
  intros Hwf. induction edges as [|[p c] edges IH]; intros Hvalid; [reflexivity|].
  destruct (Hvalid p c ltac:(by left)) as (Hp & Hc & Hpc).
  destruct (get_valid n weights p c Hwf Hp Hc Hpc) as (w & _ & Hget).
  cbn [total_cost]. unfold edges_cost. cbn [foldr]. fold (edges_cost weights edges).
  unfold edge_cost at 1. cbn [fst snd].
  rewrite Hget. cbn [bind]. rewrite IH; [reflexivity|].
  intros p' c' Hin. apply Hvalid. by right.
Qed.

(** ** The heap-based builder returns a minimum spanning tree *)

Lemma edges_from_insert_snoc (adj : list (list nat)) :
  forall k p cs c,
    adj !! p = Some cs ->
    concat (imap (fun parent cs => map (fun child => (k + parent, child)) cs)
                 (<[p := cs ++ [c]]> adj))
    ≡ₚ (k + p, c)
       :: concat (imap (fun parent cs => map (fun child => (k + parent, child)) cs) adj).
Proof.
  induction adj as [|a adj IH]; intros k p cs c Hp; [by rewrite lookup_nil in Hp|].
  destruct p as [|p]; cbn in Hp.
  - injection Hp as ->. cbn [insert list_insert imap concat].
    rewrite map_app. cbn [map]. rewrite <- app_assoc. cbn [app].
    by rewrite <- Permutation_middle.
  - cbn [insert list_insert imap concat].
    rewrite !(imap_ext (_ ∘ S) (fun parent cs => map (fun child => (S k + parent, child)) cs))
      by (intros i x _; cbn; apply map_ext; intros ch; f_equal; lia).
    change (list_insert p (cs ++ [c]) adj) with (<[p := cs ++ [c]]> adj).
    rewrite (IH (S k) p cs c Hp), <- Permutation_middle.
    by replace (S k + p) with (k + S p) by lia.
Qed.

Lemma edges_of_insert_snoc (adj : list (list nat)) p cs c :
  adj !! p = Some cs -> edges_of (<[p := cs ++ [c]]> adj) ≡ₚ (p, c) :: edges_of adj.
Proof.
  intros Hp. unfold edges_of.
  rewrite !(imap_ext _ (fun parent cs => map (fun child => (0 + parent, child)) cs))
    by reflexivity.
  exact (edges_from_insert_snoc adj 0 p cs c Hp).
Qed.

Lemma heap_try_insert_inv (t t' : Heap.tree) p c :
  Heap.try_insert t p c = Ok (t', true) ->
  exists cs,
    Heap.m_adjacency_list t !! p = Some cs /\
    Heap.m_adjacency_list t' = <[p := cs ++ [c]]> (Heap.m_adjacency_list t).
Proof.
  unfold Heap.try_insert. intros H.
  apply bind_Ok_inv in H as ([] & _ & H). apply bind_Ok_inv in H as ([] & _ & H).
  apply bind_Ok_inv in H as (b & _ & H). destruct b; [discriminate|].
  apply bind_Ok_inv in H as (adj & Hadj & [= <-]).
  unfold emplace_child in Hadj. apply bind_Ok_inv in Hadj as (cs & Hcs & [= <-]).
  exists cs. split; [by apply vector_at_Ok | reflexivity].
Qed.

Lemma heap_try_insert_refused (t t' : Heap.tree) p c :
  Heap.try_insert t p c = Ok (t', false) -> t' = t.
Proof.
  unfold Heap.try_insert. intros H.
  apply bind_Ok_inv in H as ([] & _ & H). apply bind_Ok_inv in H as ([] & _ & H).
  apply bind_Ok_inv in H as (b & _ & H). destruct b; [congruence|].
  apply bind_Ok_inv in H as (adj & _ & [=]).
Qed.

Lemma shape_edges_inside n adj p c :
  tree_shape n adj -> (p, c) ∈ edges_of adj -> p ∈ tree_nodes adj /\ c ∈ tree_nodes adj.
Proof.
  intros Hshape Hin. pose proof (edges_of_parent _ _ _ Hin) as Hp.
  apply edges_of_elem in Hin as (cs & Hcs & Hc). split.
  - destruct (decide (p ∈ tree_nodes adj)) as [|Hout]; [done|].
    rewrite (shape_length _ _ Hshape) in Hp.
    rewrite (shape_leaf _ _ Hshape p Hp Hout) in Hcs. injection Hcs as <-.
    inversion Hc.
  - right. by eapply children_in_concat.
Qed.

Lemma row_entries n weights y cells :
  table_wf n weights -> y < n -> row weights y = Ok cells ->
  (forall x y' w, ((x, y'), w) ∈ cells ->
     y' = y /\ x < n /\ x <> y /\ get weights x y = Ok w) /\
  (forall x, x < n -> x <> y -> exists w, ((x, y), w) ∈ cells).
Proof.
  intros Hwf Hy Hrow.
  destruct (row_spec n weights y Hwf Hy) as (cells' & Hrow' & _ & Hx & Hsnd & Hall).
  assert (cells' = cells) as -> by congruence.
  split; [|exact Hall].
  intros x y' w Hin. pose proof (Hsnd _ _ Hin) as Hy'. cbn in Hy'. subst y'.
  split; [reflexivity|]. destruct (Hx x w Hin) as [Hxn Hxy].
  split; [exact Hxn|]. split; [exact Hxy|].
  unfold row in Hrow. apply bind_Ok_inv in Hrow as ([] & _ & Hrow).
  by eapply row_cells_values.
Qed.

Lemma push_unreached_entries n (t : Heap.tree) cells :
  heap_flags n (Heap.m_adjacency_list t) (Heap.m_parent t) ->
  (forall c w, (c, w) ∈ cells -> c.1 < n) ->
  forall heap heap',
    Heap.push_unreached t cells heap = Ok heap' ->
    forall e, e ∈ heap' <->
      e ∈ heap \/
      exists dst src w,
        ((dst, src), w) ∈ cells /\ (dst ∉ tree_nodes (Heap.m_adjacency_list t)) /\
        e = {| Heap.source := src; Heap.destination := dst; Heap.weight := w |}.
Proof.
  intros Hflags. induction cells as [|[[dst src] w] cells IH]; intros Hcells heap heap' Hrun e.
  - injection Hrun as <-. split; [by left|].
    intros [He|(? & ? & ? & Hin & _)]; [exact He | inversion Hin].
  - cbn [Heap.push_unreached] in Hrun.
    rewrite (heap_contains_spec n t dst Hflags (Hcells (dst, src) w ltac:(by left))) in Hrun.
    cbn [bind] in Hrun.
    rewrite (IH ltac:(intros c w' Hin; apply (Hcells c w'); by right) _ _ Hrun e).
    destruct (decide (dst ∈ tree_nodes (Heap.m_adjacency_list t))) as [Hold|Hnew].
    + rewrite bool_decide_eq_true_2 by exact Hold. cbn [negb]. split.
      * intros [He|(d & s & w' & Hin & Hd & ->)]; [by left|].
        right. exists d, s, w'. split; [by right | by split].
      * intros [He|(d & s & w' & Hin & Hd & ->)]; [by left|].
        apply elem_of_cons in Hin as [[= -> -> ->]|Hin]; [done|].
        right. by exists d, s, w'.
    + rewrite bool_decide_eq_false_2 by exact Hnew. cbn [negb]. unfold Heap.emplace.
      rewrite elem_of_app, list_elem_of_singleton. split.
      * intros [[He| ->]|(d & s & w' & Hin & Hd & ->)]; [by left | |].
        -- right. exists dst, src, w. split; [by left | by split].
        -- right. exists d, s, w'. split; [by right | by split].
      * intros [He|(d & s & w' & Hin & Hd & ->)]; [by left; left|].
        apply elem_of_cons in Hin as [[= -> -> ->]|Hin]; [left; by right|].
        right. by exists d, s, w'.
Qed.

Lemma push_all_entries cells :
  forall heap e,
    e ∈ Heap.push_all cells heap <->
    e ∈ heap \/
    exists dst src w,
      ((dst, src), w) ∈ cells /\
      e = {| Heap.source := src; Heap.destination := dst; Heap.weight := w |}.
Proof.
  unfold Heap.push_all. induction cells as [|[[dst src] w] cells IH]; intros heap e.
  - cbn. split; [by left|]. intros [He|(? & ? & ? & Hin & _)]; [exact He | inversion Hin].
  - cbn [fold_left]. rewrite IH. unfold Heap.emplace.
    rewrite elem_of_app, list_elem_of_singleton. split.
    + intros [[He| ->]|(d & s & w' & Hin & ->)]; [by left | |].
      * right. exists dst, src, w. split; [by left | reflexivity].
      * right. exists d, s, w'. split; [by right | reflexivity].
    + intros [He|(d & s & w' & Hin & ->)]; [by left; left|].
      apply elem_of_cons in Hin as [[= -> -> ->]|Hin]; [left; by right|].
      right. by exists d, s, w'.
Qed.

Lemma tops_lightest heap curr rest :
  (curr, rest) ∈ Heap.tops heap ->
  forall e, e ∈ heap -> (Heap.weight curr <= Heap.weight e)%Z.
Proof.
  unfold Heap.tops. intros Hin e He.
  apply list_elem_of_In, filter_In in Hin as [_ Htop].
  unfold Heap.is_top in Htop. rewrite forallb_forall in Htop.
  specialize (Htop e ltac:(by apply list_elem_of_In)).
  unfold Heap.entry_lt in Htop. apply negb_true_iff, Z.ltb_ge in Htop. exact Htop.
Qed.

Section PrimLoop.

Variables (n : nat) (weights : triangular_table) (reference : list (nat * nat)).
Hypothesis weights_wf : table_wf n weights.
Hypothesis n_pos : 0 < n.

Lemma prim_inv_perm t heap heap' :
  heap ≡ₚ heap' -> prim_inv n weights reference t heap ->
  prim_inv n weights reference t heap'.
Proof.
  intros Hperm [Hheap Hweights Hcross Hext]. split.
  - by apply (heap_inv_perm n t heap heap').
  - intros e He. apply Hweights. by rewrite Hperm.
  - intros a b Ha Hb Hout. destruct (Hcross a b Ha Hb Hout) as (e & He & Hsd).
    exists e. split; [by rewrite <- Hperm | exact Hsd].
  - exact Hext.
Qed.

Lemma prim_visit_old t heap curr :
  prim_inv n weights reference t (curr :: heap) ->
  Heap.destination curr ∈ tree_nodes (Heap.m_adjacency_list t) ->
  Heap.visit weights t curr heap = Ok (t, heap) /\
  prim_inv n weights reference t heap.
Proof.
  intros [Hheap Hweights Hcross Hext] Hold.
  destruct (heap_visit_old n weights t heap curr Hheap Hold) as [Hvisit Hheap'].
  split; [exact Hvisit|]. split.
  - exact Hheap'.
  - intros e He. apply Hweights. by right.
  - intros a b Ha Hb Hout. destruct (Hcross a b Ha Hb Hout) as (e & He & Hs & Hd).
    exists e. split; [|by split].
    apply elem_of_cons in He as [->|He]; [|exact He]. by rewrite Hd in Hold.
  - exact Hext.
Qed.

Lemma prim_visit_fresh t heap curr :
  prim_inv n weights reference t (curr :: heap) ->
  (forall e, e ∈ curr :: heap -> (Heap.weight curr <= Heap.weight e)%Z) ->
  Heap.destination curr ∉ tree_nodes (Heap.m_adjacency_list t) ->
  exists t' heap',
    Heap.visit weights t curr heap = Ok (t', heap') /\
    prim_inv n weights reference t' heap' /\
    Heap.num_edges t' = S (Heap.num_edges t) /\
    length heap' <= length heap + n.
Proof.
  intros [Hheap Hweights Hcross Hext] Htop Hfresh.
  destruct (heap_visit_fresh n weights weights_wf n_pos t heap curr Hheap Hfresh)
    as (t' & heap' & Hvisit & Hheap' & Hedges' & Hlen').
  exists t', heap'. split; [exact Hvisit|]. split; [|by split].
  destruct (hinv_entries _ _ _ Hheap curr ltac:(by left)) as [Hsrc Hdst].
  pose proof (hinv_shape _ _ _ Hheap) as Hshape.
  (* what the call did *)
  unfold Heap.visit in Hvisit.
  apply bind_Ok_inv in Hvisit as ([t1 inserted] & Hins & Hvisit).
  destruct inserted.
  2:{ injection Hvisit as <- <-. apply heap_try_insert_refused in Hins. subst t1. lia. }
  apply bind_Ok_inv in Hvisit as (cells & Hrow & Hvisit).
  apply bind_Ok_inv in Hvisit as (heap1 & Hpush & [= <- <-]).
  destruct (heap_try_insert_inv _ _ _ _ Hins) as (cs & Hcs & Hadj').
  assert (Hedges : edges_of (Heap.m_adjacency_list t1)
                   ≡ₚ (Heap.source curr, Heap.destination curr)
                      :: edges_of (Heap.m_adjacency_list t)).
  { rewrite Hadj'. by apply edges_of_insert_snoc. }
  assert (Hnodes : tree_nodes (Heap.m_adjacency_list t1)
                   ≡ₚ Heap.destination curr :: tree_nodes (Heap.m_adjacency_list t)).
  { unfold tree_nodes. rewrite Hadj', (concat_insert_snoc _ _ _ _ Hcs). apply perm_swap. }
  destruct (row_entries n weights _ cells weights_wf Hdst Hrow) as [Hcells Hall].
  pose proof (push_unreached_entries n t1 cells (hinv_flags _ _ _ Hheap')
                ltac:(intros [x y] w Hin; by apply (Hcells x y w)) heap heap1 Hpush)
    as Hentries.
  split.
  - exact Hheap'.
  - intros e He. apply Hentries in He as [He|(dst & src & w & Hin & _ & ->)].
    + apply Hweights. by right.
    + destruct (Hcells dst src w Hin) as (-> & _ & _ & Hget).
      cbn [Heap.weight Heap.source Heap.destination].
      unfold edge_cost. cbn [fst snd]. by rewrite get_sym, Hget.
  - intros a b Ha Hb Hout. rewrite Hnodes in Ha, Hout.
    apply not_elem_of_cons in Hout as [Hbv Hout].
    apply elem_of_cons in Ha as [->|Ha].
    + destruct (Hall b Hb Hbv) as (w & Hw).
      exists {| Heap.source := Heap.destination curr; Heap.destination := b;
                Heap.weight := w |}.
      split; [|by split]. apply Hentries. right.
      exists b, (Heap.destination curr), w. split; [exact Hw|]. split; [|reflexivity].
      rewrite Hnodes. intros Hin. apply elem_of_cons in Hin as [?|?]; done.
    + destruct (Hcross a b Ha Hb Hout) as (e & He & Hs & Hd).
      exists e. split; [|by split]. apply Hentries. left.
      apply elem_of_cons in He as [->|He]; [done | exact He].
  - destruct Hext as (extension & Hspan & Hsub & Hcost).
    destruct (exchange (tree_nodes (Heap.m_adjacency_list t)) n extension
                (Heap.source curr) (Heap.destination curr) Hspan Hsrc Hfresh
                (shape_bound _ _ Hshape _ Hsrc) Hdst)
      as (f & rest & Hperm & Hf & Hspan').
    exists ((Heap.source curr, Heap.destination curr) :: rest).
    split; [exact Hspan'|]. split.
    + rewrite Hedges. apply submseteq_skip.
      rewrite Hperm in Hsub. apply submseteq_cons_r in Hsub as [Hsub|(l' & Hl' & _)];
        [exact Hsub|].
      exfalso. assert (Hin : f ∈ edges_of (Heap.m_adjacency_list t))
        by (rewrite Hl'; by left).
      destruct f as [a b].
      destruct (shape_edges_inside n _ a b Hshape Hin) as [Ha Hb].
      destruct Hf as [[_ Hout]|[_ Hout]]; by apply Hout.
    + etrans; [|exact Hcost]. rewrite (edges_cost_perm _ _ _ Hperm).
      unfold edges_cost. cbn [foldr]. apply Z.add_le_mono_r.
      rewrite <- (Hweights curr ltac:(by left)).
      destruct f as [a b].
      destruct (proj1 (proj2 Hspan) a b ltac:(rewrite Hperm; by left)) as (Han & Hbn & _).
      destruct Hf as [[Hin Hout]|[Hin Hout]]; cbn [fst snd] in Hin, Hout.
      * destruct (Hcross a b Hin Hbn Hout) as (e & He & Hs & Hd).
        rewrite <- Hs, <- Hd, <- (Hweights e He). by apply Htop.
      * destruct (Hcross b a Hin Han Hout) as (e & He & Hs & Hd).
        rewrite edge_cost_sym, <- Hs, <- Hd, <- (Hweights e He). by apply Htop.
Qed.

Lemma prim_done t heap :
  prim_inv n weights reference t heap -> n <= Heap.num_edges t + 1 ->
  no_dearer_than n weights reference (Ok t).
Proof.
  intros [Hheap _ _ (extension & Hspan & Hsub & Hcost)] Hdone.
  assert (Hperm : edges_of (Heap.m_adjacency_list t) ≡ₚ extension).
  { apply submseteq_length_Permutation; [exact Hsub|].
    rewrite (proj1 Hspan), <- (length_fmap snd), edges_of_children,
      <- (hinv_edges _ _ _ Hheap). lia. }
  exists t. split; [reflexivity|]. split.
  - by apply (spanning_perm n extension).
  - by rewrite (edges_cost_perm _ _ _ Hperm).
Qed.

Lemma prim_mst_loop fuel :
  forall t heap,
    prim_inv n weights reference t heap ->
    length heap + n * (n - 1 - Heap.num_edges t) <= fuel ->
    Forall (no_dearer_than n weights reference) (Heap.mst_loop fuel n weights t heap).
Proof.
  induction fuel as [|fuel IH]; intros t heap Hinv Hfuel.
  - cbn [Heap.mst_loop].
    destruct (Heap.num_edges t + 1 <? n) eqn:Hguard.
    + apply Nat.ltb_lt in Hguard. exfalso.
      assert (1 <= n * (n - 1 - Heap.num_edges t)) by nia. lia.
    + apply Nat.ltb_ge in Hguard. constructor; [|constructor]. by eapply prim_done.
  - cbn [Heap.mst_loop].
    destruct (Heap.num_edges t + 1 <? n) eqn:Hguard.
    2:{ apply Nat.ltb_ge in Hguard. constructor; [|constructor]. by eapply prim_done. }
    apply Nat.ltb_lt in Hguard.
    assert (Hne : heap <> []).
    { destruct (prim_heap _ _ _ _ _ Hinv) as [Hshape Hedges _ _ Hreach].
      destruct (nodes_missing (tree_nodes (Heap.m_adjacency_list t)) n)
        as (v & Hv & Hnot); [apply (shape_nodup _ _ Hshape) | |].
      { unfold tree_nodes. cbn [length]. rewrite <- Hedges. lia. }
      destruct (Hreach v Hv Hnot) as (e & He & _).
      intros ->. by apply elem_of_nil in He. }
    pose proof (tops_nonempty heap Hne) as Htops.
    destruct (Heap.tops heap) as [|c0 choices] eqn:Heq; [done|].
    rewrite <- Heq. apply Forall_flat_map, Forall_forall.
    intros [curr heap'] Hin.
    pose proof (tops_selections _ _ _ Hin) as Hperm.
    pose proof (prim_inv_perm _ _ _ Hperm Hinv) as Hinv'.
    pose proof (Permutation_length Hperm) as Hlen. cbn [length] in Hlen.
    destruct (decide (Heap.destination curr ∈ tree_nodes (Heap.m_adjacency_list t)))
      as [Hold|Hfresh].
    + destruct (prim_visit_old t heap' curr Hinv' Hold) as [Hvisit Hinv''].
      rewrite Hvisit. apply IH; [exact Hinv'' | lia].
    + destruct (prim_visit_fresh t heap' curr Hinv') as (t' & heap'' & Hvisit & Hinv'' & Hedges' & Hlen'');
        [|exact Hfresh|].
      { intros e He. apply (tops_lightest heap curr heap' Hin). by rewrite Hperm. }
      rewrite Hvisit. apply IH; [exact Hinv''|].
      rewrite Hedges'. nia.
Qed.

End PrimLoop.

Lemma prim_compute_mst n weights reference fuel :
  1 <= n -> table_wf n weights -> is_spanning_tree n reference -> n * n <= fuel ->
  Forall (no_dearer_than n weights reference) (Heap.compute_mst fuel n weights).
Proof.
  intros Hn Hwf Href Hfuel.
  unfold Heap.compute_mst, Heap.new_tree.
  rewrite (proj2 (Nat.ltb_lt 0 n)) by lia. cbn [runtime_assert bind].
  destruct (row_spec n weights 0 Hwf ltac:(lia)) as (cells & Hrow & Hlen & Hcells & Hsnd & Hall).
  rewrite Hrow.
  destruct (row_entries n weights 0 cells Hwf ltac:(lia) Hrow) as [Hvalues _].
  destruct (push_all_spec n 0 cells) with (heap := @nil Heap.pq_entry)
    as (Hplen & Hfrom & _ & Hreach).
  { intros [x y] w Hin. pose proof (Hsnd _ _ Hin) as Hy. cbn in Hy. subst y.
    split; [by apply (Hcells x w) | reflexivity]. }
  apply (prim_mst_loop n weights reference Hwf ltac:(lia)).
  - split; [split|..];
      cbn [Heap.m_adjacency_list Heap.m_parent Heap.num_edges Heap.m_num_edges].
    + apply tree_shape_init. lia.
    + by rewrite concat_replicate_nil.
    + split; [apply length_replicate|]. intros v Hv. exists None.
      split; [by apply lookup_replicate_2|]. rewrite concat_replicate_nil.
      split; [intros [? ?]; discriminate | intros Hin; by apply elem_of_nil in Hin].
    + intros e He. unfold tree_nodes. rewrite concat_replicate_nil.
      destruct (Hfrom e He) as [Hnil|[Hs Hd]]; [by apply elem_of_nil in Hnil|].
      split; [rewrite Hs; by left | exact Hd].
    + intros v Hv Hnot. unfold tree_nodes in Hnot. rewrite concat_replicate_nil in Hnot.
      assert (v <> 0) by (intros ->; apply Hnot; by left).
      destruct (Hall v Hv ltac:(done)) as (w & Hw).
      by apply (Hreach (v, 0) w).
    + intros e He. apply push_all_entries in He as [He|(dst & src & w & Hin & ->)];
        [by apply elem_of_nil in He|].
      destruct (Hvalues dst src w Hin) as (-> & _ & _ & Hget).
      cbn [Heap.weight Heap.source Heap.destination].
      unfold edge_cost. cbn [fst snd]. by rewrite get_sym, Hget.
    + intros a b Ha Hb Hout. unfold tree_nodes in Ha, Hout.
      rewrite concat_replicate_nil in Ha, Hout.
      apply list_elem_of_singleton in Ha. subst a.
      assert (b <> 0) by (intros ->; apply Hout; by left).
      destruct (Hall b Hb ltac:(done)) as (w & Hw).
      exists {| Heap.source := 0; Heap.destination := b; Heap.weight := w |}.
      split; [|by split]. apply push_all_entries. right. by exists b, 0, w.
    + exists reference. split; [exact Href|]. split; [|reflexivity].
      unfold edges_of.
      assert (Hnil : forall k (f : nat -> list nat -> list (nat * nat)),
                (forall i, f i [] = []) -> concat (imap f (replicate k [])) = []).
      { clear. induction k as [|k IHk]; intros f Hf; [reflexivity|].
        cbn [replicate imap concat]. rewrite Hf. cbn [app]. apply IHk.
        intros i. apply Hf. }
      rewrite Hnil by reflexivity. apply submseteq_nil_l.
  - cbn [Heap.num_edges Heap.m_num_edges]. rewrite Hplen. cbn [length]. nia.
Qed.

(** X4: The heap-based [compute_mst] returns a minimum spanning tree: it
    returns on every table of width [n >= 1], and whatever the order in
    which the queue hands out entries of equal weight, the edges of the
    tree it returns are a spanning tree of the [n] nodes whose total cost
    is at most the total cost of any spanning tree. *)
Theorem heap_compute_mst_returns_a_minimum_spanning_tree
    (n : nat) (weights : triangular_table) :
  1 <= n -> table_wf n weights ->
  returns_all (fun fuel => Heap.compute_mst fuel n weights)
    (fun t =>
       is_spanning_tree n (edges_of (Heap.m_adjacency_list t)) /\
       exists cost,
         total_cost weights (edges_of (Heap.m_adjacency_list t)) = Ok cost /\
         forall other, is_spanning_tree n other ->
           exists cost', total_cost weights other = Ok cost' /\ (cost <= cost')%Z).
Proof.
  intros Hn Hwf.
  destruct (heap_compute_mst_spec n weights Hn Hwf) as [k Hk].
  exists (k + n * n). intros fuel Hfuel.
  destruct (Hk fuel ltac:(lia)) as [Hne _]. split; [exact Hne|].
  apply Forall_forall. intros r Hr.
  pose proof (prim_compute_mst n weights (star n) fuel Hn Hwf (star_spanning n Hn)
                ltac:(lia)) as Hstar.
  rewrite Forall_forall in Hstar. destruct (Hstar r Hr) as (t & -> & Hspan & _).
  exists t. split; [reflexivity|]. split; [exact Hspan|].
  exists (edges_cost weights (edges_of (Heap.m_adjacency_list t))). split.
  - apply (total_cost_edges_cost n); [exact Hwf | apply Hspan].
  - intros other Hother. exists (edges_cost weights other). split.
    + apply (total_cost_edges_cost n); [exact Hwf | apply Hother].
    + pose proof (prim_compute_mst n weights other fuel Hn Hwf Hother ltac:(lia)) as Hmin.
      rewrite Forall_forall in Hmin.
      destruct (Hmin (Ok t) Hr) as (t' & [= <-] & _ & Hle). exact Hle.
Qed.

Lemma heap_compute_mst_returns_a_minimum_spanning_tree_witness :
  returns_all (fun fuel => Heap.compute_mst fuel 4 weights_distinct)
    (fun t =>
       exists cost,
         total_cost weights_distinct (edges_of (Heap.m_adjacency_list t)) = Ok cost /\
         exists cost', total_cost weights_distinct [(0, 1); (0, 3); (3, 2)] = Ok cost' /\
                       (cost <= cost')%Z).
Proof.
  destruct (heap_compute_mst_returns_a_minimum_spanning_tree 4 weights_distinct)
    as [k Hk]; [lia | split; reflexivity |].
  exists k. intros fuel Hfuel. destruct (Hk fuel Hfuel) as [Hne Hall].
  split; [exact Hne|]. eapply Forall_impl; [exact Hall|].
  intros r (t & -> & _ & cost & Hcost & Hmin). exists t. split; [reflexivity|].
  exists cost. split; [exact Hcost|]. apply Hmin.
  split; [reflexivity|]. split.
  - intros p c Hin.
    repeat (apply elem_of_cons in Hin as [[= -> ->]|Hin]; [lia|]). inversion Hin.
  - assert (H1 : connected [(0, 1); (0, 3); (3, 2)] 0 1)
      by (apply connected_once; left; by left).
    assert (H3 : connected [(0, 1); (0, 3); (3, 2)] 0 3)
      by (apply connected_once; left; right; by left).
    assert (H2 : connected [(0, 1); (0, 3); (3, 2)] 0 2).
    { eapply connected_step; [exact H3|]. left. right. right. by left. }
    intros v Hv. destruct v as [|[|[|[|v]]]]; [apply connected_refl | done | done | done | lia].
Defined.

(** ** What a turn of the array-scan loop inserts *)

Lemma scan_try_insert_inv NDEBUG (t t' : Scan.tree) p c :
  Scan.try_insert NDEBUG t p c = Ok (t', true) ->
  exists cs,
    Scan.m_adjacency_list t !! p = Some cs /\
    Scan.m_adjacency_list t' = <[p := cs ++ [c]]> (Scan.m_adjacency_list t).
Proof.
  unfold Scan.try_insert. intros H.
  apply bind_Ok_inv in H as ([] & _ & H).
  assert (Hemplace : forall m_parent,
            (let* adj := emplace_child (Scan.m_adjacency_list t) p c in
             Ok ({| Scan.m_parent := m_parent; Scan.m_adjacency_list := adj;
                    Scan.m_num_edges := S (Scan.m_num_edges t) |}, true))
            = Ok (t', true) ->
            exists cs,
              Scan.m_adjacency_list t !! p = Some cs /\
              Scan.m_adjacency_list t' = <[p := cs ++ [c]]> (Scan.m_adjacency_list t)).
  { intros m_parent Hrun. apply bind_Ok_inv in Hrun as (adj & Hadj & [= <-]).
    unfold emplace_child in Hadj. apply bind_Ok_inv in Hadj as (cs & Hcs & [= <-]).
    exists cs. split; [by apply vector_at_Ok | reflexivity]. }
  destruct NDEBUG; [by eapply Hemplace|].
  apply bind_Ok_inv in H as ([] & _ & H).
  apply bind_Ok_inv in H as (b & _ & H). destruct b; [discriminate|].
  by eapply Hemplace.
Qed.

Lemma scan_step_slots T_max weights ji cands min_entry i cands' min_entry' :
  Scan.scan_step T_max weights ji (cands, min_entry) i = Ok (cands', min_entry') ->
  exists curr c,
    cands !! i = Some curr /\
    get weights ji (Scan.destination curr) = Ok c /\
    cands' = <[i := rescanned ji curr c]> cands.
Proof.
  unfold Scan.scan_step. intros H.
  apply bind_Ok_inv in H as (curr & Hcurr & H). apply vector_at_Ok in Hcurr.
  apply bind_Ok_inv in H as (c & Hc & H).
  apply bind_Ok_inv in H as (min_cost & _ & [= <- _]).
  exists curr, c. split; [exact Hcurr|]. split; [exact Hc|].
  unfold rescanned. destruct (c <=? Scan.cost curr)%Z; [reflexivity|].
  symmetry. by apply list_insert_id.
Qed.

Lemma scan_from_slots T_max weights ji indices :
  forall cands min_entry cands' min_entry',
    Scan.scan_from T_max weights ji (cands, min_entry) indices = Ok (cands', min_entry') ->
    NoDup indices ->
    forall i e', cands' !! i = Some e' ->
      exists e, cands !! i = Some e /\
        (((i ∉ indices) /\ e' = e) \/
         (i ∈ indices /\
          exists c, get weights ji (Scan.destination e) = Ok c /\ e' = rescanned ji e c)).
Proof.
  induction indices as [|i0 indices IH]; intros cands min_entry cands' min_entry' Hrun Hnd i e' He'.
  - injection Hrun as <- <-. exists e'. split; [exact He'|]. left. split; [|reflexivity].
    apply not_elem_of_nil.
  - cbn [Scan.scan_from] in Hrun.
    apply bind_Ok_inv in Hrun as ([cands1 min1] & Hstep & Hrun).
    apply NoDup_cons in Hnd as [Hi0 Hnd].
    destruct (scan_step_slots _ _ _ _ _ _ _ _ Hstep) as (curr & c & Hcurr & Hc & ->).
    destruct (IH _ _ _ _ Hrun Hnd i e' He') as (e1 & He1 & Hrel).
    destruct (decide (i = i0)) as [->|Hne].
    + rewrite list_lookup_insert_eq in He1 by by eapply lookup_lt_Some.
      injection He1 as <-. exists curr. split; [exact Hcurr|]. right.
      split; [by left|]. exists c. split; [exact Hc|].
      destruct Hrel as [[_ ->]|[Hin _]]; [reflexivity | done].
    + rewrite list_lookup_insert_ne in He1 by done.
      exists e1. split; [exact He1|].
      destruct Hrel as [[Hout ->]|[Hin Hrel]].
      * left. split; [|reflexivity]. by apply not_elem_of_cons.
      * right. split; [by right | exact Hrel].
Qed.

Section ScanTurn.

Variables (NDEBUG : bool) (T_max : Z) (n : nat) (weights : triangular_table).
Hypothesis weights_wf : table_wf n weights.
Hypothesis weights_below : costs_below T_max weights.
Hypothesis n_ge_2 : 2 <= n.

Lemma edge_cost_get x y :
  x < n -> y < n -> x <> y ->
  get weights x y = Ok (edge_cost weights (x, y)) /\
  (edge_cost weights (x, y) <= T_max)%Z.
Proof.
  intros Hx Hy Hxy.
  destruct (get_below T_max n weights weights_wf weights_below x y Hx Hy Hxy)
    as (c & Hget & Hle).
  unfold edge_cost. cbn [fst snd]. rewrite Hget. split; [reflexivity|].
  by apply Z.leb_le.
Qed.

Lemma scan_turn st st' :
  scan_inv NDEBUG n st -> best_known T_max weights st ->
  Scan.loop_body NDEBUG T_max weights st = Ok st' ->
  best_known T_max weights st' /\
  Scan.just_inserted st' < n /\
  (Scan.just_inserted st' ∉ tree_nodes (Scan.m_adjacency_list (Scan.t st))) /\
  exists parent,
    parent ∈ tree_nodes (Scan.m_adjacency_list (Scan.t st)) /\
    edges_of (Scan.m_adjacency_list (Scan.t st'))
    ≡ₚ (parent, Scan.just_inserted st') :: edges_of (Scan.m_adjacency_list (Scan.t st)) /\
    forall u, u ∈ tree_nodes (Scan.m_adjacency_list (Scan.t st)) ->
      (edge_cost weights (parent, Scan.just_inserted st')
       <= edge_cost weights (u, Scan.just_inserted st'))%Z.
Proof.
  intros [Hshape Hedges Hflags (rest & Hpop & Hperm) Hsrc Hji] Hbest Hbody.
  set (adj := Scan.m_adjacency_list (Scan.t st)) in *.
  set (ji := Scan.just_inserted st) in *.
  assert (Hjin : ji < n) by by apply (shape_bound _ _ Hshape).
  unfold Scan.loop_body in Hbody. rewrite Hpop in Hbody. cbn [bind] in Hbody.
  apply bind_Ok_inv in Hbody as ([scanned min_entry] & Hscan & Hbody).
  destruct min_entry as [m|]; [|discriminate].
  apply bind_Ok_inv in Hbody as (e & He & Hbody). apply vector_at_Ok in He.
  apply bind_Ok_inv in Hbody as ([t' inserted] & Hins & Hbody).
  apply bind_Ok_inv in Hbody as ([] & Hassert & [= <-]).
  apply runtime_assert_Ok in Hassert. subst inserted.
  cbn [Scan.t Scan.candidates Scan.just_inserted].
  (* the slots before the scan *)
  assert (Hnd : NoDup ((Scan.destination <$> rest) ++ tree_nodes adj))
    by (rewrite Hperm; apply NoDup_seq).
  apply NoDup_app in Hnd as (_ & Hdisj & _).
  assert (Hrest : forall e0, e0 ∈ rest ->
            e0 ∈ Scan.candidates st /\ Scan.destination e0 < n /\
            Scan.destination e0 ∉ tree_nodes adj).
  { intros e0 He0. split; [|split].
    - assert (Hfront : exists front,
                Scan.candidates st !! Scan.just_inserted_index st = Some front).
      { pose proof Hpop as Hpop2. unfold Scan.swap_pop in Hpop2.
        destruct (last (Scan.candidates st)) as [back|]; [|discriminate].
        apply bind_Ok_inv in Hpop2 as (front & Hfront & _).
        exists front. by apply vector_at_Ok. }
      destruct Hfront as [front Hfront].
      destruct (swap_pop_spec _ _ _ Hfront) as (rest' & Hpop' & Hperm').
      rewrite Hpop in Hpop'. injection Hpop' as <-. rewrite Hperm'. by right.
    - assert (Hin : Scan.destination e0 ∈ seq 0 n).
      { rewrite <- Hperm. apply elem_of_app. left. apply list_elem_of_fmap. by exists e0. }
      apply elem_of_seq in Hin. lia.
    - apply Hdisj. apply list_elem_of_fmap. by exists e0. }
  (* the slots after the scan *)
  assert (Hslots : forall e', e' ∈ scanned ->
            exists e0, e0 ∈ rest /\
              e' = rescanned ji e0 (edge_cost weights (ji, Scan.destination e0))).
  { intros e' He'. apply list_elem_of_lookup in He' as [i Hi].
    unfold Scan.scan in Hscan.
    destruct (scan_from_slots _ _ _ _ _ _ _ _ Hscan (NoDup_seq _ _) i e' Hi)
      as (e0 & He0 & Hrel).
    exists e0. split; [by eapply list_elem_of_lookup_2|].
    destruct Hrel as [[Hout _]|[_ (c & Hc & ->)]].
    - exfalso. apply Hout, elem_of_seq. apply lookup_lt_Some in He0. lia.
    - destruct (Hrest e0 (list_elem_of_lookup_2 _ _ _ He0)) as (_ & Hd & Hout).
      destruct (edge_cost_get ji (Scan.destination e0) Hjin Hd) as [Hget _];
        [intros Heq; apply Hout; by rewrite <- Heq|].
      unfold ji in *. congruence. }
  assert (Hafter : forall e', e' ∈ scanned ->
            Scan.destination e' < n /\
            (Scan.destination e' ∉ tree_nodes adj) /\
            Scan.source e' ∈ tree_nodes adj /\
            edge_cost weights (Scan.source e', Scan.destination e') = Scan.cost e' /\
            forall u, u ∈ tree_nodes adj ->
              (Scan.cost e' <= edge_cost weights (u, Scan.destination e'))%Z).
  { intros e' He'. destruct (Hslots e' He') as (e0 & He0 & ->).
    destruct (Hrest e0 He0) as (Hcand & Hd & Hout).
    destruct (Hbest e0 Hcand) as [Hleast Hsource]. fold adj ji in Hleast, Hsource.
    destruct (edge_cost_get ji (Scan.destination e0) Hjin Hd) as [_ Hmax];
      [intros Heq; apply Hout; by rewrite <- Heq|].
    unfold rescanned.
    destruct (edge_cost weights (ji, Scan.destination e0) <=? Scan.cost e0)%Z eqn:Hle;
      cbn [Scan.source Scan.destination Scan.cost].
    - apply Z.leb_le in Hle. repeat split; try done.
      intros u Hu. destruct (decide (u = ji)) as [->|Hne]; [lia|].
      specialize (Hleast u Hu Hne). lia.
    - apply Z.leb_gt in Hle.
      destruct Hsource as [Hnever|(Hs & _ & Hcost)]; [lia|].
      repeat split; try done.
      intros u Hu. destruct (decide (u = ji)) as [->|Hne]; [lia|].
      by apply Hleast. }
  destruct (Hafter e (list_elem_of_lookup_2 _ _ _ He)) as (Hd & Hout & Hs & Hcost & Hleast).
  destruct (scan_try_insert_inv _ _ _ _ _ Hins) as (cs & Hcs & Hadj').
  fold adj in Hcs, Hadj'.
  assert (Hnodes' : tree_nodes (Scan.m_adjacency_list t') ≡ₚ Scan.destination e :: tree_nodes adj).
  { unfold tree_nodes. rewrite Hadj', (concat_insert_snoc _ _ _ _ Hcs). apply perm_swap. }
  split; [|split; [exact Hd|split; [exact Hout|]]].
  - intros e' He'. cbn [Scan.t Scan.candidates Scan.just_inserted] in He' |- *.
    destruct (Hafter e' He') as (_ & _ & Hs' & Hcost' & Hleast').
    split.
    + intros u Hu Hne. rewrite Hnodes' in Hu.
      apply elem_of_cons in Hu as [->|Hu]; [done | by apply Hleast'].
    + right. split; [rewrite Hnodes'; by right|]. split; [|exact Hcost'].
      intros Heq. apply Hout. by rewrite <- Heq.
  - exists (Scan.source e). split; [exact Hs|]. split.
    + rewrite Hadj'. by apply edges_of_insert_snoc.
    + intros u Hu. rewrite Hcost. by apply Hleast.
Qed.

Lemma scan_loop_head_inv st :
  scan_loop_head NDEBUG T_max n weights st ->
  scan_inv NDEBUG n st /\ best_known T_max weights st.
Proof.
  induction 1 as [t0 Hnew|st st' Hhead [Hinv Hbest] Hguard Hbody].
  - destruct (scan_inv_init NDEBUG T_max n n_ge_2) as (t0' & Hnew' & _ & Hinv).
    assert (t0' = t0) as -> by congruence.
    split; [exact Hinv|].
    intros e He. cbn [Scan.candidates Scan.t Scan.just_inserted] in He |- *.
    unfold Scan.initial_candidates in He.
    apply list_elem_of_fmap in He as (i & -> & _). cbn [Scan.cost].
    split; [|by left].
    intros u Hu Hne. exfalso. apply Hne.
    unfold Scan.new_tree in Hnew.
    destruct (0 <? n); cbn [runtime_assert bind] in Hnew; [|discriminate].
    injection Hnew as <-. cbn [Scan.m_adjacency_list] in Hu.
    unfold tree_nodes in Hu. rewrite concat_replicate_nil in Hu.
    by apply list_elem_of_singleton in Hu.
  - apply Nat.ltb_lt in Hguard.
    destruct (loop_body_spec NDEBUG T_max n weights weights_wf weights_below st
                ltac:(lia) Hinv ltac:(lia)) as (st'' & Hbody' & Hinv' & _).
    assert (st'' = st') as -> by congruence.
    split; [exact Hinv'|]. by destruct (scan_turn st st' Hinv Hbest Hbody).
Qed.

End ScanTurn.

Lemma scan_mst_loop_heads NDEBUG T_max n weights fuel :
  forall st t,
    scan_loop_head NDEBUG T_max n weights st ->
    Scan.mst_loop fuel NDEBUG T_max (n - 1) weights st = Ok t ->
    exists st', scan_loop_head NDEBUG T_max n weights st' /\ Scan.t st' = t.
Proof.
  induction fuel as [|fuel IH]; intros st t Hhead Hrun; cbn [Scan.mst_loop] in Hrun;
    destruct (Scan.num_edges (Scan.t st) <? n - 1) eqn:Hguard;
    try discriminate; try (injection Hrun as <-; by exists st).
  apply bind_Ok_inv in Hrun as (st' & Hbody & Hrun).
  apply (IH st' t); [|exact Hrun]. by eapply loop_head_next.
Qed.

(** X9: What the array-scan [compute_mst] does get right: in every turn of
    its loop the body returns, and the node it inserts, which was outside
    the tree, is attached to a node of the tree at least cost from it: no
    node of the tree is nearer to it than its parent.  (Which node is
    inserted is another matter.)  The tree that [compute_mst] returns is
    the tree of such a loop state. *)
Theorem scan_turn_attaches_to_a_nearest_tree_node
    (NDEBUG : bool) (T_max : Z) (n : nat) (weights : triangular_table) :
  2 <= n -> table_wf n weights -> costs_below T_max weights ->
  (forall fuel t,
     Scan.compute_mst fuel NDEBUG T_max n weights = Ok t ->
     exists st, scan_loop_head NDEBUG T_max n weights st /\ Scan.t st = t) /\
  forall st,
    scan_loop_head NDEBUG T_max n weights st ->
    (Scan.num_edges (Scan.t st) <? n - 1) = true ->
    exists st' parent cost,
      Scan.loop_body NDEBUG T_max weights st = Ok st' /\
      (Scan.just_inserted st' ∉ tree_nodes (Scan.m_adjacency_list (Scan.t st))) /\
      parent ∈ tree_nodes (Scan.m_adjacency_list (Scan.t st)) /\
      edges_of (Scan.m_adjacency_list (Scan.t st'))
      ≡ₚ (parent, Scan.just_inserted st') :: edges_of (Scan.m_adjacency_list (Scan.t st)) /\
      get weights parent (Scan.just_inserted st') = Ok cost /\
      forall u, u ∈ tree_nodes (Scan.m_adjacency_list (Scan.t st)) ->
        exists cost_u,
          get weights u (Scan.just_inserted st') = Ok cost_u /\ (cost <= cost_u)%Z.
Proof.
  intros Hn Hwf Hbelow. split.
  - intros fuel t Hrun. unfold Scan.compute_mst in Hrun.
    apply bind_Ok_inv in Hrun as ([] & _ & Hrun).
    apply bind_Ok_inv in Hrun as (t0 & Hnew & Hrun).
    eapply scan_mst_loop_heads; [|exact Hrun]. by apply loop_head_first.
  - intros st Hhead Hguard. apply Nat.ltb_lt in Hguard.
    destruct (scan_loop_head_inv NDEBUG T_max n weights Hwf Hbelow Hn st Hhead)
      as [Hinv Hbest].
    destruct (loop_body_spec NDEBUG T_max n weights Hwf Hbelow st
                ltac:(lia) Hinv ltac:(lia)) as (st' & Hbody & _ & _).
    destruct (scan_turn NDEBUG T_max n weights Hwf Hbelow Hn st st' Hinv Hbest Hbody)
      as (_ & Hc & Hout & parent & Hp & Hedges & Hleast).
    pose proof (shape_bound _ _ (inv_shape _ _ _ Hinv)) as Hbound.
    assert (Hget : forall u, u ∈ tree_nodes (Scan.m_adjacency_list (Scan.t st)) ->
              get weights u (Scan.just_inserted st')
              = Ok (edge_cost weights (u, Scan.just_inserted st'))).
    { intros u Hu.
      apply (edge_cost_get T_max n weights Hwf Hbelow u _ (Hbound u Hu) Hc).
      intros ->. by apply Hout. }
    exists st', parent, (edge_cost weights (parent, Scan.just_inserted st')).
    split; [exact Hbody|]. split; [exact Hout|]. split; [exact Hp|].
    split; [exact Hedges|]. split; [by apply Hget|].
    intros u Hu. exists (edge_cost weights (u, Scan.just_inserted st')).
    split; [by apply Hget | by apply Hleast].
Qed.

Lemma scan_turn_attaches_to_a_nearest_tree_node_witness :
  exists st' parent cost,
    Scan.loop_body false DBL_MAX weights_distinct
      {| Scan.t := {| Scan.m_parent := replicate 4 false;
                      Scan.m_adjacency_list := replicate 4 [];
                      Scan.m_num_edges := 0 |};
         Scan.candidates := Scan.initial_candidates DBL_MAX 4;
         Scan.just_inserted_index := 0; Scan.just_inserted := 0 |} = Ok st' /\
    get weights_distinct parent (Scan.just_inserted st') = Ok cost /\
    exists cost_0, get weights_distinct 0 (Scan.just_inserted st') = Ok cost_0 /\
                   (cost <= cost_0)%Z.
Proof.
  destruct (scan_turn_attaches_to_a_nearest_tree_node false DBL_MAX 4 weights_distinct)
    as [_ Hturn].
  - lia.
  - split; reflexivity.
  - unfold costs_below, weights_distinct, table_of, DBL_MAX. simpl.
    repeat constructor; vm_compute; discriminate.
  - destruct (Hturn _ (loop_head_first false DBL_MAX 4 weights_distinct _ eq_refl) eq_refl)
      as (st' & parent & cost & Hbody & _ & _ & _ & Hget & Hleast).
    exists st', parent, cost. split; [exact Hbody|]. split; [exact Hget|].
    apply Hleast. by left.
Defined.

Lemma scan_mst_loop_short NDEBUG T_max n weights fuel :
  table_wf n weights -> costs_below T_max weights -> 0 < n ->
  forall st,
    scan_inv NDEBUG n st -> Scan.num_edges (Scan.t st) + 1 + fuel < n ->
    Scan.mst_loop fuel NDEBUG T_max (n - 1) weights st = Err OutOfFuel.
Proof.
  intros Hwf Hbelow Hn. induction fuel as [|fuel IH]; intros st Hinv Hfuel;
    cbn [Scan.mst_loop]; rewrite (proj2 (Nat.ltb_lt _ _)) by lia; [reflexivity|].
  destruct (loop_body_spec NDEBUG T_max n weights Hwf Hbelow st Hn Hinv ltac:(lia))
    as (st' & Hbody & Hinv' & Hedges').
  rewrite Hbody. cbn [bind]. apply IH; [exact Hinv' | lia].
Qed.

(** X10: The array-scan [compute_mst] takes exactly [n - 1] turns of its loop on
    every table of width [n >= 2] whose costs are values of the cost type:
    it does not return within fewer turns, and with [n - 1] turns or more
    it returns one and the same tree. *)
Theorem scan_compute_mst_takes_n_minus_1_turns
    (NDEBUG : bool) (T_max : Z) (n : nat) (weights : triangular_table) :
  2 <= n -> table_wf n weights -> costs_below T_max weights ->
  (forall fuel, fuel < n - 1 ->
     Scan.compute_mst fuel NDEBUG T_max n weights = Err OutOfFuel) /\
  exists t, forall fuel, n - 1 <= fuel ->
    Scan.compute_mst fuel NDEBUG T_max n weights = Ok t.
Proof.
  intros Hn Hwf Hbelow.
  destruct (scan_inv_init NDEBUG T_max n Hn) as (t0 & Hnew & Hedges0 & Hinv).
  split.
  - intros fuel Hfuel. unfold Scan.compute_mst.
    rewrite (proj2 (Nat.leb_le 2 n)) by lia. cbn [runtime_assert bind].
    rewrite Hnew. cbn [bind].
    apply (scan_mst_loop_short NDEBUG T_max n weights fuel Hwf Hbelow ltac:(lia) _ Hinv).
    cbn [Scan.t]. lia.
  - destruct (mst_loop_spec NDEBUG T_max n weights Hwf Hbelow (n - 1) ltac:(lia) _ Hinv)
      as (t & Hloop & _); [cbn [Scan.t]; lia|].
    exists t. intros fuel Hfuel. unfold Scan.compute_mst.
    rewrite (proj2 (Nat.leb_le 2 n)) by lia. cbn [runtime_assert bind].
    rewrite Hnew. cbn [bind]. by eapply scan_mst_loop_fuel_mono.
Qed.

Lemma scan_compute_mst_takes_n_minus_1_turns_witness :
  Scan.compute_mst 2 false DBL_MAX 4 weights_distinct = Err OutOfFuel.
Proof.
  apply (scan_compute_mst_takes_n_minus_1_turns false DBL_MAX 4 weights_distinct).
  - lia.
  - split; reflexivity.
  - unfold costs_below, weights_distinct, table_of, DBL_MAX. simpl.
    repeat constructor; vm_compute; discriminate.
  - lia.
Defined.

(** ** Edge cases of the table *)

Lemma next_keeps_row_or_advances it : m_y it <= m_y (next it).
Proof. unfold next. cbv zeta. destruct (S (m_x it) =? m_y it); cbn [m_y]; lia. Qed.



(** ** The trees of the builders as spanning trees *)

Lemma listings_heads adj cs l c :
  preorder_listings adj cs l -> c ∈ cs -> c ∈ l.
Proof.
  induction 1 as [|c0 cs l1 l2 Hc0 Hcs IH]; intros Hin; [inversion Hin|].
  apply elem_of_app. apply elem_of_cons in Hin as [->|Hin].
  - left. destruct Hc0. by left.
  - right. by apply IH.
Qed.

Lemma listing_connected adj :
  (forall node l, preorder_listing adj node l ->
     forall v, v ∈ l -> connected (edges_of adj) node v) /\
  (forall cs l, preorder_listings adj cs l ->
     forall v, v ∈ l -> exists c, c ∈ cs /\ connected (edges_of adj) c v).
Proof.
  apply preorder_listing_mutind.
  - intros node cs l Hnode Hcs IH v Hv.
    apply elem_of_cons in Hv as [->|Hv]; [apply connected_refl|].
    destruct (IH v Hv) as (c & Hc & Hcv).
    eapply connected_trans; [|exact Hcv].
    apply connected_once. left. apply edges_of_elem. by exists cs.
  - intros v Hv. inversion Hv.
  - intros c cs l1 l2 Hc IH1 Hcs IH2 v Hv.
    apply elem_of_app in Hv as [Hv|Hv].
    + exists c. split; [by left | by apply IH1].
    + destruct (IH2 v Hv) as (c' & Hc' & Hcv). exists c'. split; [by right | exact Hcv].
Qed.

Lemma spanning_edges n adj num_edges :
  0 < n -> spanning_tree n adj num_edges -> is_spanning_tree n (edges_of adj).
Proof.
  intros Hn (Hshape & Hedges & Hperm).
  destruct (shape_listing _ _ Hshape) as (l & Hl & Hnodes).
  assert (Hall : tree_nodes adj ≡ₚ seq 0 n).
  { unfold tree_nodes. rewrite Hperm. destruct n as [|k]; [lia|].
    cbn. by replace (k - 0) with k by lia. }
  split; [|split].
  - rewrite <- (length_fmap snd), edges_of_children, Hperm. apply length_seq.
  - intros p c Hin. destruct (shape_edges_inside n adj p c Hshape Hin) as [Hp Hc].
    split; [by apply (shape_bound _ _ Hshape)|].
    split; [by apply (shape_bound _ _ Hshape)|].
    intros ->. apply edges_of_elem in Hin as (cs & Hcs & Hc').
    destruct (listing_children_follow adj l c cs Hl) as (l1 & lcs & l2 & -> & Hlcs);
      [by rewrite Hnodes | exact Hcs |].
    assert (Hnd : NoDup (l1 ++ c :: lcs ++ l2))
      by (rewrite Hnodes; apply (shape_nodup _ _ Hshape)).
    apply NoDup_app in Hnd as (_ & _ & Hnd). apply NoDup_cons in Hnd as [Hnd _].
    apply Hnd, elem_of_app. left. by eapply listings_heads.
  - intros v Hv. apply (proj1 (listing_connected adj) 0 l Hl).
    rewrite Hnodes, Hall. apply elem_of_seq. lia.
Qed.

(** X5: Whatever the order in which the queue hands out entries of equal
    weight, the heap-based [compute_mst] returns trees of one and the same
    total cost: the queue decides which tree is returned, never how much it
    costs. *)
Theorem heap_total_cost_is_independent_of_the_queue_order
    (n : nat) (weights : triangular_table) :
  1 <= n -> table_wf n weights ->
  exists cost,
    returns_all (fun fuel => Heap.compute_mst fuel n weights)
      (fun t => total_cost weights (edges_of (Heap.m_adjacency_list t)) = Ok cost).
Proof.
  intros Hn Hwf.
  destruct (heap_compute_mst_spec n weights Hn Hwf) as [k Hk].
  destruct (Hk (k + n * n) ltac:(lia)) as [Hne0 _].
  pose proof (prim_compute_mst n weights (star n) (k + n * n) Hn Hwf (star_spanning n Hn)
                ltac:(lia)) as Hstar0.
  destruct (Heap.compute_mst (k + n * n) n weights) as [|r0 rest0] eqn:Hrun0; [done|].
  apply Forall_cons in Hstar0 as [(t0 & -> & Hspan0 & _) _].
  exists (edges_cost weights (edges_of (Heap.m_adjacency_list t0))).
  exists (k + n * n). intros fuel Hfuel.
  destruct (Hk fuel ltac:(lia)) as [Hne _]. split; [exact Hne|].
  pose proof (prim_compute_mst n weights (edges_of (Heap.m_adjacency_list t0)) fuel
                Hn Hwf Hspan0 ltac:(lia)) as Hle.
  eapply Forall_impl; [exact Hle|].
  intros r (t & -> & Hspan & Hle1). exists t. split; [reflexivity|].
  rewrite (total_cost_edges_cost n); [|exact Hwf | apply Hspan]. f_equal.
  pose proof (prim_compute_mst n weights (edges_of (Heap.m_adjacency_list t)) (k + n * n)
                Hn Hwf Hspan ltac:(lia)) as Hle2.
  rewrite Hrun0 in Hle2. apply Forall_cons in Hle2 as [(t0' & [= <-] & _ & Hle2) _].
  lia.
Qed.

Lemma heap_total_cost_is_independent_of_the_queue_order_witness :
  exists cost,
    returns_all (fun fuel => Heap.compute_mst fuel 4 weights_optimality)
      (fun t => total_cost weights_optimality (edges_of (Heap.m_adjacency_list t)) = Ok cost).
Proof.
  apply (heap_total_cost_is_independent_of_the_queue_order 4 weights_optimality).
  - lia.
  - split; reflexivity.
Defined.

(** X7: The later revision never does better than the earlier one: on every
    table of width [n >= 2] whose costs are values of the cost type, the
    tree of the array-scan [compute_mst] is a spanning tree, and every tree
    the heap-based [compute_mst] can return costs at most as much. *)
Theorem heap_tree_costs_at_most_the_scan_tree
    (NDEBUG : bool) (T_max : Z) (n : nat) (weights : triangular_table) :
  2 <= n -> table_wf n weights -> costs_below T_max weights ->
  exists ts cost_scan,
    returns (fun fuel => Scan.compute_mst fuel NDEBUG T_max n weights) ts /\
    is_spanning_tree n (edges_of (Scan.m_adjacency_list ts)) /\
    total_cost weights (edges_of (Scan.m_adjacency_list ts)) = Ok cost_scan /\
    returns_all (fun fuel => Heap.compute_mst fuel n weights)
      (fun th => exists cost_heap,
         total_cost weights (edges_of (Heap.m_adjacency_list th)) = Ok cost_heap /\
         (cost_heap <= cost_scan)%Z).
Proof.
  intros Hn Hwf Hbelow.
  destruct (scan_compute_mst_spec NDEBUG T_max n weights Hn Hwf Hbelow) as (ts & Hret & Hshape).
  pose proof (spanning_edges n _ _ ltac:(lia) Hshape) as Hspan.
  exists ts, (edges_cost weights (edges_of (Scan.m_adjacency_list ts))).
  split; [exact Hret|]. split; [exact Hspan|]. split.
  { apply (total_cost_edges_cost n); [exact Hwf | apply Hspan]. }
  destruct (heap_compute_mst_spec n weights ltac:(lia) Hwf) as [k Hk].
  exists (k + n * n). intros fuel Hfuel.
  destruct (Hk fuel ltac:(lia)) as [Hne _]. split; [exact Hne|].
  pose proof (prim_compute_mst n weights (edges_of (Scan.m_adjacency_list ts)) fuel
                ltac:(lia) Hwf Hspan ltac:(lia)) as Hle.
  eapply Forall_impl; [exact Hle|].
  intros r (th & -> & Hspanh & Hcost). exists th. split; [reflexivity|].
  exists (edges_cost weights (edges_of (Heap.m_adjacency_list th))).
  split; [|exact Hcost].
  apply (total_cost_edges_cost n); [exact Hwf | apply Hspanh].
Qed.

Lemma heap_tree_costs_at_most_the_scan_tree_witness :
  exists ts cost_scan,
    returns (fun fuel => Scan.compute_mst fuel false DBL_MAX 4 weights_distinct) ts /\
    total_cost weights_distinct (edges_of (Scan.m_adjacency_list ts)) = Ok cost_scan /\
    returns_all (fun fuel => Heap.compute_mst fuel 4 weights_distinct)
      (fun th => exists cost_heap,
         total_cost weights_distinct (edges_of (Heap.m_adjacency_list th)) = Ok cost_heap /\
         (cost_heap <= cost_scan)%Z).
Proof.
  destruct (heap_tree_costs_at_most_the_scan_tree false DBL_MAX 4 weights_distinct)
    as (ts & cost_scan & Hret & _ & Hcost & Hheap).
  - lia.
  - split; reflexivity.
  - unfold costs_below, weights_distinct, table_of, DBL_MAX. simpl.
    repeat constructor; vm_compute; discriminate.
  - by exists ts, cost_scan.
Defined.

(** ** The array-scan builder on two and three nodes *)

Lemma connected_first edges a b :
  connected edges a b -> a = b \/ exists u, joined edges a u.
Proof.
  induction 1 as [|a b c Hab IH Hbc]; [by left|].
  destruct IH as [->|IH]; right; [by exists c | exact IH].
Qed.

Lemma connected_touches edges a b :
  connected edges a b -> a <> b ->
  existsb (fun e => (e.1 =? a) || (e.2 =? a)) edges = true /\
  existsb (fun e => (e.1 =? b) || (e.2 =? b)) edges = true.
Proof.
  intros Hab Hne.
  assert (Htouch : forall u v, joined edges u v ->
            existsb (fun e => (e.1 =? u) || (e.2 =? u)) edges = true /\
            existsb (fun e => (e.1 =? v) || (e.2 =? v)) edges = true).
  { intros u v [H|H]; split; apply existsb_exists;
      eexists; (split; [apply list_elem_of_In, H|]); cbn [fst snd];
      rewrite Nat.eqb_refl; by rewrite ?orb_true_r. }
  split.
  - destruct (connected_first edges a b Hab) as [?|[u Hu]]; [done|].
    apply (Htouch a u Hu).
  - destruct Hab as [|a b c _ Hbc]; [done|]. apply (Htouch b c Hbc).
Qed.

Lemma two_nodes_lower_bound (a : Z) other :
  is_spanning_tree 2 other -> (a <= edges_cost (table_of 2 [a]) other)%Z.
Proof.
  intros (Hlen & Hvalid & _).
  destruct other as [|[p c] [|? ?]]; try discriminate.
  destruct (Hvalid p c ltac:(by left)) as (Hp & Hc & Hpc).
  destruct p as [|[|p]], c as [|[|c]]; try lia; cbn -[Z.add]; lia.
Qed.

Lemma three_nodes_lower_bound (a b c : Z) other :
  is_spanning_tree 3 other ->
  (a + b + c - Z.max a (Z.max b c) <= edges_cost (table_of 3 [a; b; c]) other)%Z.
Proof.
  intros (Hlen & Hvalid & Hconn).
  destruct (connected_touches other 0 1 (Hconn 1 ltac:(lia)) ltac:(lia)) as [H0 H1].
  destruct (connected_touches other 0 2 (Hconn 2 ltac:(lia)) ltac:(lia)) as [_ H2].
  destruct other as [|[p1 c1] [|[p2 c2] [|? ?]]]; try discriminate.
  destruct (Hvalid p1 c1 ltac:(by left)) as (Hp1 & Hc1 & Hpc1).
  destruct (Hvalid p2 c2 ltac:(right; by left)) as (Hp2 & Hc2 & Hpc2).
  clear Hvalid Hconn Hlen.
  destruct p1 as [|[|[|p1]]], c1 as [|[|[|c1]]]; try lia;
    destruct p2 as [|[|[|p2]]], c2 as [|[|[|c2]]]; try lia;
    cbn in H0, H1, H2; try discriminate;
    cbn -[Z.add Z.sub Z.max]; lia.
Qed.

Lemma scan_two_nodes_cost (NDEBUG : bool) (T_max a : Z) :
  (a <= T_max)%Z ->
  exists ts,
    (forall fuel, 1 <= fuel ->
       Scan.compute_mst fuel NDEBUG T_max 2 (table_of 2 [a]) = Ok ts) /\
    edges_cost (table_of 2 [a]) (edges_of (Scan.m_adjacency_list ts)) = a.
Proof.
  intros Ha. apply Z.leb_le in Ha.
  destruct NDEBUG; eexists; (split;
    [ intros fuel Hfuel; destruct fuel as [|[|fuel]]; [lia| |]; run_symbolic; reflexivity
    | cbn -[Z.add]; lia ]).
Qed.

Lemma scan_three_nodes_cost (NDEBUG : bool) (T_max a b c : Z) :
  (a <= T_max)%Z -> (b <= T_max)%Z -> (c <= T_max)%Z ->
  exists ts,
    (forall fuel, 2 <= fuel ->
       Scan.compute_mst fuel NDEBUG T_max 3 (table_of 3 [a; b; c]) = Ok ts) /\
    edges_cost (table_of 3 [a; b; c]) (edges_of (Scan.m_adjacency_list ts))
    = (a + b + c - Z.max a (Z.max b c))%Z.
Proof.
  intros Ha Hb Hc. apply Z.leb_le in Ha, Hb, Hc.
  case_order a b; case_order a c; case_order b c;
    try solve [exfalso; comparisons_to_props; lia].
  all: destruct NDEBUG; eexists; (split;
    [ intros fuel Hfuel; destruct fuel as [|[|[|fuel]]]; [lia|lia| |];
      run_symbolic; reflexivity
    | cbn -[Z.add Z.sub Z.max]; comparisons_to_props; lia ]).
Qed.

(** X8: On two and on three nodes the array-scan [compute_mst] does return a
    minimum spanning tree: for every table of width 2 or 3 whose costs are
    values of the cost type, ties included, it returns a spanning tree
    whose total cost is at most that of any spanning tree.  The choice of
    the slot can go wrong only when a turn after the first has two slots or
    more to choose from, that is from four nodes on. *)
Theorem scan_compute_mst_is_minimal_up_to_three_nodes
    (NDEBUG : bool) (T_max : Z) (n : nat) (weights : triangular_table) :
  2 <= n -> n <= 3 -> table_wf n weights -> costs_below T_max weights ->
  exists ts cost,
    returns (fun fuel => Scan.compute_mst fuel NDEBUG T_max n weights) ts /\
    is_spanning_tree n (edges_of (Scan.m_adjacency_list ts)) /\
    total_cost weights (edges_of (Scan.m_adjacency_list ts)) = Ok cost /\
    forall other, is_spanning_tree n other ->
      exists cost', total_cost weights other = Ok cost' /\ (cost <= cost')%Z.
Proof.
  intros Hn2 Hn3 Hwf Hbelow.
  destruct (scan_compute_mst_spec NDEBUG T_max n weights Hn2 Hwf Hbelow)
    as (ts & [k Hret] & Hshape).
  pose proof (spanning_edges n _ _ ltac:(lia) Hshape) as Hspan.
  exists ts, (edges_cost weights (edges_of (Scan.m_adjacency_list ts))).
  split; [by exists k|]. split; [exact Hspan|]. split.
  { apply (total_cost_edges_cost n); [exact Hwf | apply Hspan]. }
  intros other Hother. exists (edges_cost weights other).
  split; [apply (total_cost_edges_cost n); [exact Hwf | apply Hother]|].
  clear Hshape Hspan.
  destruct weights as [cells width]. destruct Hwf as [Hw Hlen].
  cbn [m_width m_data] in Hw, Hlen. subst width.
  unfold costs_below in Hbelow. cbn [m_data] in Hbelow.
  assert (Hcase : n = 2 \/ n = 3) by lia.
  destruct Hcase as [-> | ->].
  - destruct cells as [|a [|? ?]]; try discriminate.
    apply Forall_cons in Hbelow as [Ha _].
    destruct (scan_two_nodes_cost NDEBUG T_max a Ha) as (ts' & Hrun & Hcost).
    assert (ts' = ts) as ->.
    { specialize (Hrun (k + 1) ltac:(lia)). specialize (Hret (k + 1) ltac:(lia)).
      unfold table_of in Hrun. congruence. }
    unfold table_of in Hcost. rewrite Hcost. by apply two_nodes_lower_bound.
  - destruct cells as [|a [|b [|c [|? ?]]]]; try discriminate.
    apply Forall_cons in Hbelow as [Ha Hbelow].
    apply Forall_cons in Hbelow as [Hb Hbelow].
    apply Forall_cons in Hbelow as [Hc _].
    destruct (scan_three_nodes_cost NDEBUG T_max a b c Ha Hb Hc) as (ts' & Hrun & Hcost).
    assert (ts' = ts) as ->.
    { specialize (Hrun (k + 2) ltac:(lia)). specialize (Hret (k + 2) ltac:(lia)).
      unfold table_of in Hrun. congruence. }
    unfold table_of in Hcost. rewrite Hcost. by apply three_nodes_lower_bound.
Qed.

Lemma scan_compute_mst_is_minimal_up_to_three_nodes_witness :
  exists ts cost,
    returns (fun fuel => Scan.compute_mst fuel false DBL_MAX 3 weights_end_to_end) ts /\
    total_cost weights_end_to_end (edges_of (Scan.m_adjacency_list ts)) = Ok cost /\
    exists cost', total_cost weights_end_to_end [(0, 1); (1, 2)] = Ok cost' /\
                  (cost <= cost')%Z.
Proof.
  destruct (scan_compute_mst_is_minimal_up_to_three_nodes false DBL_MAX 3 weights_end_to_end)
    as (ts & cost & Hret & _ & Hcost & Hmin).
  - lia.
  - lia.
  - split; reflexivity.
  - unfold costs_below, weights_end_to_end, table_of, DBL_MAX. simpl.
    repeat constructor; vm_compute; discriminate.
  - exists ts, cost. split; [exact Hret|]. split; [exact Hcost|]. apply Hmin.
    split; [reflexivity|]. split.
    + intros p c Hin.
      repeat (apply elem_of_cons in Hin as [[= -> ->]|Hin]; [lia|]). inversion Hin.
    + assert (H1 : connected [(0, 1); (1, 2)] 0 1)
        by (apply connected_once; left; by left).
      assert (H2 : connected [(0, 1); (1, 2)] 0 2).
      { eapply connected_step; [exact H1|]. left. right. by left. }
      intros v Hv. destruct v as [|[|[|v]]]; [apply connected_refl | done | done | lia].
Defined.

(** ** Pairwise distinct costs *)

Lemma selections_fst {A} (l : list A) : (Heap.selections l).*1 = l.
Proof.
  induction l as [|x xs IH]; [reflexivity|]. cbn [Heap.selections].
  rewrite fmap_cons. cbn [fst]. f_equal. rewrite <- IH at 2.
  change (map ?f ?l) with (f <$> l).
  rewrite <- list_fmap_compose. apply list_fmap_ext. by intros i [y ys] _.
Qed.

Lemma tops_single heap :
  heap <> [] -> NoDup (Heap.weight <$> heap) ->
  exists curr rest, Heap.tops heap = [(curr, rest)].
Proof.
  intros Hne Hnd. pose proof (tops_nonempty heap Hne) as Hsome.
  destruct (Heap.tops heap) as [|[e1 r1] [|[e2 r2] more]] eqn:Htops; [done | by eauto |].
  exfalso.
  assert (Hsub : sublist (Heap.tops heap).*1 heap).
  { unfold Heap.tops. rewrite <- (selections_fst heap) at 2.
    apply fmap_sublist. generalize (Heap.selections heap). intros l.
    induction l as [|x l IH]; cbn [List.filter]; [constructor|].
    destruct (let '(e, _) := x in Heap.is_top heap e);
      [by apply sublist_skip | by apply sublist_cons]. }
  rewrite Htops in Hsub. rewrite !fmap_cons in Hsub. cbn [fst] in Hsub.
  assert (Hnd' : NoDup (Heap.weight <$> (e1 :: e2 :: more.*1))).
  { eapply sublist_NoDup; [exact Hnd | by apply fmap_sublist]. }
  rewrite !fmap_cons in Hnd'. apply NoDup_cons in Hnd' as [Hnot _].
  apply Hnot, elem_of_cons. left.
  assert (Hin1 : (e1, r1) ∈ Heap.tops heap) by (rewrite Htops; by left).
  assert (Hin2 : (e2, r2) ∈ Heap.tops heap) by (rewrite Htops; right; by left).
  pose proof (tops_selections _ _ _ Hin1) as Hp1.
  pose proof (tops_selections _ _ _ Hin2) as Hp2.
  pose proof (tops_lightest _ _ _ Hin1 e2 ltac:(rewrite Hp2; by left)).
  pose proof (tops_lightest _ _ _ Hin2 e1 ltac:(rewrite Hp1; by left)).
  lia.
Qed.

Lemma push_unreached_app n (t : Heap.tree) cells :
  heap_flags n (Heap.m_adjacency_list t) (Heap.m_parent t) ->
  (forall c w, (c, w) ∈ cells -> c.1 < n) ->
  forall heap,
    Heap.push_unreached t cells heap
    = Ok (heap ++ pushed_entries (tree_nodes (Heap.m_adjacency_list t)) cells).
Proof.
  intros Hflags. induction cells as [|[[dst src] w] cells IH]; intros Hcells heap.
  - cbn. by rewrite app_nil_r.
  - cbn [Heap.push_unreached].
    rewrite (heap_contains_spec n t dst Hflags (Hcells (dst, src) w ltac:(by left))).
    cbn [bind]. rewrite IH by (intros c w' Hin; apply (Hcells c w'); by right).
    unfold pushed_entries. cbn [omap list_omap].
    destruct (decide (dst ∈ tree_nodes (Heap.m_adjacency_list t))) as [Hin|Hout].
    + by rewrite bool_decide_eq_true_2 by exact Hin.
    + rewrite bool_decide_eq_false_2 by exact Hout. cbn [negb]. unfold Heap.emplace.
      by rewrite <- app_assoc.
Qed.

Lemma pushed_destinations nodes cells :
  sublist (Heap.destination <$> pushed_entries nodes cells) ((fun c => c.1.1) <$> cells).
Proof.
  induction cells as [|[[dst src] w] cells IH]; [constructor|].
  unfold pushed_entries. cbn [omap list_omap]. rewrite fmap_cons. cbn [fst].
  destruct (decide (dst ∈ nodes)); [by apply sublist_cons|].
  rewrite fmap_cons. cbn [Heap.destination]. by apply sublist_skip.
Qed.

Lemma pushed_elem nodes cells e :
  e ∈ pushed_entries nodes cells <->
  ((Heap.destination e, Heap.source e), Heap.weight e) ∈ cells /\
  (Heap.destination e ∉ nodes).
Proof.
  unfold pushed_entries. rewrite list_elem_of_omap. split.
  - intros ([[dst src] w] & Hin & Hsome).
    destruct (decide (dst ∈ nodes)); [discriminate|]. injection Hsome as <-. by split.
  - intros [Hin Hout]. eexists. split; [exact Hin|]. cbn.
    rewrite decide_False by exact Hout. by destruct e.
Qed.

Lemma nodup_fmap_elements {A B} (f : A -> B) (l : list A) x y :
  NoDup (f <$> l) -> x ∈ l -> y ∈ l -> f x = f y -> x = y.
Proof.
  intros Hnd Hx Hy Heq.
  apply list_elem_of_lookup in Hx as [i Hi]. apply list_elem_of_lookup in Hy as [j Hj].
  assert (i = j).
  { eapply (NoDup_lookup (f <$> l)); [exact Hnd | |];
      rewrite list_lookup_fmap; [by rewrite Hi | by rewrite Hj, Heq]. }
  subst j. congruence.
Qed.

Section DistinctCosts.

Variables (n : nat) (weights : triangular_table).
Hypothesis weights_wf : table_wf n weights.
Hypothesis n_pos : 0 < n.
Hypothesis costs_distinct : NoDup (m_data weights).

Lemma distinct_inv_perm t heap heap' :
  heap ≡ₚ heap' -> distinct_inv n weights t heap -> distinct_inv n weights t heap'.
Proof.
  intros Hperm [Hheap Hentries Hnd]. split.
  - by apply (heap_inv_perm n t heap heap').
  - intros e He. apply Hentries. by rewrite Hperm.
  - by rewrite <- Hperm.
Qed.

Lemma same_cost_same_pair s d s' d' w :
  s < n -> d < n -> s <> d -> s' < n -> d' < n -> s' <> d' ->
  m_data weights !! cell_index s d = Some w ->
  m_data weights !! cell_index s' d' = Some w ->
  (s = s' /\ d = d') \/ (s = d' /\ d = s').
Proof.
  intros Hs Hd Hsd Hs' Hd' Hsd' H1 H2.
  apply (cell_index_inj n); try done.
  by eapply NoDup_lookup.
Qed.

Lemma distinct_visit_old t heap curr :
  distinct_inv n weights t (curr :: heap) ->
  Heap.destination curr ∈ tree_nodes (Heap.m_adjacency_list t) ->
  Heap.visit weights t curr heap = Ok (t, heap) /\ distinct_inv n weights t heap.
Proof.
  intros [Hheap Hentries Hnd] Hold.
  destruct (heap_visit_old n weights t heap curr Hheap Hold) as [Hvisit Hheap'].
  split; [exact Hvisit|]. split; [exact Hheap'| |].
  - intros e He. apply Hentries. by right.
  - rewrite fmap_cons in Hnd. by apply NoDup_cons in Hnd as [_ Hnd].
Qed.

Lemma distinct_pushed (t : Heap.tree) heap y cells :
  tree_shape n (Heap.m_adjacency_list t) ->
  (forall e, e ∈ heap ->
     Heap.source e ∈ tree_nodes (Heap.m_adjacency_list t) /\
     Heap.destination e < n /\ Heap.source e <> Heap.destination e /\
     m_data weights !! cell_index (Heap.source e) (Heap.destination e)
     = Some (Heap.weight e)) ->
  NoDup (Heap.weight <$> heap) ->
  y < n -> y ∉ tree_nodes (Heap.m_adjacency_list t) ->
  (forall x y' w, ((x, y'), w) ∈ cells ->
     y' = y /\ x < n /\ x <> y /\ get weights x y = Ok w) ->
  NoDup cells.*1 ->
  let heap' := heap ++ pushed_entries (y :: tree_nodes (Heap.m_adjacency_list t)) cells in
  (forall e, e ∈ heap' ->
     Heap.source e <> Heap.destination e /\
     m_data weights !! cell_index (Heap.source e) (Heap.destination e)
     = Some (Heap.weight e)) /\
  NoDup (Heap.weight <$> heap').
Proof.
  intros Hshape Hold Hnd Hy Hfresh Hcells Hcellnd heap'.
  set (nodes := tree_nodes (Heap.m_adjacency_list t)) in *.
  assert (Hnew : forall e, e ∈ pushed_entries (y :: nodes) cells ->
            Heap.source e = y /\ Heap.destination e < n /\ Heap.destination e <> y /\
            (Heap.destination e ∉ nodes) /\
            m_data weights !! cell_index (Heap.source e) (Heap.destination e)
            = Some (Heap.weight e)).
  { intros e He. apply pushed_elem in He as [Hin Hout].
    destruct (Hcells _ _ _ Hin) as (Hs & Hd & Hne & Hget).
    apply not_elem_of_cons in Hout as [_ Hout].
    split; [exact Hs|]. split; [exact Hd|]. split; [exact Hne|]. split; [exact Hout|].
    rewrite Hs, cell_index_sym.
    destruct (get_valid n weights (Heap.destination e) y weights_wf Hd Hy Hne)
      as (w & Hw & Hget').
    congruence. }
  assert (Hall : forall e, e ∈ heap' ->
            Heap.source e < n /\ Heap.destination e < n /\
            Heap.source e <> Heap.destination e /\
            m_data weights !! cell_index (Heap.source e) (Heap.destination e)
            = Some (Heap.weight e)).
  { intros e He. apply elem_of_app in He as [He|He].
    - destruct (Hold e He) as (Hs & Hd & Hne & Hw).
      split; [by apply (shape_bound _ _ Hshape)|]. done.
    - destruct (Hnew e He) as (Hs & Hd & Hne & _ & Hw).
      split; [by rewrite Hs|]. split; [exact Hd|]. split; [by rewrite Hs|]. exact Hw. }
  split; [intros e He; by destruct (Hall e He) as (_ & _ & Hne & Hw)|].
  apply NoDup_fmap_2_strong.
  - intros e1 e2 H1 H2 Heq.
    destruct (Hall e1 H1) as (Hs1 & Hd1 & Hne1 & Hw1).
    destruct (Hall e2 H2) as (Hs2 & Hd2 & Hne2 & Hw2).
    rewrite Heq in Hw1.
    pose proof (same_cost_same_pair _ _ _ _ _ Hs1 Hd1 Hne1 Hs2 Hd2 Hne2 Hw1 Hw2) as Hpair.
    apply elem_of_app in H1 as [H1|H1]; apply elem_of_app in H2 as [H2|H2].
    + by eapply (nodup_fmap_elements Heap.weight heap).
    + exfalso. destruct (Hold e1 H1) as (Hin1 & _).
      destruct (Hnew e2 H2) as (Hsy & _ & _ & Hout2 & _).
      destruct Hpair as [[Hs _]|[Hs _]].
      * apply Hfresh. by rewrite <- Hsy, <- Hs.
      * apply Hout2. by rewrite <- Hs.
    + exfalso. destruct (Hold e2 H2) as (Hin2 & _).
      destruct (Hnew e1 H1) as (Hsy & _ & _ & Hout1 & _).
      destruct Hpair as [[Hs _]|[_ Hd]].
      * apply Hfresh. by rewrite <- Hsy, Hs.
      * apply Hout1. by rewrite Hd.
    + destruct (Hnew e1 H1) as (Hsy1 & _ & Hdy1 & _).
      destruct (Hnew e2 H2) as (Hsy2 & _ & Hdy2 & _).
      destruct Hpair as [[Hs Hd]|[Hs Hd]]; [|congruence].
      destruct e1, e2. cbn in *. congruence.
  - apply NoDup_app. split; [by eapply NoDup_fmap_1|]. split.
    + intros e H1 H2. destruct (Hold e H1) as (Hin & _).
      destruct (Hnew e H2) as (Hsy & _). apply Hfresh. by rewrite <- Hsy.
    + apply (NoDup_fmap_1 Heap.destination).
      eapply sublist_NoDup; [|apply pushed_destinations].
      replace ((fun c : coordinate * Z => c.1.1) <$> cells) with (fst <$> cells.*1)
        by (by rewrite <- list_fmap_compose).
      apply NoDup_fmap_2_strong; [|exact Hcellnd].
      intros [x1 y1] [x2 y2] H1 H2 Heq. cbn in Heq. subst x2.
      apply list_elem_of_fmap in H1 as ([c1 w1] & [= <-] & H1).
      apply list_elem_of_fmap in H2 as ([c2 w2] & [= <-] & H2).
      destruct (Hcells _ _ _ H1) as (-> & _). destruct (Hcells _ _ _ H2) as (-> & _).
      reflexivity.
Qed.

Lemma row_coordinates_nodup y cells :
  y < n -> row weights y = Ok cells -> NoDup cells.*1.
Proof.
  intros Hy Hrow. unfold row in Hrow. apply bind_Ok_inv in Hrow as ([] & _ & Hrow).
  rewrite (proj1 weights_wf), (filter_seq_skip n _ Hy) in Hrow.
  destruct (row_cells_spec n weights y (seq 0 y ++ seq (S y) (n - S y)) weights_wf Hy)
    as (cells' & Hrow' & Hfst).
  { intros x Hx. apply elem_of_app in Hx as [Hx|Hx]; apply elem_of_seq in Hx; lia. }
  assert (cells' = cells) as -> by congruence. rewrite Hfst.
  apply NoDup_fmap_2_strong; [by intros x x' _ _ [= ->]|].
  apply NoDup_app. split; [apply NoDup_seq|]. split; [|apply NoDup_seq].
  intros x Hx Hx'. apply elem_of_seq in Hx, Hx'. lia.
Qed.

Lemma distinct_visit_fresh t heap curr :
  distinct_inv n weights t (curr :: heap) ->
  Heap.destination curr ∉ tree_nodes (Heap.m_adjacency_list t) ->
  exists t' heap',
    Heap.visit weights t curr heap = Ok (t', heap') /\
    distinct_inv n weights t' heap' /\
    Heap.num_edges t' = S (Heap.num_edges t) /\
    length heap' <= length heap + n.
Proof.
  intros [Hheap Hentries Hnd] Hfresh.
  destruct (heap_visit_fresh n weights weights_wf n_pos t heap curr Hheap Hfresh)
    as (t' & heap' & Hvisit & Hheap' & Hedges' & Hlen').
  exists t', heap'. split; [exact Hvisit|]. split; [|by split].
  destruct (hinv_entries _ _ _ Hheap curr ltac:(by left)) as [Hsrc Hdst].
  pose proof (hinv_shape _ _ _ Hheap) as Hshape.
  unfold Heap.visit in Hvisit.
  apply bind_Ok_inv in Hvisit as ([t1 inserted] & Hins & Hvisit).
  destruct inserted.
  2:{ injection Hvisit as <- <-. apply heap_try_insert_refused in Hins. subst t1. lia. }
  apply bind_Ok_inv in Hvisit as (cells & Hrow & Hvisit).
  apply bind_Ok_inv in Hvisit as (heap1 & Hpush & [= <- <-]).
  destruct (heap_try_insert_inv _ _ _ _ Hins) as (cs & Hcs & Hadj').
  assert (Hnodes : tree_nodes (Heap.m_adjacency_list t1)
                   ≡ₚ Heap.destination curr :: tree_nodes (Heap.m_adjacency_list t)).
  { unfold tree_nodes. rewrite Hadj', (concat_insert_snoc _ _ _ _ Hcs). apply perm_swap. }
  destruct (row_entries n weights _ cells weights_wf Hdst Hrow) as [Hcells _].
  rewrite (push_unreached_app n t1 cells (hinv_flags _ _ _ Hheap')) in Hpush
    by (intros [x y] w Hin; by apply (Hcells x y w)).
  injection Hpush as <-.
  assert (Hsame : pushed_entries (tree_nodes (Heap.m_adjacency_list t1)) cells
                  = pushed_entries (Heap.destination curr
                                    :: tree_nodes (Heap.m_adjacency_list t)) cells).
  { unfold pushed_entries. apply list_omap_ext, Forall_Forall2_diag, Forall_forall.
    intros [[dst src] w] _.
    destruct (decide (dst ∈ tree_nodes (Heap.m_adjacency_list t1))) as [Hin|Hout];
      rewrite Hnodes in *; [by rewrite decide_True | by rewrite decide_False]. }
  rewrite Hsame in Hheap' |- *.
  rewrite fmap_cons in Hnd. apply NoDup_cons in Hnd as [_ Hnd].
  destruct (distinct_pushed t heap (Heap.destination curr) cells Hshape) as [Hent' Hnd'];
    try done.
  { intros e He. destruct (hinv_entries _ _ _ Hheap e ltac:(by right)) as [Hs Hd].
    destruct (Hentries e ltac:(by right)) as [Hne Hw]. done. }
  { by eapply row_coordinates_nodup. }
Qed.

Lemma distinct_mst_loop m :
  forall t heap,
    distinct_inv n weights t heap ->
    length heap + n * (n - 1 - Heap.num_edges t) <= m ->
    exists t', forall fuel, m <= fuel -> Heap.mst_loop fuel n weights t heap = [Ok t'].
Proof.
  induction m as [|m IH]; intros t heap Hinv Hm.
  - exists t. intros fuel _. destruct fuel; cbn [Heap.mst_loop];
      destruct (Heap.num_edges t + 1 <? n) eqn:Hguard; try reflexivity;
      apply Nat.ltb_lt in Hguard; exfalso;
      assert (1 <= n * (n - 1 - Heap.num_edges t)) by nia; lia.
  - destruct (Heap.num_edges t + 1 <? n) eqn:Hguard.
    2:{ exists t. intros fuel _. destruct fuel; cbn [Heap.mst_loop]; by rewrite Hguard. }
    apply Nat.ltb_lt in Hguard.
    assert (Hne : heap <> []).
    { destruct (distinct_heap _ _ _ _ Hinv) as [Hshape Hedges _ _ Hreach].
      destruct (nodes_missing (tree_nodes (Heap.m_adjacency_list t)) n)
        as (v & Hv & Hnot); [apply (shape_nodup _ _ Hshape) | |].
      { unfold tree_nodes. cbn [length]. rewrite <- Hedges. lia. }
      destruct (Hreach v Hv Hnot) as (e & He & _).
      intros ->. by apply elem_of_nil in He. }
    destruct (tops_single heap Hne (distinct_weights _ _ _ _ Hinv)) as (curr & heap' & Htops).
    assert (Hin : (curr, heap') ∈ Heap.tops heap) by (rewrite Htops; by left).
    pose proof (tops_selections _ _ _ Hin) as Hperm.
    pose proof (distinct_inv_perm _ _ _ Hperm Hinv) as Hinv'.
    pose proof (Permutation_length Hperm) as Hlen. cbn [length] in Hlen.
    assert (Hnext : exists t1 heap1,
              Heap.visit weights t curr heap' = Ok (t1, heap1) /\
              distinct_inv n weights t1 heap1 /\
              length heap1 + n * (n - 1 - Heap.num_edges t1) <= m).
    { destruct (decide (Heap.destination curr ∈ tree_nodes (Heap.m_adjacency_list t)))
        as [Hold|Hfresh].
      - destruct (distinct_visit_old t heap' curr Hinv' Hold) as [Hvisit Hinv''].
        exists t, heap'. split; [exact Hvisit|]. split; [exact Hinv'' | lia].
      - destruct (distinct_visit_fresh t heap' curr Hinv' Hfresh)
          as (t1 & heap1 & Hvisit & Hinv'' & Hedges' & Hlen'').
        exists t1, heap1. split; [exact Hvisit|]. split; [exact Hinv''|].
        rewrite Hedges'. nia. }
    destruct Hnext as (t1 & heap1 & Hvisit & Hinv1 & Hm1).
    destruct (IH t1 heap1 Hinv1 Hm1) as (t' & Hrun).
    exists t'. intros fuel Hfuel. destruct fuel as [|fuel]; [lia|].
    cbn [Heap.mst_loop]. rewrite (proj2 (Nat.ltb_lt _ _) Hguard), Htops.
    cbn [flat_map]. rewrite Hvisit, app_nil_r. apply Hrun. lia.
Qed.

End DistinctCosts.

(** X6: With pairwise distinct costs the heap-based [compute_mst] has one
    result only: on a table of width [n >= 1] whose cells hold pairwise
    distinct values, no two entries of the queue ever have the same weight,
    so that [top()] is determined, and the tree returned does not depend on
    the library's priority queue. *)
Theorem heap_compute_mst_is_determined_by_distinct_costs
    (n : nat) (weights : triangular_table) :
  1 <= n -> table_wf n weights -> NoDup (m_data weights) ->
  exists t, forall fuel, n * n <= fuel -> Heap.compute_mst fuel n weights = [Ok t].
Proof.
  intros Hn Hwf Hdistinct.
  unfold Heap.compute_mst, Heap.new_tree.
  rewrite (proj2 (Nat.ltb_lt 0 n)) by lia. cbn [runtime_assert bind].
  destruct (row_spec n weights 0 Hwf ltac:(lia)) as (cells & Hrow & Hlen & Hcells & Hsnd & Hall).
  rewrite Hrow.
  destruct (row_entries n weights 0 cells Hwf ltac:(lia) Hrow) as [Hvalues _].
  destruct (push_all_spec n 0 cells) with (heap := @nil Heap.pq_entry)
    as (Hplen & Hfrom & _ & Hreach).
  { intros [x y] w Hin. pose proof (Hsnd _ _ Hin) as Hy. cbn in Hy. subst y.
    split; [by apply (Hcells x w) | reflexivity]. }
  set (t0 := {| Heap.m_parent := replicate n None;
                Heap.m_adjacency_list := replicate n [];
                Heap.m_num_edges := 0 |}).
  assert (Hshape0 : tree_shape n (Heap.m_adjacency_list t0)) by (apply tree_shape_init; lia).
  assert (Hpushed : Heap.push_all cells [] = pushed_entries [] cells).
  { unfold Heap.push_all, pushed_entries.
    assert (Hgen : forall heap,
              fold_left (fun h '(dst, src, w) => Heap.emplace h src dst w) cells heap
              = heap ++ omap (fun '(dst, src, w) =>
                         if decide (dst ∈ []) then None
                         else Some {| Heap.source := src; Heap.destination := dst;
                                      Heap.weight := w |}) cells).
    { clear. induction cells as [|[[dst src] w] cells IH]; intros heap.
      - cbn. by rewrite app_nil_r.
      - cbn [fold_left omap list_omap]. rewrite IH. unfold Heap.emplace.
        rewrite decide_False by apply not_elem_of_nil. by rewrite <- app_assoc. }
    apply (Hgen []). }
  destruct (distinct_mst_loop n weights Hwf ltac:(lia) Hdistinct (n * n) t0
              (Heap.push_all cells []))
    as (t & Hrun).
  - split.
    + split; cbn [t0 Heap.m_adjacency_list Heap.m_parent Heap.num_edges Heap.m_num_edges].
      * exact Hshape0.
      * by rewrite concat_replicate_nil.
      * split; [apply length_replicate|]. intros v Hv. exists None.
        split; [by apply lookup_replicate_2|]. rewrite concat_replicate_nil.
        split; [intros [? ?]; discriminate | intros Hin; by apply elem_of_nil in Hin].
      * intros e He. unfold tree_nodes. rewrite concat_replicate_nil.
        destruct (Hfrom e He) as [Hnil|[Hs Hd]]; [by apply elem_of_nil in Hnil|].
        split; [rewrite Hs; by left | exact Hd].
      * intros v Hv Hnot. unfold tree_nodes in Hnot. rewrite concat_replicate_nil in Hnot.
        assert (v <> 0) by (intros ->; apply Hnot; by left).
        destruct (Hall v Hv ltac:(done)) as (w & Hw).
        by apply (Hreach (v, 0) w).
    + intros e He. rewrite Hpushed in He. apply pushed_elem in He as [Hin _].
      destruct (Hvalues _ _ _ Hin) as (Hs & Hd & Hne & Hget).
      split; [by rewrite Hs|]. rewrite Hs, cell_index_sym.
      destruct (get_valid n weights (Heap.destination e) 0 Hwf Hd ltac:(lia) Hne)
        as (w & Hw & Hget').
      congruence.
    + rewrite Hpushed. apply NoDup_fmap_2_strong.
      * intros e1 e2 H1 H2 Heq.
        apply pushed_elem in H1 as [H1 _]. apply pushed_elem in H2 as [H2 _].
        destruct (Hvalues _ _ _ H1) as (Hs1 & Hd1 & Hne1 & Hget1).
        destruct (Hvalues _ _ _ H2) as (Hs2 & Hd2 & Hne2 & Hget2).
        destruct (get_valid n weights (Heap.destination e1) 0 Hwf Hd1 ltac:(lia) Hne1)
          as (w1 & Hw1 & Hget1').
        destruct (get_valid n weights (Heap.destination e2) 0 Hwf Hd2 ltac:(lia) Hne2)
          as (w2 & Hw2 & Hget2').
        assert (w1 = Heap.weight e1) by congruence.
        assert (w2 = Heap.weight e2) by congruence. subst w1 w2. rewrite Heq in Hw1.
        destruct (same_cost_same_pair n weights Hdistinct
                    (Heap.destination e1) 0 (Heap.destination e2) 0 (Heap.weight e2)
                    Hd1 ltac:(lia) Hne1 Hd2 ltac:(lia) Hne2 Hw1 Hw2) as [[Hd _]|[Hd _]].
        -- destruct e1, e2. cbn in *. congruence.
        -- lia.
      * apply (NoDup_fmap_1 Heap.destination).
        eapply sublist_NoDup; [|apply pushed_destinations].
        replace ((fun c : coordinate * Z => c.1.1) <$> cells) with (fst <$> cells.*1)
        by (by rewrite <- list_fmap_compose).
      apply NoDup_fmap_2_strong.
        -- intros [x1 y1] [x2 y2] H1 H2 Heq. cbn in Heq. subst x2.
           apply list_elem_of_fmap in H1 as ([c1 w1] & [= <-] & H1).
           apply list_elem_of_fmap in H2 as ([c2 w2] & [= <-] & H2).
           destruct (Hvalues _ _ _ H1) as (-> & _).
           destruct (Hvalues _ _ _ H2) as (-> & _). reflexivity.
        -- by apply (row_coordinates_nodup n weights Hwf ltac:(lia) 0 cells ltac:(lia)).
  - cbn [t0 Heap.num_edges Heap.m_num_edges]. rewrite Hplen. cbn [length]. nia.
  - by exists t.
Qed.

Lemma heap_compute_mst_is_determined_by_distinct_costs_witness :
  exists t, forall fuel, 16 <= fuel -> Heap.compute_mst fuel 4 weights_distinct = [Ok t].
Proof.
  apply (heap_compute_mst_is_determined_by_distinct_costs 4 weights_distinct).
  - lia.
  - split; reflexivity.
  - unfold weights_distinct, table_of. cbn [m_data].
    apply NoDup_ListNoDup. repeat constructor; cbn; intuition discriminate.
Defined.
